(** * go-capnproto2: the RPC connection core and the local server's method table

    A shallow embedding of
      - [server/server.go]: the sorted method table of a local server
        ([New], [sortedMethods.find], [sortedMethods.Less]);
      - the [rpc] package's connection ([Conn]): the receive loop, the
        handlers of Call, Return, Finish and Disembargo, the reception of
        capability descriptors, the send queue and shutdown.

    Integers of the wire protocol (uint32 ids, uint64 interface ids) are
    modelled as [N]; none of the modelled code does arithmetic on them that
    could wrap.  Go's [error] is [option error] ([None] is [nil]). *)

From stdpp Require Import base option list gmap sorting strings.
From Stdlib Require Import NArith Lia.

Set Warnings "-register-all".
Local Open Scope N_scope.

(* ===================================================================== *)
(** * Part I: [server/server.go] *)
(* ===================================================================== *)

Module Server.

(** [server.Method]: the embedded [capnp.Method] contributes [InterfaceID]
    (uint64) and [MethodID] (uint16); [Impl] is a function value, kept as a
    tag that identifies it. *)
Record Method := mkMethod {
  InterfaceID : N;
  MethodID : N;
  Impl : N;
  ResultsSize : N
}.

(** The [capnp.Method] a caller looks up. *)
Record MethodKey := mkKey {
  kInterfaceID : N;
  kMethodID : N
}.

Abbreviation sortedMethods := (list Method).

(** [sortedMethods.Less], on the elements rather than on their indices. *)
Definition Less (mi mj : Method) : bool :=
  if negb (InterfaceID mi =? InterfaceID mj)
  then InterfaceID mi <? InterfaceID mj
  else MethodID mi <? MethodID mj.

(** The order [sort.Sort] establishes: [mj] is not [Less] than [mi]
    whenever [mi] stands before [mj]. *)
Definition notAfter (mi mj : Method) : Prop := Less mj mi = false.

#[global] Instance notAfter_dec mi mj : Decision (notAfter mi mj).
Proof. unfold notAfter. apply _. Defined.

(** Go's [sort.Sort] (standard library) sorts in ascending order of [Less]
    and promises no stability.  It is modelled by a merge sort over [Less];
    every result below that concerns [find] is first proved for an
    arbitrary sorted permutation of the input ([find_sorted_perm]). *)
Definition sort_Sort (sm : sortedMethods) : sortedMethods :=
  merge_sort notAfter sm.

(** [server.New]: copy the methods and sort the copy.  Only the method
    table of the server is kept. *)
Record Server := mkServer { methods : sortedMethods }.

Definition New (ms : list Method) : Server :=
  {| methods := sort_Sort ms |}.

(** Go's [sort.Search n f] (standard library): binary search for the
    smallest index in [0, n] at which [f] is true.
<<
      i, j := 0, n
      for i < j {
        h := int(uint(i+j) >> 1)
        if !f(h) { i = h + 1 } else { j = h }
      }
      return i
>>
    The loop runs on [fuel]; [Search] gives it [n], which is enough
    ([Search_loop_fuel]). *)
Fixpoint Search_loop (fuel : nat) (f : nat -> bool) (i j : nat) : nat :=
  match fuel with
  | O => i
  | S fuel' =>
      if (i <? j)%nat then
        let h := ((i + j) / 2)%nat in
        if negb (f h) then Search_loop fuel' f (h + 1)%nat j
        else Search_loop fuel' f i h
      else i
  end.

Definition Search (n : nat) (f : nat -> bool) : nat :=
  Search_loop n f 0%nat n.

(** The closure [find] hands to [sort.Search]. *)
Definition find_pred (id : MethodKey) (m : Method) : bool :=
  if negb (InterfaceID m =? kInterfaceID id)
  then kInterfaceID id <=? InterfaceID m
  else kMethodID id <=? MethodID m.

(** [sortedMethods.find]: [None] is the nil pointer. An index past the end
    cannot be passed to the closure by [sort.Search]; the model answers
    [false] there. *)
Definition find (sm : sortedMethods) (id : MethodKey) : option Method :=
  let i := Search (length sm)
             (fun i => match sm !! i with
                       | Some m => find_pred id m
                       | None => false
                       end) in
  if (i =? length sm)%nat then None
  else match sm !! i with
       | None => None
       | Some m =>
           if negb (InterfaceID m =? kInterfaceID id)
              || negb (MethodID m =? kMethodID id)
           then None
           else Some m
       end.

Definition matches (id : MethodKey) (m : Method) : Prop :=
  InterfaceID m = kInterfaceID id /\ MethodID m = kMethodID id.

(** The ids that tell a method from another. *)
Definition key (m : Method) : N * N := (InterfaceID m, MethodID m).

End Server.

(* ===================================================================== *)
(** * Part II: the [rpc] package's connection *)
(* ===================================================================== *)

Module Rpc.

(** The connection is modelled by explicit state passing: a function of
    the source becomes a function from the state [Conn] to its result and
    the next state.  [Conn] holds the fields of [c.lk], the other fields
    of the connection, and what the connection shares with the rest of the
    program: the [question] objects (a heap, since goroutines and
    callbacks keep their addresses), the capability tables of the
    received messages (the loop of [parseReturn] writes into the table
    [recvPayload] stored in the message), the send queue and the
    goroutines started.  The calls to collaborators (the error reporter, the
    transport, clients, promises, release functions) are appended to a log.

    Each modelled function runs under the mutex [c.lk] or in the receive
    goroutine, so it is modelled as one atomic step; what other goroutines
    do shows as separate steps ([runTask], [runOnSent]).  The closures the
    source passes around ([build], [onSent], goroutine bodies) are
    defunctionalised. *)

(** ** Identifiers *)

(** [questionID], [answerID], [exportID], [importID] and [embargoID] are
    uint32 in the source and [N] here. *)
Abbreviation answerID := N (only parsing).
Abbreviation importID := N (only parsing).
(** The identity of a [*Conn]: what [ic.c != c] and [q.c != c] compare. *)
Abbreviation ConnID := N (only parsing).
(** The identity of a received message: what its [release] releases and
    what owns a capability table. *)
Abbreviation MsgID := N (only parsing).
(** The address of a [*question]. *)
Abbreviation qref := N (only parsing).

(** ** Errors *)

(** The errors the connection builds.  [ErrExternal] is an error handed
    over by the serialization layer or the transport; the others mirror
    their constructors in the source ([rpcerr.Failedf], [fmt.Errorf],
    [rpcerr.Annotate], [exc.New], ...) with the format string, the numbers
    it is given and the error it wraps. *)
Inductive error : Type :=
| ErrExternal (tag : N)
| ErrConnClosed
| ErrNotACapability
| ErrCapTablePopulated
| ExcClosed
| ContextCanceled
| Failedf (fmt : string) (args : list N) (cause : option error)
| Unimplementedf (fmt : string) (args : list N)
| Disconnectedf (fmt : string)
| Disconnected (cause : error)
| Failed (cause : error)
| Errorf (fmt : string) (args : list N) (cause : option error)
| Annotate (cause : error) (fmt : string) (args : list N)
| ExcNew (ty : N) (prefix : string) (msg : string)
| CloseFailed (cause : error).

(** Go's [(value, error)] results of the generated accessors. *)
Inductive result (A : Type) : Type :=
| Ok (a : A)
| Err (e : error).
Arguments Ok {A} a.
Arguments Err {A} e.

(** [rpcerr.Annotate] and [rpcerr.Annotatef] on a possibly nil error. *)
Definition annotate (e : option error) (msg : string) : option error :=
  match e with
  | None => None
  | Some e => Some (Annotate e msg [])
  end.

(** ** The serialization layer, as far as the connection looks at it *)

Record PipelineOp := mkOp {
  Field : N;
  DefaultValue : option N
}.

(** [capnp.Ptr]: a null pointer, a struct with its pointer fields, an
    interface pointer (an index into the capability table of its message)
    or any other pointer. *)
Inductive Ptr : Type :=
| Ptr_null
| Ptr_struct (ptrs : list Ptr)
| Ptr_interface (cap : N)
| Ptr_other (tag : N).

Record Interface := mkInterface {
  Interface_IsValid : bool;
  Capability : N
}.

(** [Ptr.Interface()]: the zero [Interface] unless the pointer is one. *)
Definition Ptr_Interface (p : Ptr) : Interface :=
  match p with
  | Ptr_interface cap => mkInterface true cap
  | _ => mkInterface false 0
  end.

Definition Ptr_IsValid (p : Ptr) : bool :=
  match p with
  | Ptr_null => false
  | _ => true
  end.

(** ** Clients *)

(** [capnp.Client] by what stands behind it.  [Client_pipeline] carries
    what [getAnswerQuestion] finds for the answer of the pipeline client:
    the connection of the question it belongs to, if it belongs to one. *)
Inductive Client : Type :=
| Client_null
| Client_import (c : ConnID) (id : importID)
| Client_pipeline (q : option ConnID) (transform : list PipelineOp)
| Client_error (e : error)
| Client_server (tag : N)
| Client_embargo (inner : Client).

(** The dynamic type of [client.State().Brand.Value], as the type
    assertions of [isLocalClient] and [handleDisembargo] tell them apart. *)
Inductive BrandValue : Type :=
| BV_importClient (c : ConnID) (id : importID)
| BV_PipelineClient (q : option ConnID)
| BV_error (e : error)
| BV_other.

Definition Brand_Value (client : Client) : BrandValue :=
  match client with
  | Client_import c id => BV_importClient c id
  | Client_pipeline q _ => BV_PipelineClient q
  | Client_error e => BV_error e
  | Client_null | Client_server _ | Client_embargo _ => BV_other
  end.

(** ** Received messages

    A received message is modelled by what its accessors return: a
    fallible accessor by a [result]. *)

Inductive PromisedAnswer_Op : Type :=
| Op_noop
| Op_getPointerField (f : N)
| Op_other (which : N).

Record PromisedAnswer := mkPromisedAnswer {
  pa_QuestionId : N;
  pa_Transform : result (list PromisedAnswer_Op)
}.

Inductive MessageTarget : Type :=
| MessageTarget_importedCap (id : N)
| MessageTarget_promisedAnswer (pa : result PromisedAnswer)
| MessageTarget_other (which : N).

Inductive CapDescriptor : Type :=
| CapDescriptor_none
| CapDescriptor_senderHosted (id : N)
| CapDescriptor_senderPromise (id : N)
| CapDescriptor_receiverHosted (id : N)
| CapDescriptor_receiverAnswer (pa : result PromisedAnswer)
| CapDescriptor_other (which : N).

(** [rpccp.Payload]; [payload_msg] is [payload.Message()]. *)
Record Payload := mkPayload {
  payload_IsValid : bool;
  payload_msg : MsgID;
  payload_Content : result Ptr;
  payload_CapTable : result (list CapDescriptor)
}.

Inductive SendResultsTo : Type :=
| SendResultsTo_caller
| SendResultsTo_yourself
| SendResultsTo_thirdParty.

Record Call := mkCall {
  call_QuestionId : N;
  call_InterfaceId : N;
  call_MethodId : N;
  call_SendResultsTo : SendResultsTo;
  call_Params : result Payload;
  call_Target : result MessageTarget
}.

Record Exception := mkException {
  exc_Type : N;
  exc_Reason : result string
}.

Inductive Return_Which : Type :=
| Return_results (r : result Payload)
| Return_exception (e : result Exception)
| Return_other (which : N).

(** [rpccp.Return]; [ret_msg] is [ret.Message()]. *)
Record Return := mkReturn {
  ret_AnswerId : N;
  ret_msg : MsgID;
  ret_Which : Return_Which
}.

Record Finish := mkFinish {
  fin_QuestionId : N;
  fin_ReleaseResultCaps : bool
}.

Record Release := mkRelease {
  rel_Id : N;
  rel_ReferenceCount : N
}.

Inductive Disembargo_context : Type :=
| Disembargo_senderLoopback (id : N)
| Disembargo_receiverLoopback (id : N)
| Disembargo_context_other (which : N).

Record Disembargo := mkDisembargo {
  d_Target : result MessageTarget;
  d_Context : Disembargo_context
}.

(** [rpccp.Message]: the union discriminant with what the accessor of
    that case returns. *)
Inductive Message : Type :=
| Message_unimplemented
| Message_abort (r : result Exception)
| Message_bootstrap (r : result N)
| Message_call (r : result Call)
| Message_return (r : result Return)
| Message_finish (r : result Finish)
| Message_release (r : result Release)
| Message_disembargo (r : result Disembargo)
| Message_other (which : N).

(** What [reader] sends down the channel: the message, the handle its
    [Release] releases, and the error of [RecvMessage]. *)
Record incomingMessage := mkIncoming {
  in_Message : Message;
  in_Release : MsgID;
  in_err : option error
}.


(** ** The state of a connection *)

(** Modelled from the spec: the id allocator ([idgen], defined elsewhere in
    the package) assigns ids monotonically and reuses the ids given
    back to it: "monotonic id assignment with free-list reuse". *)
Record idgen := mkIdgen {
  gen_i : N;
  gen_free : list N
}.

Definition idgen_next (g : idgen) : N * idgen :=
  match gen_free g with
  | id :: free => (id, mkIdgen (gen_i g) free)
  | [] => (gen_i g, mkIdgen (gen_i g + 1) [])
  end.

Definition idgen_remove (id : N) (g : idgen) : idgen :=
  mkIdgen (gen_i g) (id :: gen_free g).

(** [uintSet]: a set of indices with [has] and [add]. *)
Definition uintSet_has (s : gset N) (i : N) : bool := bool_decide (i ∈ s).
Definition uintSet_add (s : gset N) (i : N) : gset N := {[ i ]} ∪ s.

(** The flag sets of questions and answers are bit masks whose constants
    are declared elsewhere in the package; each named flag is a bit. *)
Record questionFlags := mkQFlags {
  finished : bool;
  finishSent : bool
}.

Record question := mkQuestion {
  q_id : N;
  q_flags : questionFlags;
  (** the pipeline paths sent to the remote vat against this question *)
  q_called : list (list PipelineOp);
  (** [q.bootstrapPromise != nil] *)
  q_bootstrapPromise : bool;
  (** the channel [q.finishMsgSend] has been closed *)
  q_finishMsgSend : bool;
  (** [q.release]: the message it releases, once set by [handleReturn] *)
  q_release : option MsgID
}.

Record answerFlags := mkAFlags {
  returnSent : bool;
  finishReceived : bool;
  resultsReady : bool;
  releaseResultCapsFlag : bool
}.

(** [ans.results]: the payload of the Return message an answer sends,
    with the capability table of that message. *)
Record answerResults := mkResults {
  results_Content : result Ptr;
  results_CapTable : list Client
}.

Record answer := mkAnswer {
  (** [ans.ret] is a Return of a message (not the zero [rpccp.Return]) *)
  a_ret : bool;
  (** [ans.sendMsg != nil] *)
  a_sendMsg : bool;
  (** [ans.msgReleaser != nil] *)
  a_msgReleaser : bool;
  (** [ans.cancel != nil] *)
  a_cancel : bool;
  a_flags : answerFlags;
  a_err : option error;
  a_results : answerResults;
  (** [ans.pcall], by a tag that identifies the pipeline caller *)
  a_pcall : option N;
  (** [ans.promise], when not nil, with what [getAnswerQuestion] finds
      for its answer *)
  a_promise : option (option ConnID)
}.

Record expent := mkExpent {
  exp_client : Client;
  exp_wireRefs : N
}.

Record impent := mkImpent {
  imp_wireRefs : N
}.

Record embargo := mkEmbargo {
  (** the client whose calls the embargo holds back *)
  emb_client : Client
}.

(** A target of a message the connection sends. *)
Inductive OutTarget : Type :=
| OutTarget_importedCap (id : N)
| OutTarget_promisedAnswer (question : N) (transform : list PipelineOp).

(** The messages the modelled code builds. *)
Inductive OutMsg : Type :=
| Out_unimplemented_message (orig : Message)
| Out_unimplemented_call (orig : Call)
| Out_unimplemented_disembargo (orig : Disembargo)
| Out_finish (questionId : N) (releaseResultCaps : bool)
| Out_disembargo (target : OutTarget) (context : Disembargo_context)
| Out_abort (reason : error).

(** [senderLoopback]: a Disembargo with senderLoopback context that
    [parseReturn] asks for. *)
Record senderLoopback := mkSenderLoopback {
  sl_id : N;
  sl_question : N;
  sl_transform : list PipelineOp
}.

(** Modelled from the spec: [senderLoopback.buildDisembargo] (defined elsewhere in the package) builds "a senderLoopback Disembargo
    referencing the (question, transform)". *)
Definition buildDisembargo (sl : senderLoopback) : OutMsg :=
  Out_disembargo (OutTarget_promisedAnswer (sl_question sl) (sl_transform sl))
                 (Disembargo_senderLoopback (sl_id sl)).

Record parsedReturn := mkParsedReturn {
  pr_result : Ptr;
  pr_disembargoes : list senderLoopback;
  pr_err : option error;
  pr_parseFailed : bool;
  pr_unimplemented : bool
}.

(** The [onSent] callbacks of the modelled code, by the closure they
    are; [OnSent_external] stands for a callback of code defined elsewhere. *)
Inductive OnSent : Type :=
| OnSent_call_unimplemented
| OnSent_return_disembargo
| OnSent_return_finish (q : qref) (qid : N)
| OnSent_disembargo_loopback (release : MsgID) (client : Client)
| OnSent_disembargo_unimplemented (release : MsgID)
| OnSent_external (tag : N).

(** [asyncSend]: [as_send] is the message [send] writes, or the error
    the dummy [send] of [sendMessage] returns; [as_release] tells the
    releaser of a transport message from the dummy one. *)
Record asyncSend := mkAsyncSend {
  as_send : result OutMsg;
  as_onSent : option OnSent;
  as_release : bool
}.

(** The goroutines [handleReturn] starts. *)
Inductive Task : Type :=
| Task_resolve (q : qref) (qid : N) (pr : parsedReturn) (release : MsgID)
| Task_awaitFinish (q : qref) (qid : N).

Inductive AllocOutcome : Type :=
| Alloc_ok
| Alloc_NewMessage_fails (e : error)
| Alloc_build_fails (e : error).

(** The calls the connection makes to its collaborators. *)
Inductive Event : Type :=
| ReportError (e : error)
| ReleaseMsg (m : MsgID)
| Client_Release (client : Client)
| Client_AddRef (client : Client)
| AnswerCancel (id : N)
| MsgReleaser_Decr (id : N)
| Promise_Resolve (q : qref) (result : Ptr) (err : option error)
| BootstrapPromise_Fulfill (q : qref)
| Promise_ReleaseClients (q : qref)
| Question_Reject (q : option qref) (e : error)
| Embargo_lift (client : Client)
| ClearExportID (client : Client)
| Bgcancel
| Tasks_Add
| Tasks_Wait
| OutMsg_Release
| Transport_Send (m : OutMsg)
| Transport_Close
| Close_closed
| Wait_closed
| OnSent_called (tag : N) (err : option error).

Record Conn := mkConn {
  (** [c.lk.closing] *)
  closing : bool;
  (** [c.lk.questions]: a nil entry is [None] *)
  questions : list (option qref);
  (** [c.lk.questionID] *)
  questionID : idgen;
  (** [c.lk.answers]; the nil map is the empty one *)
  answers : gmap N answer;
  (** [c.lk.exports] *)
  exports : list (option expent);
  (** [c.lk.exportID] *)
  exportID : idgen;
  (** [c.lk.imports] *)
  imports : gmap N impent;
  (** [c.lk.embargoes] *)
  embargoes : list (option embargo);
  (** [c.lk.embargoID] *)
  embargoID : idgen;
  (** the send queue between [c.lk.sendTx] and [c.sendRx] *)
  sendq : list asyncSend;
  (** [c.bootstrap] *)
  bootstrap : Client;
  (** [c.bgctx] has been canceled *)
  bgctx_done : bool;
  (** the channel [c.closed] has been closed *)
  closed : bool;
  (** the [question] objects, by address *)
  heap : gmap N question;
  (** [Message().CapTable] of each received message; nil is [None] *)
  captables : gmap N (list Client);
  (** goroutines started and not yet run *)
  goroutines : list Task;
  (** what the coming calls of [transport.NewMessage] and of the builders will do *)
  allocs : list AllocOutcome;
  (** what [transport.Close] will return *)
  transport_Close : option error;
  (** the calls made to the collaborators, oldest first *)
  log : list Event
}.

(** Field updates. *)
Definition set_closing (v : bool) (s : Conn) : Conn :=
  {| closing := v;
     questions := questions s;
     questionID := questionID s;
     answers := answers s;
     exports := exports s;
     exportID := exportID s;
     imports := imports s;
     embargoes := embargoes s;
     embargoID := embargoID s;
     sendq := sendq s;
     bootstrap := bootstrap s;
     bgctx_done := bgctx_done s;
     closed := closed s;
     heap := heap s;
     captables := captables s;
     goroutines := goroutines s;
     allocs := allocs s;
     transport_Close := transport_Close s;
     log := log s |}.
Definition set_questions (v : list (option qref)) (s : Conn) : Conn :=
  {| closing := closing s;
     questions := v;
     questionID := questionID s;
     answers := answers s;
     exports := exports s;
     exportID := exportID s;
     imports := imports s;
     embargoes := embargoes s;
     embargoID := embargoID s;
     sendq := sendq s;
     bootstrap := bootstrap s;
     bgctx_done := bgctx_done s;
     closed := closed s;
     heap := heap s;
     captables := captables s;
     goroutines := goroutines s;
     allocs := allocs s;
     transport_Close := transport_Close s;
     log := log s |}.
Definition set_questionID (v : idgen) (s : Conn) : Conn :=
  {| closing := closing s;
     questions := questions s;
     questionID := v;
     answers := answers s;
     exports := exports s;
     exportID := exportID s;
     imports := imports s;
     embargoes := embargoes s;
     embargoID := embargoID s;
     sendq := sendq s;
     bootstrap := bootstrap s;
     bgctx_done := bgctx_done s;
     closed := closed s;
     heap := heap s;
     captables := captables s;
     goroutines := goroutines s;
     allocs := allocs s;
     transport_Close := transport_Close s;
     log := log s |}.
Definition set_answers (v : gmap N answer) (s : Conn) : Conn :=
  {| closing := closing s;
     questions := questions s;
     questionID := questionID s;
     answers := v;
     exports := exports s;
     exportID := exportID s;
     imports := imports s;
     embargoes := embargoes s;
     embargoID := embargoID s;
     sendq := sendq s;
     bootstrap := bootstrap s;
     bgctx_done := bgctx_done s;
     closed := closed s;
     heap := heap s;
     captables := captables s;
     goroutines := goroutines s;
     allocs := allocs s;
     transport_Close := transport_Close s;
     log := log s |}.
Definition set_exports (v : list (option expent)) (s : Conn) : Conn :=
  {| closing := closing s;
     questions := questions s;
     questionID := questionID s;
     answers := answers s;
     exports := v;
     exportID := exportID s;
     imports := imports s;
     embargoes := embargoes s;
     embargoID := embargoID s;
     sendq := sendq s;
     bootstrap := bootstrap s;
     bgctx_done := bgctx_done s;
     closed := closed s;
     heap := heap s;
     captables := captables s;
     goroutines := goroutines s;
     allocs := allocs s;
     transport_Close := transport_Close s;
     log := log s |}.
Definition set_exportID (v : idgen) (s : Conn) : Conn :=
  {| closing := closing s;
     questions := questions s;
     questionID := questionID s;
     answers := answers s;
     exports := exports s;
     exportID := v;
     imports := imports s;
     embargoes := embargoes s;
     embargoID := embargoID s;
     sendq := sendq s;
     bootstrap := bootstrap s;
     bgctx_done := bgctx_done s;
     closed := closed s;
     heap := heap s;
     captables := captables s;
     goroutines := goroutines s;
     allocs := allocs s;
     transport_Close := transport_Close s;
     log := log s |}.
Definition set_imports (v : gmap N impent) (s : Conn) : Conn :=
  {| closing := closing s;
     questions := questions s;
     questionID := questionID s;
     answers := answers s;
     exports := exports s;
     exportID := exportID s;
     imports := v;
     embargoes := embargoes s;
     embargoID := embargoID s;
     sendq := sendq s;
     bootstrap := bootstrap s;
     bgctx_done := bgctx_done s;
     closed := closed s;
     heap := heap s;
     captables := captables s;
     goroutines := goroutines s;
     allocs := allocs s;
     transport_Close := transport_Close s;
     log := log s |}.
Definition set_embargoes (v : list (option embargo)) (s : Conn) : Conn :=
  {| closing := closing s;
     questions := questions s;
     questionID := questionID s;
     answers := answers s;
     exports := exports s;
     exportID := exportID s;
     imports := imports s;
     embargoes := v;
     embargoID := embargoID s;
     sendq := sendq s;
     bootstrap := bootstrap s;
     bgctx_done := bgctx_done s;
     closed := closed s;
     heap := heap s;
     captables := captables s;
     goroutines := goroutines s;
     allocs := allocs s;
     transport_Close := transport_Close s;
     log := log s |}.
Definition set_embargoID (v : idgen) (s : Conn) : Conn :=
  {| closing := closing s;
     questions := questions s;
     questionID := questionID s;
     answers := answers s;
     exports := exports s;
     exportID := exportID s;
     imports := imports s;
     embargoes := embargoes s;
     embargoID := v;
     sendq := sendq s;
     bootstrap := bootstrap s;
     bgctx_done := bgctx_done s;
     closed := closed s;
     heap := heap s;
     captables := captables s;
     goroutines := goroutines s;
     allocs := allocs s;
     transport_Close := transport_Close s;
     log := log s |}.
Definition set_sendq (v : list asyncSend) (s : Conn) : Conn :=
  {| closing := closing s;
     questions := questions s;
     questionID := questionID s;
     answers := answers s;
     exports := exports s;
     exportID := exportID s;
     imports := imports s;
     embargoes := embargoes s;
     embargoID := embargoID s;
     sendq := v;
     bootstrap := bootstrap s;
     bgctx_done := bgctx_done s;
     closed := closed s;
     heap := heap s;
     captables := captables s;
     goroutines := goroutines s;
     allocs := allocs s;
     transport_Close := transport_Close s;
     log := log s |}.
Definition set_bootstrap (v : Client) (s : Conn) : Conn :=
  {| closing := closing s;
     questions := questions s;
     questionID := questionID s;
     answers := answers s;
     exports := exports s;
     exportID := exportID s;
     imports := imports s;
     embargoes := embargoes s;
     embargoID := embargoID s;
     sendq := sendq s;
     bootstrap := v;
     bgctx_done := bgctx_done s;
     closed := closed s;
     heap := heap s;
     captables := captables s;
     goroutines := goroutines s;
     allocs := allocs s;
     transport_Close := transport_Close s;
     log := log s |}.
Definition set_bgctx_done (v : bool) (s : Conn) : Conn :=
  {| closing := closing s;
     questions := questions s;
     questionID := questionID s;
     answers := answers s;
     exports := exports s;
     exportID := exportID s;
     imports := imports s;
     embargoes := embargoes s;
     embargoID := embargoID s;
     sendq := sendq s;
     bootstrap := bootstrap s;
     bgctx_done := v;
     closed := closed s;
     heap := heap s;
     captables := captables s;
     goroutines := goroutines s;
     allocs := allocs s;
     transport_Close := transport_Close s;
     log := log s |}.
Definition set_closed (v : bool) (s : Conn) : Conn :=
  {| closing := closing s;
     questions := questions s;
     questionID := questionID s;
     answers := answers s;
     exports := exports s;
     exportID := exportID s;
     imports := imports s;
     embargoes := embargoes s;
     embargoID := embargoID s;
     sendq := sendq s;
     bootstrap := bootstrap s;
     bgctx_done := bgctx_done s;
     closed := v;
     heap := heap s;
     captables := captables s;
     goroutines := goroutines s;
     allocs := allocs s;
     transport_Close := transport_Close s;
     log := log s |}.
Definition set_heap (v : gmap N question) (s : Conn) : Conn :=
  {| closing := closing s;
     questions := questions s;
     questionID := questionID s;
     answers := answers s;
     exports := exports s;
     exportID := exportID s;
     imports := imports s;
     embargoes := embargoes s;
     embargoID := embargoID s;
     sendq := sendq s;
     bootstrap := bootstrap s;
     bgctx_done := bgctx_done s;
     closed := closed s;
     heap := v;
     captables := captables s;
     goroutines := goroutines s;
     allocs := allocs s;
     transport_Close := transport_Close s;
     log := log s |}.
Definition set_captables (v : gmap N (list Client)) (s : Conn) : Conn :=
  {| closing := closing s;
     questions := questions s;
     questionID := questionID s;
     answers := answers s;
     exports := exports s;
     exportID := exportID s;
     imports := imports s;
     embargoes := embargoes s;
     embargoID := embargoID s;
     sendq := sendq s;
     bootstrap := bootstrap s;
     bgctx_done := bgctx_done s;
     closed := closed s;
     heap := heap s;
     captables := v;
     goroutines := goroutines s;
     allocs := allocs s;
     transport_Close := transport_Close s;
     log := log s |}.
Definition set_goroutines (v : list Task) (s : Conn) : Conn :=
  {| closing := closing s;
     questions := questions s;
     questionID := questionID s;
     answers := answers s;
     exports := exports s;
     exportID := exportID s;
     imports := imports s;
     embargoes := embargoes s;
     embargoID := embargoID s;
     sendq := sendq s;
     bootstrap := bootstrap s;
     bgctx_done := bgctx_done s;
     closed := closed s;
     heap := heap s;
     captables := captables s;
     goroutines := v;
     allocs := allocs s;
     transport_Close := transport_Close s;
     log := log s |}.
Definition set_allocs (v : list AllocOutcome) (s : Conn) : Conn :=
  {| closing := closing s;
     questions := questions s;
     questionID := questionID s;
     answers := answers s;
     exports := exports s;
     exportID := exportID s;
     imports := imports s;
     embargoes := embargoes s;
     embargoID := embargoID s;
     sendq := sendq s;
     bootstrap := bootstrap s;
     bgctx_done := bgctx_done s;
     closed := closed s;
     heap := heap s;
     captables := captables s;
     goroutines := goroutines s;
     allocs := v;
     transport_Close := transport_Close s;
     log := log s |}.
Definition set_transport_Close (v : option error) (s : Conn) : Conn :=
  {| closing := closing s;
     questions := questions s;
     questionID := questionID s;
     answers := answers s;
     exports := exports s;
     exportID := exportID s;
     imports := imports s;
     embargoes := embargoes s;
     embargoID := embargoID s;
     sendq := sendq s;
     bootstrap := bootstrap s;
     bgctx_done := bgctx_done s;
     closed := closed s;
     heap := heap s;
     captables := captables s;
     goroutines := goroutines s;
     allocs := allocs s;
     transport_Close := v;
     log := log s |}.
Definition set_log (v : list Event) (s : Conn) : Conn :=
  {| closing := closing s;
     questions := questions s;
     questionID := questionID s;
     answers := answers s;
     exports := exports s;
     exportID := exportID s;
     imports := imports s;
     embargoes := embargoes s;
     embargoID := embargoID s;
     sendq := sendq s;
     bootstrap := bootstrap s;
     bgctx_done := bgctx_done s;
     closed := closed s;
     heap := heap s;
     captables := captables s;
     goroutines := goroutines s;
     allocs := allocs s;
     transport_Close := transport_Close s;
     log := v |}.

(** ** The collaborators of the connection

    What the modelled functions call and do not define
    themselves: [capnp.Transform] of the serialization layer, the helper
    methods of [answer] and [Conn] that live in other files of the
    package, and the calls into clients.  Each may change the
    connection; the functions below are written over any such [Env]. *)

(** [capnp.Recv], as far as a call is told apart from another. *)
Record Recv := mkRecv {
  recv_Args : Ptr;
  recv_InterfaceID : N;
  recv_MethodID : N;
  recv_ReleaseArgs : MsgID;
  recv_Returner : N
}.

Record Env := mkEnv {
  (** the connection [c] itself *)
  self : ConnID;
  (** [capnp.Transform] *)
  Transform : Ptr -> list PipelineOp -> Ptr * option error;
  (** [c.newReturn]: the error it returns *)
  newReturn : Conn -> option error * Conn;
  (** [errorAnswer(c, id, err)] *)
  errorAnswer : N -> error -> answer;
  (** [ans.sendException(rl, err)], for the answer of that id *)
  sendException : N -> error -> Conn -> Conn;
  (** [ans.sendReturn(rl)] *)
  sendReturn : N -> Conn -> option error * Conn;
  (** [ans.setBootstrap(client)] *)
  setBootstrap : N -> Client -> Conn -> option error * Conn;
  (** [ans.setPipelineCaller(method, pcall)] *)
  setPipelineCaller : N -> N -> Conn -> Conn;
  (** [ans.destroy(rl)] *)
  destroy : N -> Conn -> option error * Conn;
  (** [c.releaseExport(id, count)] *)
  releaseExport : N -> N -> Conn -> (Client * option error) * Conn;
  (** [client.RecvCall(ctx, recv)]: the pipeline caller it returns *)
  RecvCall : Client -> Recv -> Conn -> N * Conn;
  (** [pcall.PipelineRecv(ctx, transform, recv)] *)
  PipelineRecv : option N -> list PipelineOp -> Recv -> Conn -> N * Conn
}.

(** ** Logging, the send queue and the tables *)

Definition emit (ev : Event) (s : Conn) : Conn :=
  set_log (log s ++ [ev]) s.

Definition emit_all (evs : list Event) (s : Conn) : Conn :=
  set_log (log s ++ evs) s.

(** [c.er.ReportError(err)]; it ignores a nil error. *)
Definition report (e : error) (s : Conn) : Conn :=
  emit (ReportError e) s.

Definition report_opt (e : option error) (s : Conn) : Conn :=
  match e with
  | Some e => report e s
  | None => s
  end.

(** A [build] closure of [sendMessage]: the message it builds, how it
    wraps an error of the message's allocators, and the calls it defers
    (they run whether it succeeds or not). *)
Record Build := mkBuild {
  build_msg : OutMsg;
  build_err : error -> error;
  build_defer : list Event
}.

Definition next_alloc (s : Conn) : AllocOutcome * Conn :=
  match allocs s with
  | [] => (Alloc_ok, s)
  | a :: rest => (a, set_allocs rest s)
  end.

(** [c.sendMessage(ctx, build, onSent)].  Every caller in the modelled
    code passes the context of [receive], which is [c.bgctx]; the check
    of [ctx.Err()] that wraps [send] is made when the job runs
    ([asyncSend_Send]). *)
Definition sendMessage (build : Build) (onSent : option OnSent) (s : Conn) : Conn :=
  let '(a, s) := next_alloc s in
  let '(send, release, s) :=
    match a with
    | Alloc_NewMessage_fails e =>
        (Err (Failedf "create message: %w" [] (Some e)), false, s)
    | Alloc_build_fails e =>
        (Err (Failedf "build message: %w" [] (Some (build_err build e))), true,
         emit_all (build_defer build) s)
    | Alloc_ok =>
        (Ok (build_msg build), true, emit_all (build_defer build) s)
    end in
  set_sendq (sendq s ++ [mkAsyncSend send onSent release]) s.

Definition update_question (q : qref) (f : question -> question) (s : Conn) : Conn :=
  set_heap (alter f q (heap s)) s.

Definition set_finished (q : question) : question :=
  mkQuestion (q_id q) (mkQFlags true (finishSent (q_flags q))) (q_called q)
             (q_bootstrapPromise q) (q_finishMsgSend q) (q_release q).

Definition set_finishSent (q : question) : question :=
  mkQuestion (q_id q) (mkQFlags (finished (q_flags q)) true) (q_called q)
             (q_bootstrapPromise q) (q_finishMsgSend q) (q_release q).

Definition close_finishMsgSend (q : question) : question :=
  mkQuestion (q_id q) (q_flags q) (q_called q) (q_bootstrapPromise q) true (q_release q).

Definition set_q_release (m : MsgID) (q : question) : question :=
  mkQuestion (q_id q) (q_flags q) (q_called q) (q_bootstrapPromise q)
             (q_finishMsgSend q) (Some m).

(** The [onSent] callbacks.  The deferred calls of a callback run last
    and in the reverse of the order they were deferred in. *)
Definition runOnSent (cb : OnSent) (err : option error) (s : Conn) : Conn :=
  match cb with
  | OnSent_call_unimplemented =>
      report_opt (annotate err "incoming call: send unimplemented") s
  | OnSent_return_disembargo =>
      match err with
      | Some e => report (Errorf "incoming return: send disembargo: %w" [] (Some e)) s
      | None => s
      end
  | OnSent_return_finish q qid =>
      let s :=
        match err with
        | Some e =>
            report (Errorf "incoming return: send finish: build message: %w" [] (Some e)) s
        | None =>
            let s := update_question q set_finishSent s in
            set_questionID (idgen_remove qid (questionID s)) s
        end in
      update_question q close_finishMsgSend s
  | OnSent_disembargo_loopback release client =>
      let s := report_opt (annotate err "incoming disembargo: send receiver loopback") s in
      emit (ReleaseMsg release) (emit (Client_Release client) s)
  | OnSent_disembargo_unimplemented release =>
      let s := report_opt (annotate err "incoming disembargo: send unimplemented") s in
      emit (ReleaseMsg release) s
  | OnSent_external tag => emit (OnSent_called tag err) s
  end.

(** [asyncSend.Send]; [io] is what writing to the transport returns. *)
Definition asyncSend_Send (io : option error) (a : asyncSend) (s : Conn) : Conn :=
  let '(err, s) :=
    if bgctx_done s then (Some ContextCanceled, s)
    else match as_send a with
         | Err e => (Some e, s)
         | Ok m => (io, emit (Transport_Send m) s)
         end in
  let s :=
    match as_onSent a with
    | Some cb =>
        let err := match err with
                   | Some e => Some (Failedf "send message: %w" [] (Some e))
                   | None => None
                   end in
        runOnSent cb err s
    | None => s
    end in
  if as_release a then emit OutMsg_Release s else s.

(** [asyncSend.Abort]. *)
Definition asyncSend_Abort (err : error) (a : asyncSend) (s : Conn) : Conn :=
  let s :=
    match as_onSent a with
    | Some cb => runOnSent cb (Some (Disconnected err)) s
    | None => s
    end in
  if as_release a then emit OutMsg_Release s else s.

(** Modelled from the spec: [c.embargo] (defined elsewhere in the package) "allocates a new embargo id" and returns "a wrapping client that
    queues outbound calls until lifted"; the embargo entry is "created"
    under that id in the table, which grows to hold it. *)
Definition Conn_embargo (client : Client) (s : Conn) : N * Client * Conn :=
  let '(id, g) := idgen_next (embargoID s) in
  let tab := embargoes s in
  let tab := tab ++ replicate (S (N.to_nat id) - length tab) None in
  let tab := <[N.to_nat id := Some (mkEmbargo client)]> tab in
  (id, Client_embargo client, set_embargoes tab (set_embargoID g s)).

(** Modelled from the spec: [c.findEmbargo] (defined elsewhere in the package) "finds the embargo entry by id". *)
Definition findEmbargo (id : N) (s : Conn) : option embargo :=
  match embargoes s !! N.to_nat id with
  | Some (Some e) => Some e
  | _ => None
  end.

(** Modelled from the spec: [c.findExport] (defined elsewhere in the package) "looks up the export by id". *)
Definition findExport (id : N) (s : Conn) : option expent :=
  match exports s !! N.to_nat id with
  | Some (Some e) => Some e
  | _ => None
  end.

(** Modelled from the spec: [c.addImport] (defined elsewhere in the package): "on first receipt the stub is created; subsequent receipts bump
    the refcount"; the client it returns is the import client of this
    connection for that id. *)
Definition addImport (E : Env) (id : N) (s : Conn) : Client * Conn :=
  let ent :=
    match imports s !! id with
    | Some e => mkImpent (imp_wireRefs e + 1)
    | None => mkImpent 1
    end in
  (Client_import (self E) id, set_imports (<[id := ent]> (imports s)) s).

(** Modelled from the spec: [Interface.Client()] of the serialization
    layer returns the entry of the message's capability table the
    interface pointer names, and the null client when there is none. *)
Definition Interface_Client (captab : list Client) (iface : Interface) : Client :=
  if Interface_IsValid iface
  then default Client_null (captab !! N.to_nat (Capability iface))
  else Client_null.


(** ** Parsing targets and transforms *)

(** [parseTransform]: the loop over the list, [i] the index of its head. *)
Fixpoint parseTransform_loop (i : N) (opList : list PromisedAnswer_Op)
    (ops : list PipelineOp) : result (list PipelineOp) :=
  match opList with
  | [] => Ok ops
  | li :: rest =>
      match li with
      | Op_noop => parseTransform_loop (i + 1) rest ops
      | Op_getPointerField f =>
          parseTransform_loop (i + 1) rest (ops ++ [mkOp f None])
      | Op_other w =>
          Err (Failedf "transform element %d: unknown type %v" [i; w] None)
      end
  end.

Definition parseTransform (opList : list PromisedAnswer_Op) : result (list PipelineOp) :=
  parseTransform_loop 0 opList [].

Inductive MessageTarget_Which : Type :=
| Which_importedCap
| Which_promisedAnswer
| Which_other (which : N).

Record parsedMessageTarget := mkParsedTarget {
  pt_which : MessageTarget_Which;
  pt_importedCap : N;
  pt_promisedAnswer : N;
  pt_transform : list PipelineOp
}.

(** [parseMessageTarget] fills a zero [parsedMessageTarget] in place and
    returns an error; the target is returned with what was filled in
    by then. *)
Definition parseMessageTarget (tgt : MessageTarget) : parsedMessageTarget * option error :=
  match tgt with
  | MessageTarget_importedCap id =>
      (mkParsedTarget Which_importedCap id 0 [], None)
  | MessageTarget_promisedAnswer pa =>
      match pa with
      | Err e =>
          (mkParsedTarget Which_promisedAnswer 0 0 [],
           Some (Failedf "read target answer: %w" [] (Some e)))
      | Ok pa =>
          match pa_Transform pa with
          | Err e =>
              (mkParsedTarget Which_promisedAnswer 0 (pa_QuestionId pa) [],
               Some (Failedf "read target transform: %w" [] (Some e)))
          | Ok opList =>
              match parseTransform opList with
              | Err e =>
                  (mkParsedTarget Which_promisedAnswer 0 (pa_QuestionId pa) [],
                   Some (Annotate e "read target transform" []))
              | Ok ops =>
                  (mkParsedTarget Which_promisedAnswer 0 (pa_QuestionId pa) ops, None)
              end
          end
      end
  | MessageTarget_other w =>
      (mkParsedTarget (Which_other w) 0 0 [],
       Some (Unimplementedf "unknown message target %v" [w]))
  end.

Section conn.
Context (E : Env).

(** ** Receiving capabilities *)

(** [c.recvCapReceiverAnswer]. *)
Definition recvCapReceiverAnswer (ans : answer) (transform : list PipelineOp)
    (s : Conn) : Client * Conn :=
  match a_promise ans with
  | Some q =>
      let client := Client_pipeline q transform in
      (client, emit (Client_AddRef client) s)
  | None =>
      match a_err ans with
      | Some e => (Client_error e, s)
      | None =>
          match results_Content (a_results ans) with
          | Err e =>
              (Client_error (Failedf "except.Failed reading results: %v" [] (Some e)), s)
          | Ok ptr =>
              match Transform E ptr transform with
              | (_, Some e) =>
                  (Client_error (Failedf "Applying transform to results: %v" [] (Some e)), s)
              | (ptr, None) =>
                  let iface := Ptr_Interface ptr in
                  if negb (Interface_IsValid iface)
                  then (Client_error (Failedf "Result is not a capability" [] None), s)
                  else
                    let client :=
                      Interface_Client (results_CapTable (a_results ans)) iface in
                    (client, emit (Client_AddRef client) s)
              end
          end
      end
  end.

(** [c.recvCap]: the client and the error it returns. *)
Definition recvCap (d : CapDescriptor) (s : Conn) : (Client * option error) * Conn :=
  match d with
  | CapDescriptor_none => ((Client_null, None), s)
  | CapDescriptor_senderHosted id =>
      let '(client, s) := addImport E id s in ((client, None), s)
  | CapDescriptor_senderPromise id =>
      let '(client, s) := addImport E id s in ((client, None), s)
  | CapDescriptor_receiverHosted id =>
      match findExport id s with
      | None =>
          ((Client_null,
            Some (Failedf "receive capability: invalid export %d" [id] None)), s)
      | Some ent =>
          ((exp_client ent, None), emit (Client_AddRef (exp_client ent)) s)
      end
  | CapDescriptor_receiverAnswer promisedAnswer =>
      match promisedAnswer with
      | Err e =>
          ((Client_null,
            Some (Failedf "receive capability: reading promised answer: %v" [] (Some e))), s)
      | Ok promisedAnswer =>
          match pa_Transform promisedAnswer with
          | Err e =>
              ((Client_null,
                Some (Failedf "receive capability: reading promised answer transform: %v"
                        [] (Some e))), s)
          | Ok rawTransform =>
              match parseTransform rawTransform with
              | Err e =>
                  ((Client_null,
                    Some (Failedf "read target transform: %v" [] (Some e))), s)
              | Ok transform =>
                  let id := pa_QuestionId promisedAnswer in
                  match answers s !! id with
                  | None =>
                      ((Client_null,
                        Some (Failedf "receive capability: no such question id: %v"
                                [id] None)), s)
                  | Some ans =>
                      let '(client, s) := recvCapReceiverAnswer ans transform s in
                      ((client, None), s)
                  end
              end
          end
      end
  | CapDescriptor_other w =>
      ((Client_error (Failedf "unknown CapDescriptor type %v" [w] None), None), s)
  end.

(** [c.isLocalClient].  A pipeline client whose answer belongs to no
    question falls through to the last two tests. *)
Definition isLocalClient (client : Client) : bool :=
  match client with
  | Client_null => false
  | _ =>
      match Brand_Value client with
      | BV_importClient ic _ => negb (ic =? self E)
      | BV_PipelineClient (Some qc) => negb (qc =? self E)
      | BV_PipelineClient None => true
      | BV_error _ => false
      | BV_other => true
      end
  end.

(** The loop of [recvPayload] over the descriptors: [i] is the index of
    the head of [ptab], [mtab] the clients made so far. *)
Fixpoint recvPayload_loop (ptab : list CapDescriptor) (i : N) (mtab : list Client)
    (locals : gset N) (s : Conn) : (list Client * gset N * option error) * Conn :=
  match ptab with
  | [] => ((mtab, locals, None), s)
  | d :: rest =>
      let '((client, err), s) := recvCap d s in
      match err with
      | Some e =>
          ((mtab, locals, Some (Annotate e "read payload: capability %d" [i])),
           emit_all (Client_Release <$> mtab) s)
      | None =>
          let locals := if isLocalClient client then uintSet_add locals i else locals in
          recvPayload_loop rest (i + 1) (mtab ++ [client]) locals s
      end
  end.

(** [c.recvPayload]: the content pointer, the set [locals] and the error. *)
Definition recvPayload (payload : Payload) (s : Conn)
    : (Ptr * gset N * option error) * Conn :=
  if negb (payload_IsValid payload) then ((Ptr_null, ∅, None), s)
  else
    match captables s !! payload_msg payload with
    | Some _ =>
        ((Ptr_null, ∅, Some (Failedf "read payload: %w" [] (Some ErrCapTablePopulated))), s)
    | None =>
        match payload_Content payload with
        | Err e => ((Ptr_null, ∅, Some (Failedf "read payload: %w" [] (Some e))), s)
        | Ok p =>
            match payload_CapTable payload with
            | Err e =>
                ((p, ∅, None),
                 report (Errorf "read payload: capability table: %w" [] (Some e)) s)
            | Ok ptab =>
                let '((mtab, locals, err), s) := recvPayload_loop ptab 0 [] ∅ s in
                match err with
                | Some e => ((Ptr_null, ∅, Some e), s)
                | None =>
                    ((p, locals, None),
                     set_captables (<[payload_msg payload := mtab]> (captables s)) s)
                end
            end
        end
    end.

(** ** Incoming Return: [parseReturn] *)

(** One pass of the loop of [parseReturn] over [called]: [None] when the
    pass ends in [continue]. *)
Definition embargo_candidate (content : Ptr) (locals embargoCaps : gset N)
    (mtab : list Client) (xform : list PipelineOp) : option N :=
  let p2 := (Transform E content xform).1 in
  let iface := Ptr_Interface p2 in
  if negb (Interface_IsValid iface) then None
  else
    let i := Capability iface in
    if (N.of_nat (length mtab) <=? i) || negb (uintSet_has locals i)
       || uintSet_has embargoCaps i
    then None
    else Some i.

Fixpoint parseReturn_loop (question : N) (content : Ptr) (locals : gset N)
    (called : list (list PipelineOp)) (mtab : list Client) (embargoCaps : gset N)
    (disembargoes : list senderLoopback) (s : Conn)
    : (list Client * gset N * list senderLoopback) * Conn :=
  match called with
  | [] => ((mtab, embargoCaps, disembargoes), s)
  | xform :: rest =>
      match embargo_candidate content locals embargoCaps mtab xform with
      | None =>
          parseReturn_loop question content locals rest mtab embargoCaps disembargoes s
      | Some i =>
          let '(id, wrapped, s) :=
            Conn_embargo (default Client_null (mtab !! N.to_nat i)) s in
          parseReturn_loop question content locals rest
            (<[N.to_nat i := wrapped]> mtab)
            (uintSet_add embargoCaps i)
            (disembargoes ++ [mkSenderLoopback id question xform]) s
      end
  end.

Definition parseReturn_failed (e : error) (unimplemented : bool) : parsedReturn :=
  mkParsedReturn Ptr_null [] (Some e) true unimplemented.

(** [c.parseReturn].  [mtab] is the capability table of the message of
    the Return, a slice that shares its elements with the message: the
    entries the loop replaces are replaced in the message. *)
Definition parseReturn (ret : Return) (called : list (list PipelineOp)) (s : Conn)
    : parsedReturn * Conn :=
  match ret_Which ret with
  | Return_results (Err e) =>
      (parseReturn_failed (Failedf "parse return: %w" [] (Some e)) false, s)
  | Return_results (Ok r) =>
      let '((content, locals, err), s) := recvPayload r s in
      match err with
      | Some e =>
          (parseReturn_failed (Failedf "parse return: %w" [] (Some e)) false, s)
      | None =>
          match captables s !! ret_msg ret with
          | None =>
              let '((_, _, disembargoes), s) :=
                parseReturn_loop (ret_AnswerId ret) content locals called [] ∅ [] s in
              (mkParsedReturn content disembargoes None false false, s)
          | Some mtab =>
              let '((mtab, _, disembargoes), s) :=
                parseReturn_loop (ret_AnswerId ret) content locals called mtab ∅ [] s in
              (mkParsedReturn content disembargoes None false false,
               set_captables (<[ret_msg ret := mtab]> (captables s)) s)
          end
      end
  | Return_exception (Err e) =>
      (parseReturn_failed (Failedf "parse return: %w" [] (Some e)) false, s)
  | Return_exception (Ok e) =>
      match exc_Reason e with
      | Err err =>
          (parseReturn_failed (Failedf "parse return: %w" [] (Some err)) false, s)
      | Ok reason =>
          (mkParsedReturn Ptr_null [] (Some (ExcNew (exc_Type e) "" reason)) false false, s)
      end
  | Return_other w =>
      (parseReturn_failed (Failedf "parse return: unhandled type %v" [w] None) true, s)
  end.

End conn.

(** ** The handlers of the receive loop *)

(** What a handler does to the goroutine that runs it: it returns an
    error, nil or not, or it panics. *)
Inductive outcome : Type :=
| Returns (err : option error)
| Panics.

Definition set_a_flags (f : answerFlags) (a : answer) : answer :=
  mkAnswer (a_ret a) (a_sendMsg a) (a_msgReleaser a) (a_cancel a) f (a_err a)
           (a_results a) (a_pcall a) (a_promise a).

Definition set_a_cancel (a : answer) : answer :=
  mkAnswer (a_ret a) (a_sendMsg a) (a_msgReleaser a) true (a_flags a) (a_err a)
           (a_results a) (a_pcall a) (a_promise a).

(** [ans.ret = rpccp.Return{}; ans.sendMsg = nil; ans.msgReleaser = nil]. *)
Definition clear_a_ret (a : answer) : answer :=
  mkAnswer false false false (a_cancel a) (a_flags a) (a_err a)
           (a_results a) (a_pcall a) (a_promise a).

Definition update_answer (id : N) (f : answer -> answer) (s : Conn) : Conn :=
  set_answers (alter f id (answers s)) s.

(** The answer [handleCall] makes: [&answer{c, id, ret, sendMsg, msgReleaser}]. *)
Definition new_answer : answer :=
  mkAnswer true true true false (mkAFlags false false false false) None
           (mkResults (Ok Ptr_null) []) None None.

Record parsedCall := mkParsedCall {
  p_target : parsedMessageTarget;
  p_InterfaceID : N;
  p_MethodID : N;
  p_args : Ptr
}.

Section handlers.
Context (E : Env).

(** [c.handleFinish]. *)
Definition handleFinish (id : N) (releaseResultCaps : bool) (s : Conn)
    : outcome * Conn :=
  match answers s !! id with
  | None =>
      (Returns (Some (Failedf "incoming finish: unknown answer ID %d" [id] None)), s)
  | Some ans =>
      if finishReceived (a_flags ans)
      then (Returns (Some (Failedf "incoming finish: answer ID %d already received finish"
                             [id] None)), s)
      else
        let flags := a_flags ans in
        let flags :=
          mkAFlags (returnSent flags) true (resultsReady flags)
                   (if releaseResultCaps then true else releaseResultCapsFlag flags) in
        let s := update_answer id (set_a_flags flags) s in
        let s := if a_cancel ans then emit (AnswerCancel id) s else s in
        if negb (returnSent flags) then (Returns None, s)
        else
          let '(err, s) := destroy E id s in
          match err with
          | Some e =>
              (Returns (Some (Annotate e "incoming finish: release result caps" [])), s)
          | None => (Returns None, s)
          end
  end.

(** The locked part of the senderLoopback case of [handleDisembargo]:
    the client the target names, or the error. *)
Definition senderLoopback_target (tgt : parsedMessageTarget) (s : Conn) : result Client :=
  match pt_which tgt with
  | Which_promisedAnswer =>
      match answers s !! pt_promisedAnswer tgt with
      | None =>
          Err (Failedf "incoming disembargo: unknown answer ID %d"
                 [pt_promisedAnswer tgt] None)
      | Some ans =>
          if negb (returnSent (a_flags ans))
          then Err (Failedf "incoming disembargo: answer ID %d has not sent return"
                      [pt_promisedAnswer tgt] None)
          else
            match a_err ans with
            | Some _ =>
                Err (Failedf "incoming disembargo: answer ID %d returned exception"
                       [pt_promisedAnswer tgt] None)
            | None =>
                match results_Content (a_results ans) with
                | Err e =>
                    Err (Failedf "incoming disembargo: read answer ID %d: %v"
                           [pt_promisedAnswer tgt] (Some e))
                | Ok content =>
                    match Transform E content (pt_transform tgt) with
                    | (_, Some e) =>
                        Err (Failedf "incoming disembargo: read answer ID %d: %v"
                               [pt_promisedAnswer tgt] (Some e))
                    | (ptr, None) =>
                        let iface := Ptr_Interface ptr in
                        if negb (Interface_IsValid iface)
                           || (N.of_nat (length (results_CapTable (a_results ans)))
                                 <=? Capability iface)
                        then Err (Failedf "incoming disembargo: sender loopback requested on a capability that is not an import" [] None)
                        else Ok (Interface_Client (results_CapTable (a_results ans)) iface)
                    end
                end
            end
      end
  | _ =>
      Err (Failedf "incoming disembargo: sender loopback: target is not a promised answer"
             [] None)
  end.

(** [c.handleDisembargo]. *)
Definition handleDisembargo (d : Disembargo) (release : MsgID) (s : Conn)
    : outcome * Conn :=
  match d_Target d with
  | Err e =>
      (Returns (Some (Failedf "incoming disembargo: read target: %w" [] (Some e))),
       emit (ReleaseMsg release) s)
  | Ok dtarget =>
      match parseMessageTarget dtarget with
      | (_, Some e) =>
          (Returns (Some (Annotate e "incoming disembargo" [])),
           emit (ReleaseMsg release) s)
      | (tgt, None) =>
          match d_Context d with
          | Disembargo_receiverLoopback id =>
              match findEmbargo id s with
              | None =>
                  (Returns (Some (Failedf "incoming disembargo: received sender loopback for unknown ID %d" [id] None)),
                   emit (ReleaseMsg release) s)
              | Some e =>
                  let s := set_embargoes (<[N.to_nat id := None]> (embargoes s)) s in
                  let s := set_embargoID (idgen_remove id (embargoID s)) s in
                  let s := emit (Embargo_lift (emb_client e)) s in
                  (Returns None, emit (ReleaseMsg release) s)
              end
          | Disembargo_senderLoopback id =>
              match senderLoopback_target tgt s with
              | Err err => (Returns (Some err), emit (ReleaseMsg release) s)
              | Ok client =>
                  match Brand_Value client with
                  | BV_importClient ic imp_id =>
                      if negb (ic =? self E)
                      then (Returns (Some (Failedf "incoming disembargo: sender loopback requested on a capability that is not an import" [] None)),
                            emit (Client_Release client) s)
                      else
                        (Returns None,
                         sendMessage
                           (mkBuild (Out_disembargo (OutTarget_importedCap imp_id)
                                       (Disembargo_receiverLoopback id))
                                    (fun e => e) [])
                           (Some (OnSent_disembargo_loopback release client)) s)
                  | _ =>
                      (Returns (Some (Failedf "incoming disembargo: sender loopback requested on a capability that is not an import" [] None)),
                       emit (Client_Release client) s)
                  end
              end
          | Disembargo_context_other w =>
              let s := report (Errorf "incoming disembargo: context %v not implemented"
                                 [w] None) s in
              (Returns None,
               sendMessage (mkBuild (Out_unimplemented_disembargo d) (fun e => e) [])
                 (Some (OnSent_disembargo_unimplemented release)) s)
          end
      end
  end.

(** [c.parseCall]: the call as far as it was parsed, and the error. *)
Definition parseCall (call : Call) (s : Conn) : (parsedCall * option error) * Conn :=
  let zero := mkParsedTarget Which_importedCap 0 0 [] in
  let p := mkParsedCall zero (call_InterfaceId call) (call_MethodId call) Ptr_null in
  match call_Params call with
  | Err e => ((p, Some (Failedf "read params: %w" [] (Some e))), s)
  | Ok payload =>
      let '((ptr, _, err), s) := recvPayload E payload s in
      match err with
      | Some e => ((p, Some (Annotate e "read params" [])), s)
      | None =>
          let p := mkParsedCall zero (call_InterfaceId call) (call_MethodId call) ptr in
          match call_Target call with
          | Err e => ((p, Some (Failedf "read target: %w" [] (Some e))), s)
          | Ok tgt =>
              let '(pt, err) := parseMessageTarget tgt in
              ((mkParsedCall pt (call_InterfaceId call) (call_MethodId call) ptr, err), s)
          end
      end
  end.

(** The end of the two branches of [handleCall] that dispatch to a
    client: [c.tasks.Add(1)], the cancel function of the call's context,
    [RecvCall] and [setPipelineCaller]. *)
Definition dispatch_call (id : N) (tgt : Client) (recv : Recv) (s : Conn) : Conn :=
  let s := emit Tasks_Add s in
  let s := update_answer id set_a_cancel s in
  let '(pcall, s) := RecvCall E tgt recv s in
  setPipelineCaller E id pcall s.

(** [c.handleCall]. *)
Definition handleCall (call : Call) (releaseCall : MsgID) (s : Conn) : outcome * Conn :=
  let id := call_QuestionId call in
  match call_SendResultsTo call with
  | SendResultsTo_yourself | SendResultsTo_thirdParty =>
      let s := report (Errorf "incoming call: results destination is not caller" [] None) s in
      let s :=
        sendMessage
          (mkBuild (Out_unimplemented_call call)
                   (fun e => Annotate e "incoming call: send unimplemented" [])
                   [ReleaseMsg releaseCall])
          (Some OnSent_call_unimplemented) s in
      (Returns None, s)
  | SendResultsTo_caller =>
      match answers s !! id with
      | Some _ =>
          (Returns (Some (Failedf "incoming call: answer ID %d reused" [id] None)),
           emit (ReleaseMsg releaseCall) s)
      | None =>
          let '((p, parseErr), s) := parseCall call s in
          let '(err, s) := newReturn E s in
          match err with
          | Some err =>
              let err := Annotate err "incoming call" [] in
              let s := set_answers (<[id := errorAnswer E id err]> (answers s)) s in
              let s := report err s in
              (Returns None, emit (ReleaseMsg releaseCall) s)
          | None =>
              let s := set_answers (<[id := new_answer]> (answers s)) s in
              match parseErr with
              | Some parseErr =>
                  let parseErr := Annotate parseErr "incoming call" [] in
                  let s := sendException E id parseErr s in
                  let s := report parseErr s in
                  (Returns None, emit (ReleaseMsg releaseCall) s)
              | None =>
                  let recv := mkRecv (p_args p) (p_InterfaceID p) (p_MethodID p)
                                     releaseCall id in
                  match pt_which (p_target p) with
                  | Which_importedCap =>
                      match findExport (pt_importedCap (p_target p)) s with
                      | None =>
                          let s := update_answer id clear_a_ret s in
                          let s := emit (MsgReleaser_Decr id) s in
                          (Returns (Some (Failedf "incoming call: unknown export ID %d" [id] None)),
                           emit (ReleaseMsg releaseCall) s)
                      | Some ent =>
                          (Returns None, dispatch_call id (exp_client ent) recv s)
                      end
                  | Which_promisedAnswer =>
                      let unknown :=
                        let s := update_answer id clear_a_ret s in
                        let s := emit (MsgReleaser_Decr id) s in
                        (Returns (Some (Failedf "incoming call: use of unknown or finished answer ID %d for promised answer target" [pt_promisedAnswer (p_target p)] None)),
                         emit (ReleaseMsg releaseCall) s) in
                      match answers s !! pt_promisedAnswer (p_target p) with
                      | None => unknown
                      | Some tgtAns =>
                          if finishReceived (a_flags tgtAns) then unknown
                          else if resultsReady (a_flags tgtAns) then
                            match a_err tgtAns with
                            | Some e =>
                                let s := sendException E id e s in
                                (Returns None, emit (ReleaseMsg releaseCall) s)
                            | None =>
                                match results_Content (a_results tgtAns) with
                                | Err e =>
                                    let err := Failedf "incoming call: read results from target answer: %w" [] (Some e) in
                                    let s := sendException E id err s in
                                    let s := emit (ReleaseMsg releaseCall) s in
                                    (Returns None, report err s)
                                | Ok content =>
                                    match Transform E content (pt_transform (p_target p)) with
                                    | (_, Some e) =>
                                        let s := sendException E id e s in
                                        (Returns None, emit (ReleaseMsg releaseCall) s)
                                    | (sub, None) =>
                                        let iface := Ptr_Interface sub in
                                        let captab := results_CapTable (a_results tgtAns) in
                                        let tgt :=
                                          if Ptr_IsValid sub && negb (Interface_IsValid iface)
                                          then Client_error (Failed ErrNotACapability)
                                          else if negb (Interface_IsValid iface)
                                                  || (N.of_nat (length captab) <=? Capability iface)
                                          then Client_null
                                          else default Client_null
                                                 (captab !! N.to_nat (Capability iface)) in
                                        (Returns None, dispatch_call id tgt recv s)
                                    end
                                end
                            end
                          else
                            (* not ready: the pipeline caller of the target;
                               the wait group [tgtAns.pcalls] is not modelled *)
                            let s := update_answer id set_a_cancel s in
                            let s := emit Tasks_Add s in
                            let '(pcall, s) :=
                              PipelineRecv E (a_pcall tgtAns) (pt_transform (p_target p))
                                           recv s in
                            (Returns None, setPipelineCaller E id pcall s)
                      end
                  | Which_other _ => (Panics, s)
                  end
              end
          end
      end
  end.

End handlers.

(** ** Incoming Return: [handleReturn] and the goroutines it starts *)

Definition spawn (t : Task) (s : Conn) : Conn :=
  set_goroutines (goroutines s ++ [t]) s.

Definition plain_build (m : OutMsg) : Build := mkBuild m (fun e => e) [].

Section returns.
Context (E : Env).

(** [c.handleReturn].  The question popped from the table is an object
    of the heap: the goroutines and callbacks started here keep its
    address. A table entry that names no object is a nil dereference. *)
Definition handleReturn (ret : Return) (release : MsgID) (s : Conn) : outcome * Conn :=
  let qid := ret_AnswerId ret in
  let missing :=
    Returns (Some (Failedf "incoming return: question %d does not exist" [qid] None)) in
  if N.of_nat (length (questions s)) <=? qid
  then (missing, emit (ReleaseMsg release) s)
  else
    let q := mjoin (questions s !! N.to_nat qid) in
    let s := set_questions (<[N.to_nat qid := None]> (questions s)) s in
    match q with
    | None => (missing, emit (ReleaseMsg release) s)
    | Some q =>
        match heap s !! q with
        | None => (Panics, s)
        | Some qv =>
            let canceled := finished (q_flags qv) in
            let s := update_question q set_finished s in
            if canceled then
              if q_finishMsgSend qv then
                let s :=
                  if finishSent (q_flags qv)
                  then set_questionID (idgen_remove qid (questionID s)) s
                  else s in
                (Returns None, emit (ReleaseMsg release) s)
              else
                let s := emit (ReleaseMsg release) s in
                (Returns None, spawn (Task_awaitFinish q qid) s)
            else
              let '(pr, s) := parseReturn E ret (q_called qv) s in
              let s :=
                if pr_parseFailed pr
                then report_opt (annotate (pr_err pr) "incoming return") s
                else s in
              let s :=
                if negb (q_bootstrapPromise qv) && negb (bool_decide (is_Some (pr_err pr)))
                then update_question q (set_q_release release) s
                else s in
              (Returns None, spawn (Task_resolve q qid pr release) s)
        end
    end.

(** The body of a goroutine of [handleReturn]; [None] while it is
    blocked on [<-q.finishMsgSend]. *)
Definition runTask (t : Task) (s : Conn) : option Conn :=
  match t with
  | Task_awaitFinish q qid =>
      match heap s !! q with
      | None => None
      | Some qv =>
          if q_finishMsgSend qv then
            Some (if finishSent (q_flags qv)
                  then set_questionID (idgen_remove qid (questionID s)) s
                  else s)
          else None
      end
  | Task_resolve q qid pr release =>
      match heap s !! q with
      | None => None
      | Some qv =>
          let s := emit (Promise_Resolve q (pr_result pr) (pr_err pr)) s in
          let s :=
            if q_bootstrapPromise qv
            then emit_all [BootstrapPromise_Fulfill q; Promise_ReleaseClients q;
                           ReleaseMsg release] s
            else if bool_decide (is_Some (pr_err pr))
            then emit (ReleaseMsg release) s
            else s in
          let s :=
            foldl (fun s sl =>
                     sendMessage (plain_build (buildDisembargo sl))
                                 (Some OnSent_return_disembargo) s)
                  s (pr_disembargoes pr) in
          Some (sendMessage (plain_build (Out_finish qid false))
                            (Some (OnSent_return_finish q qid)) s)
      end
  end.

(** ** Incoming Bootstrap and Release *)

(** [c.handleBootstrap]. *)
Definition handleBootstrap (id : N) (s : Conn) : outcome * Conn :=
  let '(err, s) := newReturn E s in
  match answers s !! id with
  | Some _ =>
      (Returns (Some (Failedf "incoming bootstrap: answer ID %d reused" [id] None)),
       emit (MsgReleaser_Decr id) s)
  | None =>
      match err with
      | Some err =>
          let err := Annotate err "incoming bootstrap" [] in
          let s := set_answers (<[id := errorAnswer E id err]> (answers s)) s in
          (Returns (Some err), report err s)
      | None =>
          let s := set_answers (<[id := new_answer]> (answers s)) s in
          match bootstrap s with
          | Client_null =>
              (Returns None,
               sendException E id
                 (ExcNew 0 "" "vat does not expose a public/bootstrap interface") s)
          | client =>
              let s := emit (Client_AddRef client) s in
              let '(err, s) := setBootstrap E id client s in
              match err with
              | Some err => (Returns None, sendException E id err s)
              | None =>
                  let '(err, s) := sendReturn E id s in
                  match err with
                  | Some _ => (Panics, s)
                  | None => (Returns None, s)
                  end
              end
          end
      end
  end.

(** [c.handleRelease]. *)
Definition handleRelease (id : N) (count : N) (s : Conn) : outcome * Conn :=
  let '((client, err), s) := releaseExport E id count s in
  match err with
  | Some e => (Returns (Some (Annotate e "incoming release" [])), s)
  | None => (Returns None, emit (Client_Release client) s)
  end.

(** ** The receive loop *)

(** What [receive] has done once the messages delivered are used up: it
    has returned (or panicked), or it waits for the next message. *)
Inductive received : Type :=
| Received (o : outcome)
| Waiting.

(** [c.receive] over the messages [reader] delivers, in order.  The
    [select] of the loop is modelled with the cancellation of the
    context first: when the context is canceled and a message is
    ready, Go may take either. *)
Fixpoint receive (incoming : list incomingMessage) (s : Conn) : received * Conn :=
  if bgctx_done s then (Received (Returns (Some ContextCanceled)), s)
  else
    match incoming with
    | [] => (Waiting, s)
    | msg :: rest =>
        let release := in_Release msg in
        let continue (r : outcome * Conn) : received * Conn :=
          match r with
          | (Returns None, s) => receive rest s
          | (o, s) => (Received o, s)
          end in
        let skip (what : string) (err : error) : received * Conn :=
          let s := emit (ReleaseMsg release) s in
          receive rest (report (Errorf what [] (Some err)) s) in
        match in_err msg with
        | Some err => (Received (Returns (Some err)), s)
        | None =>
            match in_Message msg with
            | Message_unimplemented => receive rest s
            | Message_abort (Err err) =>
                let s := report (Errorf "read abort: %w" [] (Some err)) s in
                (Received (Returns None), emit (ReleaseMsg release) s)
            | Message_abort (Ok e) =>
                match exc_Reason e with
                | Err err =>
                    let s := report (Errorf "read abort: reason: %w" [] (Some err)) s in
                    (Received (Returns None), emit (ReleaseMsg release) s)
                | Ok reason =>
                    let s := report (ExcNew (exc_Type e) "rpc"
                                       ("remote abort: " +:+ reason)) s in
                    (Received (Returns None), emit (ReleaseMsg release) s)
                end
            | Message_bootstrap (Err err) => skip "read bootstrap: %w" err
            | Message_bootstrap (Ok qid) =>
                continue (handleBootstrap qid (emit (ReleaseMsg release) s))
            | Message_call (Err err) => skip "read call: %w" err
            | Message_call (Ok call) => continue (handleCall E call release s)
            | Message_return (Err err) => skip "read return: %w" err
            | Message_return (Ok ret) => continue (handleReturn ret release s)
            | Message_finish (Err err) => skip "read finish: %w" err
            | Message_finish (Ok fin) =>
                continue (handleFinish E (fin_QuestionId fin) (fin_ReleaseResultCaps fin)
                            (emit (ReleaseMsg release) s))
            | Message_release (Err err) => skip "read release: %w" err
            | Message_release (Ok rel) =>
                continue (handleRelease (rel_Id rel) (rel_ReferenceCount rel)
                            (emit (ReleaseMsg release) s))
            | Message_disembargo (Err err) => skip "read disembargo: %w" err
            | Message_disembargo (Ok d) => continue (handleDisembargo E d release s)
            | Message_other w =>
                let s := report (Errorf "unknown message type %v from remote" [w] None) s in
                receive rest
                  (sendMessage
                     (mkBuild (Out_unimplemented_message (in_Message msg))
                              (fun e => Annotate e "send unimplemented" [])
                              [ReleaseMsg release])
                     None s)
            end
        end
    end.

End returns.

(** ** Shutdown *)

(** [c.cancelTasks]: the cancel function of every answer that has one. *)
Definition cancelTasks (s : Conn) : Conn :=
  emit_all
    (omap (fun '(id, a) => if a_cancel a then Some (AnswerCancel id) else None)
          (map_to_list (answers s)))
    s.

(** [c.drainQueue].  No callback of the modelled code sends a message,
    so the jobs to abort are those queued when it starts. *)
Definition drainQueue (s : Conn) : Conn :=
  foldl (fun s pending => asyncSend_Abort ErrConnClosed pending s)
        (set_sendq [] s) (sendq s).

(** The calls [c.release] adds to the release list, in order. *)
Definition releaseExports (exports : list (option expent)) : list Event :=
  omap (fun e => (fun e => Client_Release (exp_client e)) <$> e) exports.

Definition liftEmbargoes (embargoes : list (option embargo)) : list Event :=
  omap (fun e => (fun e => Embargo_lift (emb_client e)) <$> e) embargoes.

Definition releaseAnswers (answers : gmap N answer) : list Event :=
  omap (fun '(id, a) => if a_msgReleaser a then Some (MsgReleaser_Decr id) else None)
       (map_to_list answers).

(** [releaseQuestions]: a question is rejected unless it is there and
    flagged as finished. *)
Definition releaseQuestions (heap : gmap N question) (questions : list (option qref))
    : list Event :=
  omap (fun q =>
          let canceled :=
            match q with
            | Some r =>
                match heap !! r with
                | Some qv => finished (q_flags qv)
                | None => false
                end
            | None => false
            end in
          if canceled then None else Some (Question_Reject q ExcClosed))
       questions.

(** [c.release(rl)]: the tables are cleared and the release list is
    filled; the export ids of the exported clients are cleared at once. *)
Definition release (s : Conn) : list Event * Conn :=
  let rl :=
    [Client_Release (bootstrap s)]
    ++ releaseExports (exports s)
    ++ liftEmbargoes (embargoes s)
    ++ releaseAnswers (answers s)
    ++ releaseQuestions (heap s) (questions s) in
  let cleared :=
    omap (fun e => (fun e => ClearExportID (exp_client e)) <$> e) (exports s) in
  let s := set_imports ∅ s in
  let s := set_exports [] s in
  let s := set_embargoes [] s in
  let s := set_questions [] s in
  let s := set_answers ∅ s in
  let s := set_bootstrap Client_null s in
  (rl, emit_all cleared s).

(** [c.abort(abortErr)]: the abort message goes straight to the
    transport. *)
Definition abort (abortErr : option error) (s : Conn) : Conn :=
  match abortErr with
  | None => s
  | Some e =>
      let '(a, s) := next_alloc s in
      match a with
      | Alloc_NewMessage_fails _ => s
      | Alloc_build_fails _ => emit OutMsg_Release s
      | Alloc_ok => emit OutMsg_Release (emit (Transport_Send (Out_abort e)) s)
      end
  end.

(** The goroutine of [shutdown] that closes the transport and then the
    channel [c.closed]; the error it leaves in the result of [shutdown]. *)
Definition close_transport (s : Conn) : option error * Conn :=
  let err :=
    match transport_Close s with
    | Some e => Some (Failedf "close transport: %w" [] (Some e))
    | None => None
    end in
  (err, set_closed true (emit Close_closed (emit Transport_Close s))).

(** What a call of [shutdown] comes to: it returns, or it waits on
    [<-c.closed] for a shutdown in progress elsewhere. *)
Inductive shutdown_result : Type :=
| Shutdown_returns (err : option error)
| Shutdown_waits.

(** [c.shutdown(abortErr)].  [timeout] tells whether the abort timeout
    fires before the teardown is through: the closing goroutine then runs
    at once, and otherwise after [close(readyForClose)]. *)
Definition shutdown (timeout : bool) (abortErr : option error) (s : Conn)
    : shutdown_result * Conn :=
  if closing s then
    if closed s then (Shutdown_returns None, s) else (Shutdown_waits, s)
  else
    let s := set_closing true s in
    let s := emit Bgcancel (set_bgctx_done true s) in
    let s := cancelTasks s in
    let '(early, s) := if timeout then close_transport s else (None, s) in
    let s := emit Tasks_Wait s in
    let s := drainQueue s in
    let '(rl, s) := release s in
    let s := emit_all rl s in
    let s := abort abortErr s in
    let '(late, s) := if timeout then (early, s) else close_transport s in
    (Shutdown_returns late, s).

(** [c.Close]. *)
Definition Close (timeout : bool) (s : Conn) : shutdown_result * Conn :=
  shutdown timeout (Some (Failed ErrConnClosed)) s.

(** [errors.Is(err, context.Canceled)]: the chain of errors wrapped
    with [%w] or as the cause of an exception. *)
Definition wraps (fmt : string) : bool :=
  bool_decide (is_Some (String.index 0 "%w" fmt)).

Fixpoint is_Canceled (e : error) : bool :=
  match e with
  | ContextCanceled => true
  | Failedf fmt _ (Some c) => wraps fmt && is_Canceled c
  | Errorf fmt _ (Some c) => wraps fmt && is_Canceled c
  | Disconnected c | Failed c | Annotate c _ _ => is_Canceled c
  | _ => false
  end.

(** [backgroundTask]: a task that returns nil returns
    [context.Canceled]. *)
Definition backgroundTask (r : option error) : error :=
  match r with
  | None => ContextCanceled
  | Some e => e
  end.

(** The goroutine of [NewConn] that watches the background tasks:
    [first] is the error of the task that ended first, which is what
    [g.Wait()] returns. *)
Definition monitor (timeout : bool) (first : error) (s : Conn) : Conn :=
  let err := if is_Canceled first then None else Some first in
  let s := report_opt err s in
  match shutdown timeout err s with
  | (Shutdown_returns (Some e), s) => report e s
  | (_, s) => s
  end.

(** ** The goroutine that reads the transport *)

(** [reader]: the messages it sends down the channel [in], given the
    results of the calls of [t.RecvMessage] in order ([RecvMessage]
    blocks when they are used up).  [ctx] tells, for each pass through
    the loop, whether the [select] finds the context canceled; past its
    end the context is not canceled. *)
Fixpoint reader (ctx : list bool) (t : list incomingMessage) : list incomingMessage :=
  match t with
  | [] => []
  | incoming :: rest =>
      match ctx with
      | true :: _ => []
      | _ =>
          incoming ::
            match in_err incoming with
            | Some _ => []
            | None => reader (tail ctx) rest
            end
      end
  end.

(** ** Notions used to state the properties *)

(** What the walk of a payload leaves as it is: all of the connection
    but the imports and the log. *)
Definition walk_frame (s s' : Conn) : Prop :=
  embargoes s' = embargoes s /\ embargoID s' = embargoID s /\
  exports s' = exports s /\ answers s' = answers s /\
  captables s' = captables s /\ sendq s' = sendq s /\
  bgctx_done s' = bgctx_done s /\ closing s' = closing s /\
  questions s' = questions s /\ heap s' = heap s /\
  goroutines s' = goroutines s /\ questionID s' = questionID s.

(** The transform [xform], applied to [content], reaches a valid
    interface whose index in the capability table is [i]. *)
Definition reaches (E : Env) (content : Ptr) (xform : list PipelineOp) (i : N) : bool :=
  let iface := Ptr_Interface (Transform E content xform).1 in
  Interface_IsValid iface && (Capability iface =? i).

(** The Disembargo requests whose path reaches the index [j]. *)
Definition reaching (E : Env) (content : Ptr) (j : N) (dis : list senderLoopback)
    : list senderLoopback :=
  filter (fun sl => reaches E content (sl_transform sl) j = true) dis.

(** The embargo table and its id allocator are in step: the ids given
    back are distinct and below the next new id, and no embargo is
    registered under an id that the allocator may hand out. *)
Definition embargo_table_ok (s : Conn) : Prop :=
  NoDup (gen_free (embargoID s)) /\
  (forall id, id ∈ gen_free (embargoID s) -> id < gen_i (embargoID s)) /\
  (forall id, id ∈ gen_free (embargoID s) \/ gen_i (embargoID s) <= id ->
              findEmbargo id s = None).

(** The reply of [handleCall] to a call whose results are to go
    elsewhere than to the caller: the [build] closure it hands to
    [sendMessage]. *)
Definition unimplemented_call (call : Call) (releaseCall : MsgID) : Build :=
  mkBuild (Out_unimplemented_call call)
          (fun e => Annotate e "incoming call: send unimplemented" [])
          [ReleaseMsg releaseCall].

(** The two errors of [handleFinish]. *)
Definition finish_error (id : N) (s : Conn) : error :=
  match answers s !! id with
  | None => Failedf "incoming finish: unknown answer ID %d" [id] None
  | Some _ => Failedf "incoming finish: answer ID %d already received finish" [id] None
  end.

(** The conditions under which a Disembargo with senderLoopback context
    is echoed: the target is a promised answer that is in the table, has
    sent its return and no exception, and whose transform leads, in its
    results, to an entry of the capability table that is an import client
    of this connection, for the import [imp]. *)
Definition echoable (E : Env) (target : result MessageTarget) (s : Conn) (imp : N) : Prop :=
  exists pa raw transform ans content ptr cap,
    target = Ok (MessageTarget_promisedAnswer (Ok pa)) /\
    pa_Transform pa = Ok raw /\ parseTransform raw = Ok transform /\
    answers s !! pa_QuestionId pa = Some ans /\
    returnSent (a_flags ans) = true /\ a_err ans = None /\
    results_Content (a_results ans) = Ok content /\
    Transform E content transform = (ptr, None) /\
    Ptr_Interface ptr = mkInterface true cap /\
    results_CapTable (a_results ans) !! N.to_nat cap = Some (Client_import (self E) imp).

Definition is_Bgcancel (ev : Event) : bool :=
  match ev with Bgcancel => true | _ => false end.
Definition is_Transport_Close (ev : Event) : bool :=
  match ev with Transport_Close => true | _ => false end.
Definition is_Close_closed (ev : Event) : bool :=
  match ev with Close_closed => true | _ => false end.
Definition is_abort (ev : Event) : bool :=
  match ev with Transport_Send (Out_abort _) => true | _ => false end.

(** The steps of a teardown that must happen once. *)
Definition teardown (ev : Event) : bool :=
  is_Bgcancel ev || is_Transport_Close ev || is_Close_closed ev || is_abort ev.

Definition count (p : Event -> bool) (evs : list Event) : nat :=
  length (filter (fun ev => p ev = true) evs).

Definition quiet (evs : list Event) : Prop :=
  Forall (fun ev => teardown ev = false) evs.

(** A step that logs no step of a teardown and leaves the tables, the
    queue and the flags of the connection alone. *)
Definition quiet_step (s s' : Conn) : Prop :=
  (exists evs, log s' = log s ++ evs /\ quiet evs) /\
  closing s' = closing s /\ bgctx_done s' = bgctx_done s /\ closed s' = closed s /\
  sendq s' = sendq s /\ allocs s' = allocs s /\ transport_Close s' = transport_Close s /\
  questions s' = questions s /\ answers s' = answers s /\ exports s' = exports s /\
  imports s' = imports s /\ embargoes s' = embargoes s /\ bootstrap s' = bootstrap s.


(** The pipeline operations a list of wire operations stands for: its
    getPointerField operations, in order. *)
Definition pointer_fields (opList : list PromisedAnswer_Op) : list PipelineOp :=
  omap (fun op => match op with
                  | Op_getPointerField f => Some (mkOp f None)
                  | _ => None
                  end) opList.

(** The operations [parseTransform] knows: noop and getPointerField. *)
Definition known_op (op : PromisedAnswer_Op) : Prop :=
  match op with
  | Op_other _ => False
  | _ => True
  end.

(** What parsing a message leaves as it is: all of the connection but
    the imports, the embargoes and their ids, the capability tables of
    the messages and the log. *)
Definition parse_frame (s s' : Conn) : Prop :=
  closing s' = closing s /\ questions s' = questions s /\
  questionID s' = questionID s /\ answers s' = answers s /\
  exports s' = exports s /\ exportID s' = exportID s /\
  sendq s' = sendq s /\ bootstrap s' = bootstrap s /\
  bgctx_done s' = bgctx_done s /\ closed s' = closed s /\
  heap s' = heap s /\ goroutines s' = goroutines s /\
  allocs s' = allocs s /\ transport_Close s' = transport_Close s.

(** The job [sendMessage] queues, by the outcome of the allocation. *)
Definition queued_job (build : Build) (onSent : option OnSent) (a : AllocOutcome)
    : asyncSend :=
  match a with
  | Alloc_NewMessage_fails e =>
      mkAsyncSend (Err (Failedf "create message: %w" [] (Some e))) onSent false
  | Alloc_build_fails e =>
      mkAsyncSend (Err (Failedf "build message: %w" [] (Some (build_err build e)))) onSent true
  | Alloc_ok => mkAsyncSend (Ok (build_msg build)) onSent true
  end.

(** The test of [releaseQuestions]: the slot holds a question that is
    flagged finished. *)
Definition flagged_finished (heap : gmap N question) (q : option qref) : bool :=
  match q with
  | Some r =>
      match heap !! r with
      | Some qv => finished (q_flags qv)
      | None => false
      end
  | None => false
  end.

(** A write to the transport; a call of [Reject] on a question. *)
Definition is_Transport_Send (ev : Event) : bool :=
  match ev with Transport_Send _ => true | _ => false end.
Definition is_Question_Reject (ev : Event) : bool :=
  match ev with Question_Reject _ _ => true | _ => false end.

(** The calls an [onSent] callback and the release of a job make. *)
Definition callback_event (ev : Event) : bool :=
  match ev with
  | ReportError _ | ReleaseMsg _ | Client_Release _ | OnSent_called _ _ | OutMsg_Release => true
  | _ => false
  end.

(** The calls of [cancelTasks] and the export ids [release] clears. *)
Definition cancels (s : Conn) : list Event :=
  omap (fun '(id, a) => if a_cancel a then Some (AnswerCancel id) else None)
       (map_to_list (answers s)).
Definition cleared (s : Conn) : list Event :=
  omap (fun e => (fun e => ClearExportID (exp_client e)) <$> e) (exports s).

End Rpc.


(* ===================================================================== *)
(** * A concrete setting for the examples *)
(* ===================================================================== *)

Module Scenario.
Import Rpc.

(** A serialization layer for the examples: a transform follows the
    pointer fields of structs, and yields the null pointer where there
    is no such field. *)
Fixpoint follow (p : Ptr) (transform : list PipelineOp) : Ptr * option error :=
  match transform with
  | [] => (p, None)
  | op :: rest =>
      match p with
      | Ptr_struct ptrs => follow (default Ptr_null (ptrs !! N.to_nat (Field op))) rest
      | _ => (Ptr_null, None)
      end
  end.

Definition answer_with_error (e : error) : answer :=
  mkAnswer false false false false (mkAFlags true false true false) (Some e)
           (mkResults (Ok Ptr_null) []) None None.

(** Collaborators for the examples: messages are always allocated, an
    exception marks the answer as returned with that error, destroying an
    answer removes it from the table, and clients called return the
    pipeline caller 0. *)
Definition E0 : Env :=
  {| self := 1;
     Transform := follow;
     newReturn := fun s => (None, s);
     errorAnswer := fun _ e => answer_with_error e;
     sendException := fun id e s => update_answer id (fun _ => answer_with_error e) s;
     sendReturn := fun id s => (None, s);
     setBootstrap := fun id client s => (None, s);
     setPipelineCaller := fun id pcall s => s;
     destroy := fun id s => (None, set_answers (delete id (answers s)) s);
     releaseExport := fun id count s => ((Client_null, None), s);
     RecvCall := fun client recv s => (0, s);
     PipelineRecv := fun pcall transform recv s => (0, s) |}.

(** A fresh connection: empty tables, nothing sent or logged. *)
Definition fresh : Conn :=
  mkConn false [] (mkIdgen 0 []) ∅ [] (mkIdgen 0 []) ∅ [] (mkIdgen 0 []) []
         Client_null false false ∅ ∅ [] [] None [].

(** A Return whose only capability is our export 0, reached by the
    path of two pipelined calls. *)
Definition c1_conn : Conn := set_exports [Some (mkExpent (Client_server 5) 1)] fresh.
Definition c1_payload : Payload :=
  mkPayload true 9 (Ok (Ptr_struct [Ptr_interface 0])) (Ok [CapDescriptor_receiverHosted 0]).
Definition c1_return : Return := mkReturn 3 9 (Return_results (Ok c1_payload)).
Definition c1_called : list (list PipelineOp) := [[mkOp 0 None]; [mkOp 0 None]].


(** A question that was canceled locally: its Finish is on its way and
    the Return has not arrived. *)
Definition canceled_question : question :=
  mkQuestion 0 (mkQFlags true false) [] false false None.

Definition c3_conn : Conn :=
  set_heap {[ 10 := canceled_question ]}
    (set_questions [Some 10] (set_questionID (mkIdgen 1 []) fresh)).

Definition c3_return : Return :=
  mkReturn 0 7 (Return_results (Ok (mkPayload true 7 (Ok Ptr_null) (Ok [])))).

Definition c7_call : Call :=
  mkCall 4 100 2 SendResultsTo_yourself
         (Ok (mkPayload true 1 (Ok (Ptr_struct [])) (Ok [])))
         (Ok (MessageTarget_importedCap 0)).

Definition c5_conn : Conn :=
  set_answers {[ 3 := set_a_cancel new_answer ]}
    (set_sendq [mkAsyncSend (Ok (Out_finish 0 false)) (Some (OnSent_external 1)) true]
       (set_exports [Some (mkExpent (Client_server 5) 1)] fresh)).

(** An answer that returned the import 8 of this connection in slot 0. *)
Definition c4_conn : Conn :=
  set_answers
    {[ 2 := mkAnswer true true true false (mkAFlags true false true false) None
               (mkResults (Ok (Ptr_struct [Ptr_interface 0])) [Client_import 1 8])
               None None ]}
    fresh.

Definition c4_target (question : N) : result MessageTarget :=
  Ok (MessageTarget_promisedAnswer
        (Ok (mkPromisedAnswer question (Ok [Op_getPointerField 0])))).


(** A payload that names an export the connection does not have. *)
Definition bad_payload : Payload :=
  mkPayload true 1 (Ok (Ptr_struct [])) (Ok [CapDescriptor_receiverHosted 5]).

(** The question 3, pending, with two pipelined calls on its result. *)
Definition pending_question : question :=
  mkQuestion 3 (mkQFlags false false) c1_called false false None.

Definition pending_conn : Conn :=
  set_heap {[ 10 := pending_question ]}
    (set_questions [None; None; None; Some 10] c1_conn).


(** Collaborators as [E0], except that no return message can be
    allocated. *)
Definition E_noreturn : Env :=
  {| self := self E0;
     Transform := Transform E0;
     newReturn := fun s => (Some (ErrExternal 1), s);
     errorAnswer := errorAnswer E0;
     sendException := sendException E0;
     sendReturn := sendReturn E0;
     setBootstrap := setBootstrap E0;
     setPipelineCaller := setPipelineCaller E0;
     destroy := destroy E0;
     releaseExport := releaseExport E0;
     RecvCall := RecvCall E0;
     PipelineRecv := PipelineRecv E0 |}.

Definition abort_message : incomingMessage :=
  mkIncoming (Message_abort (Ok (mkException 0 (Ok "bye")))) 7 None.

End Scenario.

(* ===================================================================== *)
(** * Part III: properties of the method table *)
(* ===================================================================== *)

Module ServerFacts.
Import Server.

Local Open Scope nat_scope.

Lemma Less_false_iff (a b : Method) :
  Less b a = false <->
  (InterfaceID a < InterfaceID b)%N \/
  (InterfaceID a = InterfaceID b /\ (MethodID a <= MethodID b)%N).
Proof.
  unfold Less.
  destruct (N.eqb_spec (InterfaceID b) (InterfaceID a)) as [e|ne]; simpl.
  - rewrite N.ltb_ge. split; [intros; right; split; [congruence | lia] |].
    intros [H | [_ H]]; lia.
  - rewrite N.ltb_ge. split; [intros; left; lia |].
    intros [H | [H _]]; [lia | congruence].
Qed.

#[local] Instance notAfter_trans : Transitive notAfter.
Proof.
  intros a b c. unfold notAfter. rewrite !Less_false_iff. lia.
Qed.

#[local] Instance notAfter_total : Total notAfter.
Proof.
  intros a b. unfold notAfter. rewrite !Less_false_iff. lia.
Qed.

Lemma find_pred_iff (id : MethodKey) (m : Method) :
  find_pred id m = true <->
  (kInterfaceID id < InterfaceID m)%N \/
  (kInterfaceID id = InterfaceID m /\ (kMethodID id <= MethodID m)%N).
Proof.
  unfold find_pred.
  destruct (N.eqb_spec (InterfaceID m) (kInterfaceID id)) as [e|ne]; simpl;
    rewrite N.leb_le; lia.
Qed.

(** The midpoint of the loop lies in the interval. *)
Lemma midpoint_bounds (i j : nat) : i < j -> i <= (i + j) / 2 < j.
Proof.
  intros Hij.
  pose proof (Nat.div_mod (i + j) 2 ltac:(lia)) as Hd.
  pose proof (Nat.mod_upper_bound (i + j) 2 ltac:(lia)) as Hm.
  lia.
Qed.

(** Fuel beyond the width of the interval changes nothing: the loop of
    [sort.Search] has ended by then. *)
Lemma Search_loop_fuel (f : nat -> bool) (fuel fuel' i j : nat) :
  j - i <= fuel -> j - i <= fuel' ->
  Search_loop fuel f i j = Search_loop fuel' f i j.
Proof.
  revert fuel' i j.
  induction fuel as [|fuel IH]; intros [|fuel'] i j H1 H2; cbn [Search_loop];
    try reflexivity.
  - destruct (Nat.ltb_spec i j); [lia | reflexivity].
  - destruct (Nat.ltb_spec i j); [lia | reflexivity].
  - destruct (Nat.ltb_spec i j) as [Hij|]; [| reflexivity].
    pose proof (midpoint_bounds i j Hij).
    destruct (f ((i + j) / 2)); cbn [negb]; apply IH; lia.
Qed.

Section search.
Variables (f : nat -> bool) (n : nat).
Hypothesis f_mono : forall a b, a <= b -> b < n -> f a = true -> f b = true.

(** The loop invariant of the binary search: [f] is false below [i] and
    true from [j] on. *)
Lemma Search_loop_spec (fuel i j : nat) :
  j - i <= fuel -> i <= j -> j <= n ->
  (forall k, k < i -> f k = false) ->
  (forall k, j <= k -> k < n -> f k = true) ->
  let r := Search_loop fuel f i j in
  r <= n /\ (forall k, k < r -> f k = false) /\
  (forall k, r <= k -> k < n -> f k = true).
Proof.
  revert i j.
  induction fuel as [|fuel IH]; intros i j Hf Hij Hjn Hlo Hhi; cbn [Search_loop].
  - assert (i = j) by lia. subst. repeat split; auto; lia.
  - destruct (Nat.ltb_spec i j) as [Hlt|Hge].
    + pose proof (midpoint_bounds i j Hlt) as Hh.
      destruct (f ((i + j) / 2)) eqn:Hfh; cbn [negb].
      * apply IH; try lia; auto.
        intros k Hk Hkn. apply (f_mono ((i + j) / 2)); auto.
      * apply IH; try lia; auto.
        intros k Hk.
        destruct (f k) eqn:Hfk; [| reflexivity].
        rewrite <- Hfh. symmetry.
        apply (f_mono k); auto; lia.
    + assert (i = j) by lia. subst. repeat split; auto; lia.
Qed.

Lemma Search_spec :
  let r := Search n f in
  r <= n /\ (forall k, k < r -> f k = false) /\
  (forall k, r <= k -> k < n -> f k = true).
Proof.
  unfold Search. apply Search_loop_spec; intros; lia.
Qed.
End search.

(** In a sorted table, an earlier entry is never after a later one. *)
Lemma sorted_lookup_ord (sm : list Method) (a b : nat) (ma mb : Method) :
  StronglySorted notAfter sm ->
  sm !! a = Some ma -> sm !! b = Some mb -> a < b -> notAfter ma mb.
Proof.
  intros Hsorted. revert a b.
  induction Hsorted as [|x l Hs IH Hall]; intros a b Ha Hb Hlt.
  - rewrite lookup_nil in Ha. discriminate.
  - destruct b as [|b]; [lia |]. simpl in Hb.
    destruct a as [|a]; simpl in Ha.
    + injection Ha as <-. rewrite Forall_forall in Hall.
      apply Hall. apply list_elem_of_lookup. eauto.
    + apply (IH a b); auto; lia.
Qed.

(** [find] on any table that is sorted the way [sort.Sort] leaves it. *)
Lemma find_sorted (sm : list Method) (id : MethodKey) :
  StronglySorted notAfter sm ->
  match find sm id with
  | Some m => m ∈ sm /\ matches id m
  | None => forall m, m ∈ sm -> ~ matches id m
  end.
Proof.
  intros Hsorted. unfold find.
  set (f := fun i => match sm !! i with Some m => find_pred id m | None => false end).
  assert (Hmono : forall a b, a <= b -> b < length sm -> f a = true -> f b = true).
  { intros a b Hab Hb. unfold f.
    destruct (sm !! a) as [ma|] eqn:Ha; [| discriminate].
    destruct (lookup_lt_is_Some_2 sm b Hb) as [mb Hmb]. rewrite Hmb.
    destruct (decide (a = b)) as [->|Hne]; [congruence |].
    assert (notAfter ma mb) as Hord
      by (apply (sorted_lookup_ord sm a b); auto; lia).
    unfold notAfter in Hord. rewrite Less_false_iff in Hord.
    rewrite !find_pred_iff. lia. }
  destruct (Search_spec f (length sm) Hmono) as (Hle & Hlo & Hhi).
  fold f. set (r := Search (length sm) f) in *.
  assert (Habsent : (forall k, r <= k -> forall m, sm !! k = Some m ->
                       matches id m -> exists m', sm !! r = Some m' /\ matches id m')).
  { intros k Hk m Hm [HI HM].
    pose proof (lookup_lt_Some _ _ _ Hm) as Hklt.
    assert (r < length sm) as Hr by lia.
    destruct (lookup_lt_is_Some_2 sm r Hr) as [m' Hm']. exists m'. split; [auto|].
    pose proof (Hhi r (Nat.le_refl _) Hr) as Hfr. unfold f in Hfr. rewrite Hm' in Hfr.
    apply find_pred_iff in Hfr.
    destruct (decide (r = k)) as [->|Hne]; [split; congruence |].
    assert (notAfter m' m) as Hord
      by (apply (sorted_lookup_ord sm r k); auto; lia).
    unfold notAfter in Hord. rewrite Less_false_iff in Hord.
    unfold matches. lia. }
  assert (Hbelow : forall k m, k < r -> sm !! k = Some m -> ~ matches id m).
  { intros k m Hk Hm [HI HM]. specialize (Hlo k Hk). unfold f in Hlo.
    rewrite Hm in Hlo.
    assert (find_pred id m = true) as Ht by (apply find_pred_iff; lia).
    congruence. }
  destruct (Nat.eqb_spec r (length sm)) as [Hr|Hr].
  - intros m Hin Hmatch. apply list_elem_of_lookup in Hin as [k Hk].
    pose proof (lookup_lt_Some _ _ _ Hk). apply (Hbelow k m); auto. lia.
  - destruct (sm !! r) as [m'|] eqn:Hm'.
    + destruct (N.eqb_spec (InterfaceID m') (kInterfaceID id)) as [HI|HI]; simpl.
      * destruct (N.eqb_spec (MethodID m') (kMethodID id)) as [HM|HM]; simpl.
        -- split; [apply list_elem_of_lookup; eauto | split; auto].
        -- intros m Hin Hmatch. apply list_elem_of_lookup in Hin as [k Hk].
           destruct (Nat.lt_ge_cases k r) as [Hlt|Hge].
           ++ apply (Hbelow k m); auto.
           ++ destruct (Habsent k Hge m Hk Hmatch) as (m2 & Hm2 & [_ HM2]).
              congruence.
      * intros m Hin Hmatch. apply list_elem_of_lookup in Hin as [k Hk].
        destruct (Nat.lt_ge_cases k r) as [Hlt|Hge].
        -- apply (Hbelow k m); auto.
        -- destruct (Habsent k Hge m Hk Hmatch) as (m2 & Hm2 & [HI2 _]).
           congruence.
    + apply lookup_ge_None in Hm'. lia.
Qed.

(** The same for any list [sort.Sort] may produce from [ms]: a sorted
    permutation of it. *)
Lemma find_sorted_perm (ms sm : list Method) (id : MethodKey) :
  sm ≡ₚ ms -> StronglySorted notAfter sm ->
  match find sm id with
  | Some m => m ∈ ms /\ matches id m
  | None => forall m, m ∈ ms -> ~ matches id m
  end.
Proof.
  intros Hperm Hsorted. pose proof (find_sorted sm id Hsorted) as H.
  destruct (find sm id) as [m|].
  - destruct H as [Hin Hm]. split; [| exact Hm]. by rewrite <- Hperm.
  - intros m Hin. apply H. by rewrite Hperm.
Qed.

(** C10. For every method list given to [server.New], which sorts its copy
    by InterfaceID and then MethodID, [find id] on the server's table
    returns a method of the list whose InterfaceID and MethodID both equal
    those of [id] when the list has such a method, and nil exactly when the
    list has none. *)
Theorem find_New (ms : list Method) (id : MethodKey) :
  match find (methods (New ms)) id with
  | Some m => m ∈ ms /\ matches id m
  | None => forall m, m ∈ ms -> ~ matches id m
  end.
Proof.
  apply find_sorted_perm.
  - apply merge_sort_Permutation.
  - apply StronglySorted_merge_sort; apply _.
Qed.

Example find_New_present :
  find (methods (New [mkMethod 7 2 0 0; mkMethod 3 9 1 0; mkMethod 7 1 2 0; mkMethod 3 1 3 0]))
       (mkKey 7 1) = Some (mkMethod 7 1 2 0).
Proof. vm_compute. reflexivity. Qed.

Example find_New_absent :
  find (methods (New [mkMethod 7 2 0 0; mkMethod 3 9 1 0; mkMethod 7 1 2 0]))
       (mkKey 3 1) = None.
Proof. vm_compute. reflexivity. Qed.

End ServerFacts.

(* ===================================================================== *)
(** * Part IV: properties of the connection *)
(* ===================================================================== *)

Module RpcFacts.
Import Rpc.

Lemma walk_frame_refl s : walk_frame s s.
Proof. repeat split. Qed.

Lemma walk_frame_trans s1 s2 s3 :
  walk_frame s1 s2 -> walk_frame s2 s3 -> walk_frame s1 s3.
Proof.
  unfold walk_frame. intros H1 H2.
  destruct H1 as (?&?&?&?&?&?&?&?&?&?&?&?), H2 as (?&?&?&?&?&?&?&?&?&?&?&?).
  repeat split; congruence.
Qed.

Lemma walk_frame_emit ev s : walk_frame s (emit ev s).
Proof. repeat split. Qed.

Lemma walk_frame_emit_all evs s : walk_frame s (emit_all evs s).
Proof. repeat split. Qed.

Lemma count_app p l1 l2 : count p (l1 ++ l2) = (count p l1 + count p l2)%nat.
Proof. unfold count. by rewrite filter_app, length_app. Qed.

Lemma count_cons p ev l :
  count p (ev :: l) = ((if p ev then 1 else 0) + count p l)%nat.
Proof.
  unfold count. rewrite filter_cons.
  destruct (decide _) as [->|Hn]; [done |]. by destruct (p ev).
Qed.

Lemma count_nil p : count p [] = 0%nat.
Proof. done. Qed.

Lemma count_quiet p evs :
  (forall ev, p ev = true -> teardown ev = true) -> quiet evs -> count p evs = 0%nat.
Proof.
  intros Hp Hq. unfold count. induction Hq as [|ev evs Hev _ IH]; [done |].
  rewrite filter_cons. destruct (decide _) as [Ht|_]; [| exact IH].
  apply Hp in Ht. congruence.
Qed.

Lemma quiet_step_refl s : quiet_step s s.
Proof.
  split_and!; try done. exists []. split; [by rewrite app_nil_r | constructor].
Qed.

Lemma quiet_step_trans s1 s2 s3 :
  quiet_step s1 s2 -> quiet_step s2 s3 -> quiet_step s1 s3.
Proof.
  intros ((e1 & Hl1 & Hq1) & H1) ((e2 & Hl2 & Hq2) & H2).
  split.
  - exists (e1 ++ e2). split; [by rewrite Hl2, Hl1, app_assoc | by apply Forall_app].
  - destruct H1 as (?&?&?&?&?&?&?&?&?&?&?&?), H2 as (?&?&?&?&?&?&?&?&?&?&?&?).
    split_and!; congruence.
Qed.

Lemma quiet_step_emit ev s : teardown ev = false -> quiet_step s (emit ev s).
Proof.
  intros Hev. split_and!; try done. exists [ev]. split; [done | by constructor].
Qed.

Lemma quiet_step_report_opt e s : quiet_step s (report_opt e s).
Proof. destruct e; [by apply quiet_step_emit | apply quiet_step_refl]. Qed.

Lemma quiet_step_update_question q f s : quiet_step s (update_question q f s).
Proof.
  split_and!; try done. exists []. split; [by rewrite app_nil_r | constructor].
Qed.

Lemma quiet_step_runOnSent cb err s : quiet_step s (runOnSent cb err s).
Proof.
  destruct cb as [| |q qid|release client|release|tag]; simpl.
  - apply quiet_step_report_opt.
  - destruct err; [by apply quiet_step_emit | apply quiet_step_refl].
  - eapply quiet_step_trans; [| apply quiet_step_update_question].
    destruct err; [by apply quiet_step_emit |].
    split_and!; try done. exists []. split; [by rewrite app_nil_r | constructor].
  - eapply quiet_step_trans; [apply quiet_step_report_opt |].
    eapply quiet_step_trans; by apply quiet_step_emit.
  - eapply quiet_step_trans; [apply quiet_step_report_opt | by apply quiet_step_emit].
  - by apply quiet_step_emit.
Qed.

Lemma quiet_step_Abort err a s : quiet_step s (asyncSend_Abort err a s).
Proof.
  unfold asyncSend_Abort.
  eapply (quiet_step_trans _ (match as_onSent a with
                              | Some cb => runOnSent cb (Some (Disconnected err)) s
                              | None => s end)).
  - destruct (as_onSent a); [apply quiet_step_runOnSent | apply quiet_step_refl].
  - destruct (as_release a); [by apply quiet_step_emit | apply quiet_step_refl].
Qed.

Lemma quiet_step_drain (jobs : list asyncSend) :
  forall s, quiet_step s (foldl (fun s pending => asyncSend_Abort ErrConnClosed pending s) s jobs).
Proof.
  induction jobs as [|a jobs IH]; intros s; simpl; [apply quiet_step_refl |].
  eapply quiet_step_trans; [apply quiet_step_Abort | apply IH].
Qed.

Lemma quiet_omap {A} (f : A -> option Event) (l : list A) :
  (forall a ev, f a = Some ev -> teardown ev = false) -> quiet (omap f l).
Proof.
  intros Hf. unfold quiet. apply Forall_forall. intros ev Hin.
  apply list_elem_of_omap in Hin as (a & _ & Ha). eauto.
Qed.

Lemma quiet_cancelTasks (m : gmap N answer) :
  quiet (omap (fun '(id, a) => if a_cancel a then Some (AnswerCancel id) else None)
              (map_to_list m)).
Proof.
  apply quiet_omap. intros [id a] ev. destruct (a_cancel a); [| done]. by intros [= <-].
Qed.

Lemma quiet_release_list (s : Conn) : quiet (release s).1.
Proof.
  unfold release. simpl. apply Forall_cons. split; [done |].
  repeat (apply Forall_app; split).
  - apply quiet_omap. intros [e|] ev; [| done]. by intros [= <-].
  - apply quiet_omap. intros [e|] ev; [| done]. by intros [= <-].
  - apply quiet_omap. intros [id a] ev. destruct (a_msgReleaser a); [| done]. by intros [= <-].
  - apply quiet_omap. intros q ev. destruct q as [r|]; simpl.
    + destruct (heap s !! r) as [qv|]; [destruct (finished (q_flags qv)) |]; try done;
        by intros [= <-].
    + by intros [= <-].
Qed.

Lemma quiet_cleared (exports : list (option expent)) :
  quiet (omap (fun e => (fun e => ClearExportID (exp_client e)) <$> e) exports).
Proof. apply quiet_omap. intros [e|] ev; [| done]. by intros [= <-]. Qed.

(** The modifications of the first [shutdown], phase by phase. *)
Lemma shutdown_first (timeout : bool) (abortErr : option error) (s : Conn) :
  closing s = false ->
  let r := shutdown timeout abortErr s in
  exists before after ab,
    quiet before /\ quiet after /\
    (ab = [] \/ ab = [OutMsg_Release] \/
     exists e, abortErr = Some e /\ ab = [Transport_Send (Out_abort e); OutMsg_Release]) /\
    log r.2 = log s ++ [Bgcancel] ++ before
                ++ (if timeout then [Transport_Close; Close_closed] else [])
                ++ after ++ ab
                ++ (if timeout then [] else [Transport_Close; Close_closed]) /\
    (forall id a, answers s !! id = Some a -> a_cancel a = true ->
                  AnswerCancel id ∈ before) /\
    (allocs s = [] -> forall e, abortErr = Some e ->
                      ab = [Transport_Send (Out_abort e); OutMsg_Release]) /\
    (exists err, r.1 = Shutdown_returns err) /\
    closing r.2 = true /\ bgctx_done r.2 = true /\ closed r.2 = true /\
    sendq r.2 = [] /\ questions r.2 = [] /\ answers r.2 = ∅ /\ exports r.2 = [] /\
    imports r.2 = ∅ /\ embargoes r.2 = [].
Proof.
  intros Hclosing r. subst r. unfold shutdown. rewrite Hclosing.
  set (cancels := omap (fun '(id, a) => if a_cancel a then Some (AnswerCancel id) else None)
                       (map_to_list (answers s))).
  set (sC := cancelTasks (emit Bgcancel (set_bgctx_done true (set_closing true s)))).
  set (early := if timeout then close_transport sC else (None, sC)).
  assert (Hearly : early = if timeout then close_transport sC else (None, sC)) by done.
  clearbody early. destruct early as [e1 sD0].
  set (sD := emit Tasks_Wait sD0).
  pose proof (quiet_step_drain (sendq sD) (set_sendq [] sD)) as Hdrain.
  fold (drainQueue sD) in Hdrain.
  set (sE := drainQueue sD) in *.
  destruct Hdrain as ((dr & Hdr & Hqdr) & Hc & Hb & Hcl & Hsq & Hal & Htc & _).
  unfold release.
  set (rl := [Client_Release (bootstrap sE)] ++ releaseExports (exports sE)
               ++ liftEmbargoes (embargoes sE) ++ releaseAnswers (answers sE)
               ++ releaseQuestions (heap sE) (questions sE)).
  assert (Hrl : quiet rl) by apply (quiet_release_list sE).
  set (cleared := omap (fun e => (fun e => ClearExportID (exp_client e)) <$> e) (exports sE)).
  assert (Hcleared : quiet cleared) by apply quiet_cleared.
  clearbody rl cleared.
  set (sG := emit_all rl (emit_all cleared _)).
  assert (Hab : exists ab,
            (ab = [] \/ ab = [OutMsg_Release] \/
             exists e, abortErr = Some e /\ ab = [Transport_Send (Out_abort e); OutMsg_Release])
            /\ (allocs sG = [] -> forall e, abortErr = Some e ->
                  ab = [Transport_Send (Out_abort e); OutMsg_Release])
            /\ log (abort abortErr sG) = log sG ++ ab
            /\ closing (abort abortErr sG) = closing sG
            /\ bgctx_done (abort abortErr sG) = bgctx_done sG
            /\ closed (abort abortErr sG) = closed sG
            /\ sendq (abort abortErr sG) = sendq sG
            /\ questions (abort abortErr sG) = questions sG
            /\ answers (abort abortErr sG) = answers sG
            /\ exports (abort abortErr sG) = exports sG
            /\ imports (abort abortErr sG) = imports sG
            /\ embargoes (abort abortErr sG) = embargoes sG
            /\ transport_Close (abort abortErr sG) = transport_Close sG).
  { unfold abort. destruct abortErr as [e|].
    - unfold next_alloc. destruct (allocs sG) as [|[|e'|e'] rest]; simpl.
      + exists [Transport_Send (Out_abort e); OutMsg_Release].
        split_and!; try done; [eauto | by intros _ ? [= <-] | by rewrite <- app_assoc].
      + exists [Transport_Send (Out_abort e); OutMsg_Release].
        split_and!; try done; [eauto | by rewrite <- app_assoc].
      + exists []. split_and!; try done; [eauto | by rewrite app_nil_r].
      + exists [OutMsg_Release]. split_and!; try done; eauto.
    - exists []. split_and!; try done; [eauto | by rewrite app_nil_r]. }
  destruct Hab as (ab & Hab & Habs & Hlab & Hac & Hab' & Hacl & Hasq & Haq & Haa & Hae & Hai & Haem & Hatc).
  set (sH := abort abortErr sG) in *. clearbody sH.
  exists cancels, ([Tasks_Wait] ++ dr ++ cleared ++ rl), ab.
  split; [apply quiet_cancelTasks |].
  split; [apply Forall_cons; split; [done |]; repeat (apply Forall_app; split); done |].
  split; [exact Hab |].
  assert (Hcancel : forall id a, answers s !! id = Some a -> a_cancel a = true ->
                      AnswerCancel id ∈ cancels).
  { intros id a Hid Ha. unfold cancels. apply list_elem_of_omap.
    exists (id, a). split; [by apply elem_of_map_to_list |]. by rewrite Ha. }
  destruct timeout; injection Hearly as -> ->; simpl in *.
  - rewrite Hal in Habs.
    split_and!; try done; try congruence; eauto.
    rewrite Hlab. subst sG. simpl. rewrite Hdr. subst sD sC. simpl.
    unfold cancelTasks. simpl. fold cancels.
    rewrite <- ?app_assoc. simpl. by rewrite <- ?app_assoc, ?app_nil_r.
  - rewrite Hal in Habs.
    split_and!; try done; try congruence; eauto.
    rewrite Hlab. subst sG. simpl. rewrite Hdr. subst sD sC. simpl.
    unfold cancelTasks. simpl. fold cancels.
    rewrite <- ?app_assoc. simpl. by rewrite <- ?app_assoc, ?app_nil_r.
Qed.

(** C5. Calling Close more than once has the same visible effect as
    calling it once.  The first shutdown sets [closing], cancels the
    background context, cancels the answers that have a cancel function,
    drains the send queue, clears the five tables, sends at most one
    abort, closes the transport once and closes the Done channel once;
    a later Close finds [closing] set, changes nothing (neither the
    connection nor the log of calls) and returns once Done is closed, and
    any Close that finds [closing] set does nothing but wait for Done. *)
Theorem Close_idempotent (t1 t2 : bool) (s : Conn) :
  closing s = false ->
  let s1 := (Close t1 s).2 in
  (exists err, (Close t1 s).1 = Shutdown_returns err) /\
  closing s1 = true /\ bgctx_done s1 = true /\ closed s1 = true /\ sendq s1 = [] /\
  questions s1 = [] /\ answers s1 = ∅ /\ exports s1 = [] /\ imports s1 = ∅ /\
  embargoes s1 = [] /\
  (forall id a, answers s !! id = Some a -> a_cancel a = true -> AnswerCancel id ∈ log s1) /\
  (exists new,
     log s1 = log s ++ new /\
     count is_Bgcancel new = 1%nat /\ (count is_abort new <= 1)%nat /\
     count is_Transport_Close new = 1%nat /\ count is_Close_closed new = 1%nat) /\
  Close t2 s1 = (Shutdown_returns None, s1) /\
  (forall s', closing s' = true ->
     (Close t2 s').2 = s' /\ (closed s' = false -> (Close t2 s').1 = Shutdown_waits)).
Proof.
  intros Hclosing s1. subst s1. unfold Close.
  destruct (shutdown_first t1 (Some (Failed ErrConnClosed)) s Hclosing)
    as (before & after & ab & Hq1 & Hq2 & Hab & Hlog & Hcancel & _ & Hret & Hc & Hb & Hcl
        & Hsq & Hqs & Han & Hex & Him & Hem).
  set (s1 := (shutdown t1 (Some (Failed ErrConnClosed)) s).2) in *.
  assert (Hcount : forall p l, (forall ev, p ev = true -> teardown ev = true) ->
                     quiet l -> count p l = 0%nat) by apply count_quiet.
  assert (Hab_abort : (count is_abort ab <= 1)%nat /\ count is_Bgcancel ab = 0%nat /\
                      count is_Transport_Close ab = 0%nat /\ count is_Close_closed ab = 0%nat).
  { destruct Hab as [->|[->|(e & _ & ->)]]; rewrite ?count_cons, ?count_nil; simpl;
      split_and!; lia. }
  destruct Hab_abort as (Ha1 & Ha2 & Ha3 & Ha4).
  split_and!; try done.
  - intros id a Hid Ha. rewrite Hlog. apply elem_of_app. right.
    apply elem_of_app. right. apply elem_of_app. left. eauto.
  - eexists. split; [exact Hlog |].
    rewrite !count_app.
    rewrite !(Hcount is_Bgcancel before), !(Hcount is_Bgcancel after),
            !(Hcount is_abort before), !(Hcount is_abort after),
            !(Hcount is_Transport_Close before), !(Hcount is_Transport_Close after),
            !(Hcount is_Close_closed before), !(Hcount is_Close_closed after);
      try done;
      try (intros ev Hev; unfold teardown; rewrite Hev; by rewrite ?orb_true_r).
    rewrite Ha2, Ha3, Ha4.
    destruct t1; rewrite ?count_cons, ?count_nil; simpl; split_and!; lia.
  - unfold shutdown. by rewrite Hc, Hcl.
  - intros s' Hs'. unfold shutdown. rewrite Hs'. by destruct (closed s').
Qed.

Section facts.
Context (E : Env).

Lemma recvCap_frame (d : CapDescriptor) (s : Conn) :
  walk_frame s (recvCap E d s).2.
Proof.
  destruct d as [|id|id|id|[pa|e]|w]; simpl;
    try apply walk_frame_refl; try (repeat split; fail).
  - destruct (findExport id s); simpl; [apply walk_frame_emit | apply walk_frame_refl].
  - destruct (pa_Transform pa) as [raw|e]; simpl; [| apply walk_frame_refl].
    destruct (parseTransform raw) as [t|e]; simpl; [| apply walk_frame_refl].
    destruct (answers s !! pa_QuestionId pa) as [ans|]; simpl; [| apply walk_frame_refl].
    unfold recvCapReceiverAnswer.
    destruct (a_promise ans); simpl; [apply walk_frame_emit |].
    destruct (a_err ans); simpl; [apply walk_frame_refl |].
    destruct (results_Content (a_results ans)) as [content|e]; simpl;
      [| apply walk_frame_refl].
    destruct (Transform E content t) as [ptr [e|]]; simpl; [apply walk_frame_refl |].
    destruct (negb _); simpl; [apply walk_frame_refl | apply walk_frame_emit].
Qed.

Lemma recvPayload_loop_frame (ptab : list CapDescriptor) :
  forall i mtab locals s, walk_frame s (recvPayload_loop E ptab i mtab locals s).2.
Proof.
  induction ptab as [|d rest IH]; intros i mtab locals s; simpl.
  - apply walk_frame_refl.
  - pose proof (recvCap_frame d s) as Hd.
    destruct (recvCap E d s) as [[client [e|]] s1]; simpl in *.
    + eapply walk_frame_trans; [exact Hd | apply walk_frame_emit_all].
    + eapply walk_frame_trans; [exact Hd | apply IH].
Qed.


Lemma reaches_fun content x i j :
  reaches E content x i = true -> reaches E content x j = true -> i = j.
Proof.
  unfold reaches. rewrite !andb_true_iff, !N.eqb_eq. intros [_ <-] [_ <-]. done.
Qed.

Lemma embargo_candidate_Some content locals ecaps mtab xform i :
  embargo_candidate E content locals ecaps mtab xform = Some i <->
  reaches E content xform i = true /\ (N.to_nat i < length mtab)%nat /\
  i ∈ locals /\ i ∉ ecaps.
Proof.
  unfold embargo_candidate, reaches, uintSet_has.
  destruct (Interface_IsValid _); simpl; [| split; [discriminate | intros []; discriminate]].
  destruct (N.leb_spec (N.of_nat (length mtab)) (Capability (Ptr_Interface (Transform E content xform).1)))
    as [Hle|Hlt]; simpl.
  { split; [discriminate |]. rewrite N.eqb_eq. intros (<- & ? & _). lia. }
  repeat case_bool_decide; simpl.
  - split; [discriminate |]. rewrite N.eqb_eq. intros (<- & _ & _ & ?). done.
  - split.
    + intros [= <-]. rewrite N.eqb_refl. repeat split; auto. lia.
    + rewrite N.eqb_eq. intros (<- & _). done.
  - split; [discriminate |]. rewrite N.eqb_eq. intros (<- & _ & ? & _). done.
  - split; [discriminate |]. rewrite N.eqb_eq. intros (<- & _ & ? & _). done.
Qed.

Lemma findEmbargo_Conn_embargo (client : Client) (s : Conn) :
  embargo_table_ok s ->
  match Conn_embargo client s with
  | (id, wrapped, s') =>
      wrapped = Client_embargo client /\
      findEmbargo id s = None /\
      findEmbargo id s' = Some (mkEmbargo client) /\
      (forall id', id' <> id -> findEmbargo id' s' = findEmbargo id' s) /\
      embargo_table_ok s' /\
      captables s' = captables s
  end.
Proof.
  intros (Hnd & Hlt & Hfree). unfold Conn_embargo.
  destruct (idgen_next (embargoID s)) as [id g] eqn:Hnext.
  set (tab := embargoes s ++ replicate (S (N.to_nat id) - length (embargoes s)) None).
  assert (Hlen : (N.to_nat id < length tab)%nat).
  { unfold tab. rewrite length_app, length_replicate. lia. }
  assert (Hother : forall id', id' <> id ->
            findEmbargo id' (set_embargoes (<[N.to_nat id := Some (mkEmbargo client)]> tab)
                               (set_embargoID g s)) = findEmbargo id' s).
  { intros id' Hne. unfold findEmbargo. simpl.
    rewrite list_lookup_insert_ne by lia. unfold tab.
    destruct (Nat.lt_ge_cases (N.to_nat id') (length (embargoes s))) as [Hl|Hg].
    - by rewrite lookup_app_l.
    - rewrite lookup_app_r by lia. rewrite (lookup_ge_None_2 (embargoes s)) by lia.
      destruct (replicate _ _ !! _) as [o|] eqn:Hr; [| done].
      apply lookup_replicate in Hr as [-> _]. done. }
  assert (Hfresh : findEmbargo id s = None).
  { apply Hfree. unfold idgen_next in Hnext.
    destruct (gen_free (embargoID s)) as [|h free] eqn:Hf.
    - injection Hnext as <- <-. right. lia.
    - injection Hnext as <- <-. left. set_solver. }
  repeat split; auto.
  - unfold findEmbargo. simpl. by rewrite list_lookup_insert_eq.
  - unfold idgen_next in Hnext. simpl.
    destruct (gen_free (embargoID s)) as [|h free] eqn:Hf;
      injection Hnext as <- <-; simpl; [constructor |].
    by apply NoDup_cons in Hnd as [_ ?].
  - unfold idgen_next in Hnext. simpl.
    destruct (gen_free (embargoID s)) as [|h free] eqn:Hf;
      injection Hnext as <- <-; simpl; intros id' Hin; [set_solver |].
    apply Hlt. set_solver.
  - intros id' Hid'.
    assert (id' <> id) as Hne.
    { unfold idgen_next in Hnext. simpl in Hid'.
      destruct (gen_free (embargoID s)) as [|h free] eqn:Hf;
        injection Hnext as <- <-; simpl in Hid'.
      - destruct Hid' as [Hin|Hge]; [set_solver | lia].
      - apply NoDup_cons in Hnd as [Hnotin _].
        destruct Hid' as [Hin|Hge]; [set_solver |].
        specialize (Hlt h ltac:(set_solver)). lia. }
    rewrite Hother by done. apply Hfree.
    unfold idgen_next in Hnext. simpl in Hid'.
    destruct (gen_free (embargoID s)) as [|h free] eqn:Hf;
      injection Hnext as <- <-; simpl in Hid'.
    + destruct Hid' as [Hin|Hge]; [set_solver | right; lia].
    + destruct Hid' as [Hin|Hge]; [left; set_solver | right; lia].
Qed.


Lemma parseReturn_loop_app q content locals (l1 l2 : list (list PipelineOp)) :
  forall mtab ec dis s,
    parseReturn_loop E q content locals (l1 ++ l2) mtab ec dis s =
    match parseReturn_loop E q content locals l1 mtab ec dis s with
    | ((mtab1, ec1, dis1), s1) => parseReturn_loop E q content locals l2 mtab1 ec1 dis1 s1
    end.
Proof.
  induction l1 as [|x l1 IH]; intros mtab ec dis s; simpl; [done |].
  destruct (embargo_candidate E content locals ec mtab x) as [i|]; [| apply IH].
  destruct (Conn_embargo _ s) as [[id wrapped] s1]. apply IH.
Qed.

Lemma reaching_nil content (ec : gset N) (j : N) (new : list senderLoopback) :
  (forall sl, sl ∈ new -> exists j', reaches E content (sl_transform sl) j' = true /\ j' ∉ ec) ->
  j ∈ ec -> reaching E content j new = [].
Proof.
  intros Hnew Hj. unfold reaching.
  induction new as [|sl new IH]; [done |].
  rewrite filter_cons. destruct (decide _) as [Hr|_].
  - destruct (Hnew sl ltac:(left)) as (j' & Hj' & Hnot).
    rewrite (reaches_fun _ _ _ _ Hr Hj') in Hj. done.
  - apply IH. intros sl' Hin. apply Hnew. by right.
Qed.

Lemma reaching_none content (j : N) (new : list senderLoopback) :
  (forall sl, sl ∈ new -> reaches E content (sl_transform sl) j = false) ->
  reaching E content j new = [].
Proof.
  intros Hnew. unfold reaching.
  induction new as [|sl new IH]; [done |].
  rewrite filter_cons. destruct (decide _) as [Hr|_].
  - rewrite (Hnew sl) in Hr by left. discriminate.
  - apply IH. intros sl' Hin. apply Hnew. by right.
Qed.

Lemma parseReturn_loop_facts q content locals (called : list (list PipelineOp)) :
  forall mtab ec dis s mtab' ec' dis' s',
    embargo_table_ok s ->
    parseReturn_loop E q content locals called mtab ec dis s = ((mtab', ec', dis'), s') ->
    exists new,
      dis' = dis ++ new /\
      length mtab' = length mtab /\
      ec ⊆ ec' /\
      embargo_table_ok s' /\
      captables s' = captables s /\
      (forall id, is_Some (findEmbargo id s) -> findEmbargo id s' = findEmbargo id s) /\
      (forall sl, sl ∈ new ->
         sl_question sl = q /\ sl_transform sl ∈ called /\
         findEmbargo (sl_id sl) s = None /\ is_Some (findEmbargo (sl_id sl) s') /\
         exists j, reaches E content (sl_transform sl) j = true /\ j ∉ ec) /\
      NoDup (sl_id <$> new) /\
      (forall j, (length (reaching E content j new) <= 1)%nat) /\
      (forall j, j ∈ ec' -> j ∈ ec \/ (exists x, x ∈ called /\ reaches E content x j = true)) /\
      (forall (k : nat) c, mtab !! k = Some c ->
         mtab' !! k = Some c \/
         (N.of_nat k ∈ ec' /\ (N.of_nat k ∉ ec) /\ mtab' !! k = Some (Client_embargo c))) /\
      (forall j, j ∈ ec -> mtab' !! N.to_nat j = mtab !! N.to_nat j).
Proof.
  induction called as [|xform rest IH]; intros mtab ec dis s mtab' ec' dis' s' Hok Hrun;
    simpl in Hrun.
  - injection Hrun as <- <- <- <-. exists []. rewrite app_nil_r.
    split_and!;
      first [ (intros sl Hsl; by apply elem_of_nil in Hsl) | apply NoDup_nil_2
            | (intros j; simpl; lia) | done | auto ].
  - destruct (embargo_candidate E content locals ec mtab xform) as [i|] eqn:Hcand.
    + apply embargo_candidate_Some in Hcand as (Hreach & Hlt & Hloc & Hnot).
      destruct (lookup_lt_is_Some_2 mtab _ Hlt) as [c0 Hc0].
      rewrite Hc0 in Hrun. simpl in Hrun.
      pose proof (findEmbargo_Conn_embargo c0 s Hok) as Hemb.
      destruct (Conn_embargo c0 s) as [[id wrapped] s1].
      destruct Hemb as (-> & Hfresh & Hset & Hother & Hok1 & Hcap1).
      destruct (IH _ _ _ _ _ _ _ _ Hok1 Hrun)
        as (new & -> & Hlen & Hsub & Hok' & Hcap & Hmono & Hnew & Hnd & Hcount & Hec & Htab & Hkeep).
      exists (mkSenderLoopback id q xform :: new).
      assert (Hin_i : i ∈ uintSet_add ec i) by (unfold uintSet_add; set_solver).
      assert (His : forall sl, sl ∈ new -> sl_id sl <> id).
      { intros sl Hsl Heq. destruct (Hnew sl Hsl) as (_ & _ & Hnone & _).
        rewrite Heq, Hset in Hnone. discriminate. }
      split_and!.
      * by rewrite <- app_assoc.
      * rewrite Hlen. apply length_insert.
      * unfold uintSet_add in Hsub. set_solver.
      * exact Hok'.
      * congruence.
      * intros id' Hsome. destruct (decide (id' = id)) as [->|Hne].
        -- rewrite Hfresh in Hsome. by destruct Hsome.
        -- rewrite <- (Hother id' Hne). apply Hmono. by rewrite Hother.
      * intros sl Hsl. apply elem_of_cons in Hsl as [->|Hin].
        -- simpl. split_and!; [done | left | done | rewrite Hmono; rewrite Hset; eauto |].
           exists i. done.
        -- destruct (Hnew sl Hin) as (? & ? & Hnone & ? & j & Hj & Hjn).
           split_and!; [done | by right | | done |].
           ++ rewrite <- (Hother _ (His sl Hin)). exact Hnone.
           ++ exists j. split; [done |]. unfold uintSet_add in Hjn. set_solver.
      * rewrite fmap_cons. apply NoDup_cons. split; [| exact Hnd].
        simpl. intros Hin. apply list_elem_of_fmap in Hin as (sl & Heq & Hsl).
        by apply (His sl Hsl).
      * intros j. unfold reaching. rewrite filter_cons. simpl.
        destruct (decide (reaches E content xform j = true)) as [Hr|Hr]; [| apply Hcount].
        rewrite (reaches_fun _ _ _ _ Hr Hreach).
        fold (reaching E content i new).
        rewrite (reaching_nil content (uintSet_add ec i) i new); [simpl; lia | | done].
        intros sl Hsl. by destruct (Hnew sl Hsl) as (_ & _ & _ & _ & ?).
      * intros j Hj. destruct (Hec j Hj) as [Hin|(x & Hx & Hrx)].
        -- unfold uintSet_add in Hin. apply elem_of_union in Hin as [Hin|Hin]; [| by left].
           apply elem_of_singleton in Hin as ->. right. exists xform. split; [left | done].
        -- right. exists x. split; [by right | done].
      * intros k c Hk.
        destruct (decide (k = N.to_nat i)) as [->|Hne].
        -- right. rewrite N2Nat.id. split; [by apply Hsub |]. split; [done |].
           rewrite (Hkeep i Hin_i). rewrite list_lookup_insert_eq by done. congruence.
        -- assert (<[N.to_nat i:=Client_embargo c0]> mtab !! k = Some c) as Hk'
             by (by rewrite list_lookup_insert_ne).
           destruct (Htab k c Hk') as [Hs|(Hin & Hnotin & Hs)]; [by left |].
           right. split; [done |]. split; [| done].
           unfold uintSet_add in Hnotin. set_solver.
      * intros j Hj. rewrite Hkeep by (unfold uintSet_add; set_solver).
        apply list_lookup_insert_ne. intros Heq.
        apply N2Nat.inj in Heq. congruence.
    + destruct (IH _ _ _ _ _ _ _ _ Hok Hrun)
        as (new & -> & Hlen & Hsub & Hok' & Hcap & Hmono & Hnew & Hnd & Hcount & Hec & Htab & Hkeep).
      exists new. split_and!; auto.
      * intros sl Hsl. destruct (Hnew sl Hsl) as (? & ? & ? & ? & ?).
        split_and!; auto. by right.
      * intros j Hj. destruct (Hec j Hj) as [?|(x & Hx & Hrx)]; [by left |].
        right. exists x. split; [by right | done].
Qed.

Lemma isLocalClient_false_iff (client : Client) :
  isLocalClient E client = false <->
  client = Client_null \/
  (exists id, Brand_Value client = BV_importClient (self E) id) \/
  Brand_Value client = BV_PipelineClient (Some (self E)) \/
  (exists e, Brand_Value client = BV_error e).
Proof.
  destruct client as [|c id|[q|] t|e|tag|inner]; simpl.
  - split; [tauto | reflexivity].
  - rewrite negb_false_iff, N.eqb_eq. split.
    + intros ->. right; left; eauto.
    + intros [H|[[id' H]|[H|[e H]]]]; try discriminate; congruence.
  - rewrite negb_false_iff, N.eqb_eq. split.
    + intros ->. right; right; left; eauto.
    + intros [H|[[id' H]|[H|[e H]]]]; try discriminate; congruence.
  - split; [discriminate |].
    intros [H|[[id' H]|[H|[e H]]]]; discriminate.
  - split; [intros _; right; right; right; eauto | reflexivity].
  - split; [discriminate |].
    intros [H|[[id' H]|[H|[e H]]]]; discriminate.
  - split; [discriminate |].
    intros [H|[[id' H]|[H|[e H]]]]; discriminate.
Qed.

(** The set [locals] that the walk of [recvPayload] builds holds the
    indices of the clients [isLocalClient] accepts. *)
Lemma recvPayload_loop_locals (ptab : list CapDescriptor) :
  forall (i : N) (mtab : list Client) (locals : gset N) (s : Conn),
    i = N.of_nat (length mtab) ->
    (forall j, j ∈ locals <->
       exists client, mtab !! N.to_nat j = Some client /\ isLocalClient E client = true) ->
    match recvPayload_loop E ptab i mtab locals s with
    | ((mtab', locals', None), _) =>
        length mtab' = (length mtab + length ptab)%nat /\
        forall j, j ∈ locals' <->
          exists client, mtab' !! N.to_nat j = Some client /\ isLocalClient E client = true
    | _ => True
    end.
Proof.
  induction ptab as [|d rest IH]; intros i mtab locals s Hi Hloc; simpl.
  - split; [lia | exact Hloc].
  - destruct (recvCap E d s) as [[client [e|]] s1]; [exact I |].
    specialize (IH (i + 1) (mtab ++ [client])
                  (if isLocalClient E client then uintSet_add locals i else locals) s1).
    destruct (recvPayload_loop E rest (i + 1) (mtab ++ [client]) _ s1)
      as [[[mtab' locals'] [e|]] s2]; [exact I |].
    rewrite length_app in IH. simpl in IH.
    destruct IH as [Hlen Hiff]; [lia | | split; [lia | exact Hiff]].
    intros j. destruct (decide (j = i)) as [->|Hne].
    + subst i. rewrite Nat2N.id, lookup_app_r, Nat.sub_diag by lia. simpl.
      destruct (isLocalClient E client) eqn:Hl.
      * unfold uintSet_add. split; [eauto | set_solver].
      * rewrite Hloc. rewrite lookup_ge_None_2 by lia.
        split; [intros (c & Hc & _); discriminate |].
        intros (c & Hc & Hc'). congruence.
    + assert (N.to_nat j <> length mtab) by lia.
      assert (Hlk : (mtab ++ [client]) !! N.to_nat j = mtab !! N.to_nat j).
      { destruct (Nat.lt_ge_cases (N.to_nat j) (length mtab)).
        - by rewrite lookup_app_l.
        - rewrite !lookup_ge_None_2; [done | lia | rewrite length_app; simpl; lia]. }
      rewrite Hlk, <- Hloc.
      destruct (isLocalClient E client); [unfold uintSet_add; set_solver | done].
Qed.


Lemma recvPayload_ok (r : Payload) (s s1 : Conn) content locals :
  recvPayload E r s = ((content, locals, None), s1) ->
  embargoes s1 = embargoes s /\ embargoID s1 = embargoID s /\
  forall i, i ∈ locals ->
    exists mtab client,
      captables s1 !! payload_msg r = Some mtab /\
      mtab !! N.to_nat i = Some client /\ isLocalClient E client = true.
Proof.
  unfold recvPayload. intros Hrun.
  destruct (payload_IsValid r); simpl in Hrun;
    [| injection Hrun as <- <- <-; split_and!; [done | done | set_solver]].
  destruct (captables s !! payload_msg r); [discriminate |].
  destruct (payload_Content r) as [p|e]; [| discriminate].
  destruct (payload_CapTable r) as [ptab|e];
    [| injection Hrun as <- <- <-; split_and!; [done | done | set_solver]].
  pose proof (recvPayload_loop_frame ptab 0 [] ∅ s) as Hframe.
  pose proof (recvPayload_loop_locals ptab 0 [] ∅ s eq_refl) as Hloc.
  destruct (recvPayload_loop E ptab 0 [] ∅ s) as [[[mtab locals'] [e|]] s2];
    [discriminate |].
  injection Hrun as <- <- <-. simpl in *.
  destruct Hframe as (He & Hg & _).
  split_and!; [done | done |].
  intros i Hi. destruct Hloc as [_ Hloc].
  { intros j. split; [set_solver |]. intros (c & Hc & _). by rewrite lookup_nil in Hc. }
  apply Hloc in Hi as (client & Hc & Hl).
  exists mtab, client. by rewrite lookup_insert_eq.
Qed.

Lemma embargo_table_ok_frame (s s1 : Conn) :
  embargoes s1 = embargoes s -> embargoID s1 = embargoID s ->
  embargo_table_ok s -> embargo_table_ok s1.
Proof.
  unfold embargo_table_ok, findEmbargo. intros -> ->. done.
Qed.

(** C1. For a Return that carries results and a path [xform] of the
    question's [called] set: if the path, applied to the returned content,
    reaches a valid interface whose index [i] in the capability table is
    classified local and is not embargoed yet (no earlier path of [called]
    reaches it), then [parseReturn] replaces the entry [i] of the
    message's capability table by the embargoing wrapper of the client
    that was there, registers an embargo for that client under an id that
    named no embargo before, and asks for exactly one senderLoopback
    Disembargo for that index, which names that id, the question and that
    path.  However many paths reach an index, at most one Disembargo is
    asked for it, and the embargo ids handed out are pairwise distinct. *)
Theorem parseReturn_embargo (ret : Return) (r : Payload)
    (called pre post : list (list PipelineOp)) (xform : list PipelineOp)
    (content : Ptr) (locals : gset N) (i : N) (s s1 : Conn) :
  ret_Which ret = Return_results (Ok r) ->
  payload_msg r = ret_msg ret ->
  recvPayload E r s = ((content, locals, None), s1) ->
  embargo_table_ok s ->
  called = pre ++ xform :: post ->
  reaches E content xform i = true ->
  i ∈ locals ->
  (forall x, x ∈ pre -> reaches E content x i = false) ->
  exists id client,
    (captables s1 !! ret_msg ret ≫= (.!! N.to_nat i)) = Some client /\
    let pr := (parseReturn E ret called s).1 in
    let s' := (parseReturn E ret called s).2 in
    pr_err pr = None /\
    (captables s' !! ret_msg ret ≫= (.!! N.to_nat i)) = Some (Client_embargo client) /\
    findEmbargo id s = None /\
    findEmbargo id s' = Some (mkEmbargo client) /\
    mkSenderLoopback id (ret_AnswerId ret) xform ∈ pr_disembargoes pr /\
    length (reaching E content i (pr_disembargoes pr)) = 1%nat /\
    (forall j, (length (reaching E content j (pr_disembargoes pr)) <= 1)%nat) /\
    NoDup (sl_id <$> pr_disembargoes pr).
Proof.
  intros Hwhich Hmsg Hrecv Hok -> Hreach Hloc Hpre.
  destruct (recvPayload_ok r s s1 content locals Hrecv) as (He & Hg & Hlocals).
  destruct (Hlocals i Hloc) as (mtab & client & Htab & Hclient & _).
  rewrite Hmsg in Htab.
  pose proof (embargo_table_ok_frame s s1 He Hg Hok) as Hok1.
  assert (Hfind : forall id, findEmbargo id s1 = findEmbargo id s).
  { intros id. unfold findEmbargo. by rewrite He. }
  set (q := ret_AnswerId ret).
  assert (Hpr : parseReturn E ret (pre ++ xform :: post) s =
            match parseReturn_loop E q content locals (pre ++ xform :: post) mtab ∅ [] s1 with
            | ((mtab', _, dis), s') =>
                (mkParsedReturn content dis None false false,
                 set_captables (<[ret_msg ret := mtab']> (captables s')) s')
            end).
  { unfold parseReturn. rewrite Hwhich, Hrecv. cbn beta iota. rewrite Htab.
    fold q. by destruct (parseReturn_loop E q content locals _ mtab ∅ [] s1) as [[[? ?] ?] ?]. }
  rewrite Hpr. clear Hpr.
  (* the whole loop, for what holds of every index *)
  destruct (parseReturn_loop E q content locals (pre ++ xform :: post) mtab ∅ [] s1)
    as [[[mtab' ec'] dis'] s'] eqn:Hloop.
  destruct (parseReturn_loop_facts q content locals _ _ _ _ _ _ _ _ _ Hok1 Hloop)
    as (new & Hdis & _ & _ & _ & _ & _ & _ & Hnd & Hcount & _).
  simpl in Hdis. subst dis'.
  (* the loop in three parts: before, at and after the path *)
  rewrite parseReturn_loop_app in Hloop.
  destruct (parseReturn_loop E q content locals pre mtab ∅ [] s1)
    as [[[mtab1 ec1] dis1] s2] eqn:Hpre_run.
  destruct (parseReturn_loop_facts q content locals _ _ _ _ _ _ _ _ _ Hok1 Hpre_run)
    as (new1 & Hdis1 & Hlen1 & _ & Hok2 & Hcap2 & Hmono2 & Hnew1 & _ & _ & Hec1 & Htab1 & _).
  simpl in Hdis1. subst dis1.
  assert (Hnot : i ∉ ec1).
  { intros Hin. destruct (Hec1 i Hin) as [Hin'|(x & Hx & Hrx)]; [set_solver |].
    rewrite (Hpre x Hx) in Hrx. discriminate. }
  assert (Hclient1 : mtab1 !! N.to_nat i = Some client).
  { destruct (Htab1 _ _ Hclient) as [?|(Hin & _)]; [done |].
    rewrite N2Nat.id in Hin. done. }
  simpl in Hloop.
  assert (Hcand : embargo_candidate E content locals ec1 mtab1 xform = Some i).
  { apply embargo_candidate_Some. split_and!; auto.
    apply lookup_lt_Some in Hclient1. done. }
  rewrite Hcand, Hclient1 in Hloop. simpl in Hloop.
  pose proof (findEmbargo_Conn_embargo client s2 Hok2) as Hemb.
  destruct (Conn_embargo client s2) as [[id wrapped] s3].
  destruct Hemb as (-> & Hfresh & Hset & Hother & Hok3 & Hcap3).
  destruct (parseReturn_loop_facts q content locals _ _ _ _ _ _ _ _ _ Hok3 Hloop)
    as (new3 & Hdis3 & Hlen3 & _ & _ & Hcap4 & Hmono4 & Hnew3 & _ & _ & _ & _ & Hkeep).
  exists id, client. simpl.
  rewrite Htab. simpl. split; [done |].
  rewrite lookup_insert_eq. simpl.
  assert (Hfresh1 : findEmbargo id s = None).
  { rewrite <- Hfind.
    destruct (findEmbargo id s1) eqn:Hf; [| done].
    rewrite <- (Hmono2 id) in Hf by (rewrite Hf; eauto). congruence. }
  split_and!; auto.
  - rewrite Hkeep by (unfold uintSet_add; set_solver).
    by rewrite list_lookup_insert_eq by (by apply lookup_lt_Some in Hclient1).
  - assert (Hfc : forall t s0, findEmbargo id (set_captables t s0) = findEmbargo id s0)
      by done.
    rewrite Hfc, Hmono4; rewrite Hset; eauto.
  - rewrite Hdis3. apply elem_of_app. left. apply elem_of_app. right. left.
  - rewrite Hdis3. unfold reaching. rewrite !filter_app, !length_app.
    fold (reaching E content i new1) (reaching E content i new3).
    rewrite (reaching_nil content (uintSet_add ec1 i) i new3).
    + assert (reaching E content i new1 = []) as ->.
      { apply reaching_none. intros sl Hsl.
        destruct (Hnew1 sl Hsl) as (_ & Hin & _). by apply Hpre. }
      rewrite filter_cons. simpl. destruct (decide _); [done | congruence].
    + intros sl Hsl. by destruct (Hnew3 sl Hsl) as (_ & _ & _ & _ & ?).
    + unfold uintSet_add. set_solver.
Qed.

(** C2, as amended.  [isLocalClient] classifies a client as local unless
    it is the null client, an import client of this connection, a pipeline
    client for a question on this connection, or an error client; imports
    and pipeline clients of another connection are local; and the set of
    local indices that the walk of a received payload builds holds
    exactly the indices of the table's clients that are classified
    local. *)
Theorem isLocalClient_classification :
  (forall client,
     isLocalClient E client = false <->
     client = Client_null \/
     (exists id, Brand_Value client = BV_importClient (self E) id) \/
     Brand_Value client = BV_PipelineClient (Some (self E)) \/
     (exists e, Brand_Value client = BV_error e)) /\
  (forall c id, c <> self E -> isLocalClient E (Client_import c id) = true) /\
  (forall c transform, c <> self E ->
     isLocalClient E (Client_pipeline (Some c) transform) = true) /\
  (forall ptab s,
     match recvPayload_loop E ptab 0 [] ∅ s with
     | ((mtab, locals, None), _) =>
         forall i, i ∈ locals <->
           exists client, mtab !! N.to_nat i = Some client /\ isLocalClient E client = true
     | _ => True
     end).
Proof.
  split_and!.
  - apply isLocalClient_false_iff.
  - intros c id Hc. simpl. by rewrite negb_true_iff, N.eqb_neq.
  - intros c t Hc. simpl. by rewrite negb_true_iff, N.eqb_neq.
  - intros ptab s.
    pose proof (recvPayload_loop_locals ptab 0 [] ∅ s eq_refl) as H.
    destruct (recvPayload_loop E ptab 0 [] ∅ s) as [[[mtab locals] [e|]] s']; [done |].
    apply H. intros j. split; [set_solver |].
    intros (c & Hc & _). by rewrite lookup_nil in Hc.
Qed.




(** A target that parses is an imported capability or a promised
    answer. *)
Lemma parseMessageTarget_which (tgt : MessageTarget) (pt : parsedMessageTarget) :
  parseMessageTarget tgt = (pt, None) ->
  pt_which pt = Which_importedCap \/ pt_which pt = Which_promisedAnswer.
Proof.
  destruct tgt as [id|[pa|e]|w]; simpl; [intros [= <-]; by left | | done | done].
  destruct (pa_Transform pa) as [raw|e]; [| done].
  destruct (parseTransform raw) as [ops|e]; [| done].
  intros [= <-]. by right.
Qed.

Lemma parseCall_which (call : Call) (s : Conn) :
  (parseCall E call s).1.2 = None ->
  pt_which (p_target (parseCall E call s).1.1) = Which_importedCap \/
  pt_which (p_target (parseCall E call s).1.1) = Which_promisedAnswer.
Proof.
  unfold parseCall.
  destruct (call_Params call) as [payload|e]; [| done].
  destruct (recvPayload E payload s) as [[[ptr locals] [e|]] s1]; [done |].
  destruct (call_Target call) as [tgt|e]; [| done].
  destruct (parseMessageTarget tgt) as [pt err] eqn:Hpt. simpl.
  intros ->. by apply (parseMessageTarget_which tgt).
Qed.

(** The [panic("unreachable")] of [handleCall] is not reached. *)
Lemma handleCall_returns (call : Call) (releaseCall : MsgID) (s : Conn) :
  exists err, (handleCall E call releaseCall s).1 = Returns err.
Proof.
  unfold handleCall.
  destruct (call_SendResultsTo call); simpl; eauto.
  destruct (answers s !! call_QuestionId call); simpl; eauto.
  pose proof (parseCall_which call s) as Hwhich.
  destruct (parseCall E call s) as [[p parseErr] s1]. simpl in Hwhich.
  destruct (newReturn E s1) as [[err|] s2]; simpl; eauto.
  destruct parseErr as [e|]; simpl; eauto.
  destruct (Hwhich eq_refl) as [-> | ->].
  - destruct (findExport _ _); simpl; eauto.
  - repeat case_match; simpl; eauto.
Qed.
(** C7. For a Call whose [sendResultsTo] is anything but [caller],
    [handleCall] reports the error, queues one message, an [unimplemented]
    that echoes the call, and returns nil: the answers table is as it
    was, the connection is not closing, and the receive loop goes on with
    the next message. *)
Theorem handleCall_not_caller (call : Call) (releaseCall : MsgID) (s : Conn) :
  call_SendResultsTo call <> SendResultsTo_caller ->
  let err := Errorf "incoming call: results destination is not caller" [] None in
  let s' := (handleCall E call releaseCall s).2 in
  (handleCall E call releaseCall s).1 = Returns None /\
  s' = sendMessage (unimplemented_call call releaseCall) (Some OnSent_call_unimplemented)
         (report err s) /\
  answers s' = answers s /\
  closing s' = closing s /\ bgctx_done s' = bgctx_done s /\
  (exists evs, log s' = log s ++ ReportError err :: evs) /\
  (exists job, sendq s' = sendq s ++ [job] /\
               as_onSent job = Some OnSent_call_unimplemented /\
               ((next_alloc s).1 = Alloc_ok -> as_send job = Ok (Out_unimplemented_call call))) /\
  (bgctx_done s = false ->
   forall rest,
     receive E (mkIncoming (Message_call (Ok call)) releaseCall None :: rest) s =
     receive E rest s').
Proof.
  intros Hne err s'.
  assert (Hrun : handleCall E call releaseCall s =
            (Returns None,
             sendMessage (unimplemented_call call releaseCall)
               (Some OnSent_call_unimplemented) (report err s))).
  { unfold handleCall. destruct (call_SendResultsTo call); [done | done | done]. }
  subst s'. rewrite Hrun. simpl.
  unfold sendMessage, next_alloc. simpl.
  split_and!; try done.
  - by destruct (allocs s) as [|[|e|e] rest].
  - by destruct (allocs s) as [|[|e|e] rest].
  - by destruct (allocs s) as [|[|e|e] rest].
  - destruct (allocs s) as [|[|e|e] rest]; simpl; eauto.
    all: rewrite <- app_assoc; simpl; eauto.
  - destruct (allocs s) as [|[|e|e] rest]; simpl; eexists; split_and!; try done.
  - intros Hbg rest. simpl. by rewrite Hbg, Hrun.
Qed.


(** C9. For a Finish that names an answer that is not in the table, or
    one whose [finishReceived] flag is set, [handleFinish] returns an
    error and leaves the connection, and so the answers table, as it was;
    the receive loop returns that error, and the watcher of the
    background tasks then shuts the connection down with it: the error is
    reported, the tables are cleared, Done is closed, and the error is
    sent as an abort when the message can be allocated. *)
Theorem handleFinish_rejects (id : N) (releaseResultCaps : bool) (release : MsgID)
    (rest : list incomingMessage) (timeout : bool) (s : Conn) :
  (answers s !! id = None \/
   exists ans, answers s !! id = Some ans /\ finishReceived (a_flags ans) = true) ->
  bgctx_done s = false -> closing s = false ->
  let e := finish_error id s in
  let s0 := emit (ReleaseMsg release) s in
  let s' := monitor timeout (backgroundTask (Some e)) s0 in
  handleFinish E id releaseResultCaps s = (Returns (Some e), s) /\
  receive E (mkIncoming (Message_finish (Ok (mkFinish id releaseResultCaps))) release None
             :: rest) s
    = (Received (Returns (Some e)), s0) /\
  answers s0 = answers s /\
  closing s' = true /\ closed s' = true /\ answers s' = ∅ /\
  ReportError e ∈ log s' /\
  (allocs s = [] -> Transport_Send (Out_abort e) ∈ log s').
Proof.
  intros Hcase Hbg Hclosing e s0 s'.
  assert (He : forall s2, answers s2 = answers s ->
             handleFinish E id releaseResultCaps s2 = (Returns (Some e), s2)).
  { intros s2 Hs2. unfold handleFinish, e, finish_error. rewrite Hs2.
    destruct Hcase as [-> | (ans & -> & ->)]; reflexivity. }
  assert (Hnc : is_Canceled e = false).
  { unfold e, finish_error. by destruct (answers s !! id). }
  split; [by apply He |].
  split; [simpl; rewrite Hbg; fold s0; by rewrite (He s0) |].
  split; [done |].
  subst s'. unfold monitor, backgroundTask. rewrite Hnc. simpl.
  destruct (shutdown_first timeout (Some e) (report e s0) Hclosing)
    as (before & after & ab & _ & _ & _ & Hlog & _ & Habort & (late & Hret) & Hc & _ & Hcl
        & _ & _ & Han & _).
  destruct (shutdown timeout (Some e) (report e s0)) as [r s2]. simpl in *. subst r.
  assert (Hin : ReportError e ∈ log s2).
  { rewrite Hlog. apply elem_of_app. left. apply elem_of_app. right. left. }
  assert (Hab : allocs s = [] -> Transport_Send (Out_abort e) ∈ log s2).
  { intros Hnil. rewrite Hlog, (Habort Hnil e eq_refl).
    apply elem_of_app. right. apply elem_of_cons. right.
    apply elem_of_app. right. apply elem_of_app. right. apply elem_of_app. right.
    apply elem_of_app. left. left. }
  destruct late as [e'|]; simpl; split_and!; try done.
  - apply elem_of_app. by left.
  - intros Hnil. apply elem_of_app. left. by apply Hab.
Qed.

(** C3. When a Return arrives for a question whose [finished] flag is
    set, [handleReturn] consumes the message and returns nil: the message
    is released, nothing is parsed, resolved or sent.  If the completion
    signal [finishMsgSend] has fired, the id goes back to the allocator
    exactly when [finishSent] is set.  If it has not, the allocator is
    left as it is and one goroutine is started, which is blocked until the
    signal fires and then gives the id back exactly when [finishSent] is
    set.  The callback of a Finish sent from [handleReturn] sets
    [finishSent] exactly when the send succeeded, and fires the signal
    either way. *)
Theorem handleReturn_canceled (ret : Return) (release : MsgID) (q : qref)
    (qv : question) (s : Conn) :
  mjoin (questions s !! N.to_nat (ret_AnswerId ret)) = Some q ->
  heap s !! q = Some qv ->
  finished (q_flags qv) = true ->
  let qid := ret_AnswerId ret in
  let s' := (handleReturn E ret release s).2 in
  let waiter := Task_awaitFinish q qid in
  (handleReturn E ret release s).1 = Returns None /\
  log s' = log s ++ [ReleaseMsg release] /\
  sendq s' = sendq s /\ captables s' = captables s /\
  questions s' !! N.to_nat qid = Some None /\
  (q_finishMsgSend qv = true ->
     goroutines s' = goroutines s /\
     questionID s' = if finishSent (q_flags qv)
                     then idgen_remove qid (questionID s)
                     else questionID s) /\
  (q_finishMsgSend qv = false ->
     questionID s' = questionID s /\ goroutines s' = goroutines s ++ [waiter]) /\
  (forall s2 qv2,
     heap s2 !! q = Some qv2 ->
     (q_finishMsgSend qv2 = false -> runTask waiter s2 = None) /\
     (q_finishMsgSend qv2 = true ->
      runTask waiter s2 =
      Some (if finishSent (q_flags qv2)
            then set_questionID (idgen_remove qid (questionID s2)) s2
            else s2))) /\
  (forall err s2 qv2,
     heap s2 !! q = Some qv2 -> finishSent (q_flags qv2) = false ->
     exists qv3,
       heap (runOnSent (OnSent_return_finish q qid) err s2) !! q = Some qv3 /\
       q_finishMsgSend qv3 = true /\
       (finishSent (q_flags qv3) = true <-> err = None)).
Proof.
  intros Hq Hheap Hfin qid s' waiter. subst s' waiter qid.
  unfold handleReturn. set (qid := ret_AnswerId ret) in *.
  destruct (N.leb_spec (N.of_nat (length (questions s))) qid) as [Hle|Hlt].
  { rewrite lookup_ge_None_2 in Hq by lia. discriminate. }
  rewrite Hq. simpl. rewrite Hheap, Hfin.
  assert (Hpop : <[N.to_nat qid:=None]> (questions s) !! N.to_nat qid = Some None)
    by (apply list_lookup_insert_eq; lia).
  split_and!.
  - by destruct (q_finishMsgSend qv).
  - by destruct (q_finishMsgSend qv), (finishSent (q_flags qv)).
  - by destruct (q_finishMsgSend qv), (finishSent (q_flags qv)).
  - by destruct (q_finishMsgSend qv), (finishSent (q_flags qv)).
  - by destruct (q_finishMsgSend qv), (finishSent (q_flags qv)).
  - intros ->. by destruct (finishSent (q_flags qv)).
  - intros ->. done.
  - intros s2 qv2 H2. simpl. rewrite H2. split; intros ->; done.
  - intros err s2 qv2 H2 Hns. simpl.
    destruct err as [e|]; simpl.
    + exists (close_finishMsgSend qv2). rewrite lookup_alter_eq, H2. simpl.
      split_and!; [done | done |]. rewrite Hns. split; discriminate.
    + exists (close_finishMsgSend (set_finishSent qv2)).
      rewrite !lookup_alter_eq, H2. simpl. done.
Qed.

(** C4. For a Disembargo with senderLoopback context and embargo id
    [id]: when the target is a promised answer that is in the table with
    [returnSent] set and no exception, and its transform leads in the
    results to a slot of the capability table that holds an import client
    of this connection, [handleDisembargo] returns nil and queues a
    Disembargo with receiverLoopback context, the same id, and the import
    id of that client as its target; when these conditions do not all
    hold, it returns an error and queues nothing. *)
Theorem handleDisembargo_senderLoopback (target : result MessageTarget) (id : N)
    (release : MsgID) (s : Conn) :
  let d := mkDisembargo target (Disembargo_senderLoopback id) in
  (forall imp,
     echoable E target s imp ->
     let echo := Out_disembargo (OutTarget_importedCap imp)
                                (Disembargo_receiverLoopback id) in
     let onSent := OnSent_disembargo_loopback release (Client_import (self E) imp) in
     handleDisembargo E d release s =
       (Returns None, sendMessage (plain_build echo) (Some onSent) s) /\
     ((next_alloc s).1 = Alloc_ok ->
      sendq (handleDisembargo E d release s).2 =
      sendq s ++ [mkAsyncSend (Ok echo) (Some onSent) true])) /\
  ((forall imp, ~ echoable E target s imp) ->
   (exists e, (handleDisembargo E d release s).1 = Returns (Some e)) /\
   sendq (handleDisembargo E d release s).2 = sendq s).
Proof.
  intros d. split.
  - intros imp (pa & raw & transform & ans & content & ptr & cap & -> & Hraw & Hparse
                & Hans & Hsent & Herr & Hcontent & Htrans & Hiface & Hcap).
    unfold handleDisembargo. simpl. rewrite Hraw, Hparse. simpl.
    unfold senderLoopback_target. simpl.
    rewrite Hans, Hsent, Herr, Hcontent, Htrans, Hiface. simpl.
    assert (Hlt : (N.to_nat cap < length (results_CapTable (a_results ans)))%nat)
      by (by apply lookup_lt_Some in Hcap).
    destruct (N.leb_spec (N.of_nat (length (results_CapTable (a_results ans)))) cap);
      [lia |].
    unfold Interface_Client. simpl. rewrite Hcap. simpl.
    rewrite N.eqb_refl. simpl. split; [done |].
    unfold sendMessage, next_alloc. by destruct (allocs s) as [|[|e|e] rest].
  - intros Hnot. unfold handleDisembargo. simpl.
    destruct target as [dtarget|e]; simpl; [| eauto].
    destruct dtarget as [imp_id|[pa|e]|w]; simpl; [eauto | | eauto | eauto].
    destruct (pa_Transform pa) as [raw|e] eqn:Hraw; simpl; [| eauto].
    destruct (parseTransform raw) as [transform|e] eqn:Hparse; simpl; [| eauto].
    unfold senderLoopback_target. simpl.
    destruct (answers s !! pa_QuestionId pa) as [ans|] eqn:Hans; simpl; [| eauto].
    destruct (returnSent (a_flags ans)) eqn:Hsent; simpl; [| eauto].
    destruct (a_err ans) as [e|] eqn:Herr; simpl; [eauto |].
    destruct (results_Content (a_results ans)) as [content|e] eqn:Hcontent; simpl; [| eauto].
    destruct (Transform E content transform) as [ptr [e|]] eqn:Htrans; simpl; [eauto |].
    destruct (Ptr_Interface ptr) as [valid cap] eqn:Hiface; simpl.
    destruct valid; simpl; [| eauto].
    destruct (N.leb_spec (N.of_nat (length (results_CapTable (a_results ans)))) cap)
      as [Hle|Hlt]; simpl; [eauto |].
    unfold Interface_Client. simpl.
    destruct (results_CapTable (a_results ans) !! N.to_nat cap) as [client|] eqn:Hcap;
      [| apply lookup_ge_None in Hcap; lia].
    simpl.
    destruct client as [|c imp|qc t|e|tag|inner]; simpl; eauto.
    destruct (N.eqb_spec c (self E)) as [->|Hne]; simpl; [| eauto].
    exfalso. apply (Hnot imp).
    exists pa, raw, transform, ans, content, ptr, cap. split_and!; done.
Qed.

End facts.

Import Scenario.

Lemma embargo_table_ok_fresh : embargo_table_ok fresh.
Proof.
  split_and!; [constructor | intros id Hid; by apply elem_of_nil in Hid | done].
Qed.


(** The statement of [parseReturn_embargo] for a Return whose capability
    is our export 0 and two pipelined calls on it. *)
Lemma parseReturn_embargo_witness :
  exists id client,
    (captables (recvPayload E0 c1_payload c1_conn).2 !! 9 ≫= (.!! N.to_nat 0)) = Some client /\
    let pr := (parseReturn E0 c1_return c1_called c1_conn).1 in
    let s' := (parseReturn E0 c1_return c1_called c1_conn).2 in
    pr_err pr = None /\
    (captables s' !! 9 ≫= (.!! N.to_nat 0)) = Some (Client_embargo client) /\
    findEmbargo id c1_conn = None /\
    findEmbargo id s' = Some (mkEmbargo client) /\
    mkSenderLoopback id 3 [mkOp 0 None] ∈ pr_disembargoes pr /\
    length (reaching E0 (Ptr_struct [Ptr_interface 0]) 0 (pr_disembargoes pr)) = 1%nat /\
    (forall j, (length (reaching E0 (Ptr_struct [Ptr_interface 0]) j (pr_disembargoes pr)) <= 1)%nat) /\
    NoDup (sl_id <$> pr_disembargoes pr).
Proof.
  apply (parseReturn_embargo E0 c1_return c1_payload c1_called [] [[mkOp 0 None]]
           [mkOp 0 None] (Ptr_struct [Ptr_interface 0])
           (recvPayload E0 c1_payload c1_conn).1.1.2 0 c1_conn
           (recvPayload E0 c1_payload c1_conn).2).
  - reflexivity.
  - reflexivity.
  - vm_compute. reflexivity.
  - split_and!.
    + constructor.
    + intros id Hid. by apply elem_of_nil in Hid.
    + intros id _. reflexivity.
  - reflexivity.
  - reflexivity.
  - refine (bool_decide_unpack _ _). vm_compute. exact I.
  - intros x Hx. by apply elem_of_nil in Hx.
Defined.

Example parseReturn_embargo_example :
  let pr := (parseReturn E0 c1_return c1_called c1_conn).1 in
  let s' := (parseReturn E0 c1_return c1_called c1_conn).2 in
  pr_disembargoes pr = [mkSenderLoopback 0 3 [mkOp 0 None]] /\
  captables s' !! 9 = Some [Client_embargo (Client_server 5)] /\
  embargoes s' = [Some (mkEmbargo (Client_server 5))].
Proof. vm_compute. split_and!; reflexivity. Qed.

(** The null client is none of an import, a pipeline client or an error
    client, and it is not classified local: in the table made from a
    [none] descriptor and a receiverHosted one, only index 1 is local. *)
Lemma isLocalClient_null :
  isLocalClient E0 Client_null = false /\
  Brand_Value Client_null = BV_other /\
  (recvPayload_loop E0 [CapDescriptor_none; CapDescriptor_receiverHosted 0] 0 [] ∅
     (set_exports [Some (mkExpent (Client_server 5) 1)] fresh)).1
  = ([Client_null; Client_server 5], uintSet_add ∅ 1, None).
Proof. split_and!; [reflexivity | reflexivity | vm_compute; reflexivity]. Qed.


(** The statement of [handleReturn_canceled] for the canceled question
    of the scenario. *)
Lemma handleReturn_canceled_witness :
  let qid := 0 in
  let s' := (handleReturn E0 c3_return 7 c3_conn).2 in
  let waiter := Task_awaitFinish 10 qid in
  (handleReturn E0 c3_return 7 c3_conn).1 = Returns None /\
  log s' = log c3_conn ++ [ReleaseMsg 7] /\
  sendq s' = sendq c3_conn /\ captables s' = captables c3_conn /\
  questions s' !! N.to_nat qid = Some None /\
  (q_finishMsgSend canceled_question = true ->
     goroutines s' = goroutines c3_conn /\
     questionID s' = if finishSent (q_flags canceled_question)
                     then idgen_remove qid (questionID c3_conn)
                     else questionID c3_conn) /\
  (q_finishMsgSend canceled_question = false ->
     questionID s' = questionID c3_conn /\ goroutines s' = goroutines c3_conn ++ [waiter]) /\
  (forall s2 qv2,
     heap s2 !! 10 = Some qv2 ->
     (q_finishMsgSend qv2 = false -> runTask waiter s2 = None) /\
     (q_finishMsgSend qv2 = true ->
      runTask waiter s2 =
      Some (if finishSent (q_flags qv2)
            then set_questionID (idgen_remove qid (questionID s2)) s2
            else s2))) /\
  (forall err s2 qv2,
     heap s2 !! 10 = Some qv2 -> finishSent (q_flags qv2) = false ->
     exists qv3,
       heap (runOnSent (OnSent_return_finish 10 qid) err s2) !! 10 = Some qv3 /\
       q_finishMsgSend qv3 = true /\
       (finishSent (q_flags qv3) = true <-> err = None)).
Proof.
  apply (handleReturn_canceled E0 c3_return 7 10 canceled_question c3_conn);
    reflexivity.
Defined.

(** The race of a cancel with a Return, step by step: the Return is
    consumed and the id stays taken; the waiting goroutine is blocked;
    once the Finish has been sent the id is given back. *)
Example cancel_race :
  let s1 := (handleReturn E0 c3_return 7 c3_conn).2 in
  let s2 := update_question 10 (fun q => close_finishMsgSend (set_finishSent q)) s1 in
  questionID s1 = mkIdgen 1 [] /\
  goroutines s1 = [Task_awaitFinish 10 0] /\
  runTask (Task_awaitFinish 10 0) s1 = None /\
  questionID <$> runTask (Task_awaitFinish 10 0) s2 = Some (mkIdgen 1 [0]).
Proof. vm_compute. split_and!; reflexivity. Qed.

(** The statement of [handleCall_not_caller] for a Call that asks for
    its results to be sent to [yourself]. *)
Lemma handleCall_not_caller_witness :
  let err := Errorf "incoming call: results destination is not caller" [] None in
  let s' := (handleCall E0 c7_call 1 fresh).2 in
  (handleCall E0 c7_call 1 fresh).1 = Returns None /\
  s' = sendMessage (unimplemented_call c7_call 1) (Some OnSent_call_unimplemented)
         (report err fresh) /\
  answers s' = answers fresh /\
  closing s' = closing fresh /\ bgctx_done s' = bgctx_done fresh /\
  (exists evs, log s' = log fresh ++ ReportError err :: evs) /\
  (exists job, sendq s' = sendq fresh ++ [job] /\
               as_onSent job = Some OnSent_call_unimplemented /\
               ((next_alloc fresh).1 = Alloc_ok ->
                as_send job = Ok (Out_unimplemented_call c7_call))) /\
  (bgctx_done fresh = false ->
   forall rest,
     receive E0 (mkIncoming (Message_call (Ok c7_call)) 1 None :: rest) fresh =
     receive E0 rest s').
Proof.
  apply (handleCall_not_caller E0 c7_call 1 fresh). discriminate.
Defined.



(** The statement of [Close_idempotent] for a connection with a running
    answer, a queued message and an export. *)
Lemma Close_idempotent_witness :
  let s1 := (Close false c5_conn).2 in
  (exists err, (Close false c5_conn).1 = Shutdown_returns err) /\
  closing s1 = true /\ bgctx_done s1 = true /\ closed s1 = true /\ sendq s1 = [] /\
  questions s1 = [] /\ answers s1 = ∅ /\ exports s1 = [] /\ imports s1 = ∅ /\
  embargoes s1 = [] /\
  (forall id a, answers c5_conn !! id = Some a -> a_cancel a = true ->
                AnswerCancel id ∈ log s1) /\
  (exists new,
     log s1 = log c5_conn ++ new /\
     count is_Bgcancel new = 1%nat /\ (count is_abort new <= 1)%nat /\
     count is_Transport_Close new = 1%nat /\ count is_Close_closed new = 1%nat) /\
  Close true s1 = (Shutdown_returns None, s1) /\
  (forall s', closing s' = true ->
     (Close true s').2 = s' /\ (closed s' = false -> (Close true s').1 = Shutdown_waits)).
Proof.
  apply (Close_idempotent false true c5_conn). reflexivity.
Defined.

Example Close_log :
  log (Close false c5_conn).2 =
  [Bgcancel; AnswerCancel 3; Tasks_Wait;
   OnSent_called 1 (Some (Disconnected ErrConnClosed)); OutMsg_Release;
   ClearExportID (Client_server 5);
   Client_Release Client_null; Client_Release (Client_server 5); MsgReleaser_Decr 3;
   Transport_Send (Out_abort (Failed ErrConnClosed)); OutMsg_Release;
   Transport_Close; Close_closed].
Proof. vm_compute. reflexivity. Qed.

(** The statement of [handleFinish_rejects] for a Finish that names an
    answer a fresh connection does not have. *)
Lemma handleFinish_rejects_witness :
  let e := finish_error 3 fresh in
  let s0 := emit (ReleaseMsg 7) fresh in
  let s' := monitor false (backgroundTask (Some e)) s0 in
  handleFinish E0 3 false fresh = (Returns (Some e), fresh) /\
  receive E0 (mkIncoming (Message_finish (Ok (mkFinish 3 false))) 7 None :: []) fresh
    = (Received (Returns (Some e)), s0) /\
  answers s0 = answers fresh /\
  closing s' = true /\ closed s' = true /\ answers s' = ∅ /\
  ReportError e ∈ log s' /\
  (allocs fresh = [] -> Transport_Send (Out_abort e) ∈ log s').
Proof.
  apply (handleFinish_rejects E0 3 false 7 [] false fresh);
    [left; reflexivity | reflexivity | reflexivity].
Defined.

(** A second Finish for the same answer. *)
Example duplicate_finish :
  let s := set_answers {[ 3 := new_answer ]} fresh in
  let s1 := (handleFinish E0 3 false s).2 in
  (handleFinish E0 3 false s).1 = Returns None /\
  handleFinish E0 3 false s1 =
    (Returns (Some (Failedf "incoming finish: answer ID %d already received finish" [3] None)),
     s1).
Proof. vm_compute. split; reflexivity. Qed.

Example senderLoopback_echo :
  let r := handleDisembargo E0 (mkDisembargo (c4_target 2) (Disembargo_senderLoopback 6))
             9 c4_conn in
  r.1 = Returns None /\
  sendq r.2 =
    [mkAsyncSend (Ok (Out_disembargo (OutTarget_importedCap 8) (Disembargo_receiverLoopback 6)))
                 (Some (OnSent_disembargo_loopback 9 (Client_import 1 8))) true].
Proof. vm_compute. split; reflexivity. Qed.

Example senderLoopback_unknown_answer :
  let r := handleDisembargo E0 (mkDisembargo (c4_target 5) (Disembargo_senderLoopback 6))
             9 c4_conn in
  r.1 = Returns (Some (Failedf "incoming disembargo: unknown answer ID %d" [5] None)) /\
  sendq r.2 = [].
Proof. vm_compute. split; reflexivity. Qed.

(** A Return with a pipelined capability of ours, from its arrival to
    the lifting of the embargo: the goroutine of [handleReturn] queues the
    senderLoopback Disembargo and the Finish; the receiverLoopback that
    answers it lifts the embargo and gives the id back. *)
Example embargo_round_trip :
  let s0 := set_heap {[ 10 := mkQuestion 3 (mkQFlags false false) c1_called false false None ]}
              (set_questions [None; None; None; Some 10] c1_conn) in
  let s1 := (handleReturn E0 c1_return 9 s0).2 in
  exists s2,
    runTask (Task_resolve 10 3 (parseReturn E0 c1_return c1_called s0).1 9) s1 = Some s2 /\
    as_send <$> sendq s2 =
      [Ok (Out_disembargo (OutTarget_promisedAnswer 3 [mkOp 0 None])
             (Disembargo_senderLoopback 0));
       Ok (Out_finish 3 false)] /\
    let lift := mkDisembargo (Ok (MessageTarget_importedCap 0))
                             (Disembargo_receiverLoopback 0) in
    let r := handleDisembargo E0 lift 11 s2 in
    r.1 = Returns None /\
    embargoes r.2 = [None] /\ embargoID r.2 = mkIdgen 1 [0] /\
    log r.2 = [Client_AddRef (Client_server 5);
               Promise_Resolve 10 (Ptr_struct [Ptr_interface 0]) None;
               Embargo_lift (Client_server 5); ReleaseMsg 11].
Proof. eexists. vm_compute. split_and!; reflexivity. Qed.

End RpcFacts.

(* ===================================================================== *)
(** * Part V: the order of the method table *)
(* ===================================================================== *)

Module ServerOrder.
Import Server ServerFacts.

Local Open Scope nat_scope.

#[local] Existing Instance notAfter_trans.
#[local] Existing Instance notAfter_total.

Lemma Less_true_iff (a b : Method) :
  Less a b = true <->
  (InterfaceID a < InterfaceID b)%N \/
  (InterfaceID a = InterfaceID b /\ (MethodID a < MethodID b)%N).
Proof.
  unfold Less.
  destruct (N.eqb_spec (InterfaceID a) (InterfaceID b)) as [e|ne]; simpl;
    rewrite N.ltb_lt; lia.
Qed.

(** X1. [sortedMethods.Less] is a strict order on the pair (InterfaceID,
    MethodID), as [sort.Sort] requires of a [Less]: it is irreflexive,
    transitive and asymmetric, and two methods neither of which is less
    than the other have the same InterfaceID and the same MethodID. *)
Theorem Less_strict_order :
  (forall a, Less a a = false) /\
  (forall a b c, Less a b = true -> Less b c = true -> Less a c = true) /\
  (forall a b, Less a b = true -> Less b a = false) /\
  (forall a b, Less a b = false -> Less b a = false ->
               InterfaceID a = InterfaceID b /\ MethodID a = MethodID b).
Proof.
  split_and!.
  - intros a. apply Less_false_iff. lia.
  - intros a b c. rewrite !Less_true_iff. lia.
  - intros a b. rewrite Less_true_iff, Less_false_iff. lia.
  - intros a b. rewrite !Less_false_iff. lia.
Qed.

(** The monotonicity of the closure of [find] over a sorted table. *)
Lemma find_pred_mono (sm : list Method) (id : MethodKey) :
  StronglySorted notAfter sm ->
  forall a b, a <= b -> b < length sm ->
    match sm !! a with Some m => find_pred id m | None => false end = true ->
    match sm !! b with Some m => find_pred id m | None => false end = true.
Proof.
  intros Hsorted a b Hab Hb.
  destruct (sm !! a) as [ma|] eqn:Ha; [| discriminate].
  destruct (lookup_lt_is_Some_2 sm b Hb) as [mb Hmb]. rewrite Hmb.
  destruct (decide (a = b)) as [->|Hne]; [congruence |].
  assert (notAfter ma mb) as Hord
    by (apply (sorted_lookup_ord sm a b); auto; lia).
  unfold notAfter in Hord. rewrite Less_false_iff in Hord.
  rewrite !find_pred_iff. lia.
Qed.

(** X2. When [find] returns a method of the table [server.New] made, it is
    the first entry of the table with those ids: it stands at some index,
    and every entry before it has a smaller (InterfaceID, MethodID). *)
Theorem find_New_first (ms : list Method) (id : MethodKey) :
  match find (methods (New ms)) id with
  | Some m =>
      exists i, methods (New ms) !! i = Some m /\
                forall j m', j < i -> methods (New ms) !! j = Some m' ->
                  (InterfaceID m' < kInterfaceID id)%N \/
                  (InterfaceID m' = kInterfaceID id /\ (MethodID m' < kMethodID id)%N)
  | None => True
  end.
Proof.
  assert (Hsorted : StronglySorted notAfter (methods (New ms)))
    by (apply StronglySorted_merge_sort; apply _).
  set (sm := methods (New ms)) in *. clearbody sm.
  unfold find.
  set (f := fun i => match sm !! i with Some m => find_pred id m | None => false end).
  destruct (Search_spec f (length sm) (find_pred_mono sm id Hsorted)) as (Hle & Hlo & _).
  set (r := Search (length sm) f) in *.
  destruct (Nat.eqb_spec r (length sm)); [done |].
  destruct (sm !! r) as [m|] eqn:Hm; [| done].
  destruct (negb _ || negb _); [done |].
  exists r. split; [done |]. intros j m' Hj Hm'.
  specialize (Hlo j Hj). unfold f in Hlo. rewrite Hm' in Hlo.
  destruct (find_pred id m') eqn:Hp; [discriminate |].
  assert (~ ((kInterfaceID id < InterfaceID m')%N \/
             (kInterfaceID id = InterfaceID m' /\ (kMethodID id <= MethodID m')%N))) as Hn.
  { rewrite <- find_pred_iff. congruence. }
  lia.
Qed.

Lemma NoDup_fmap_eq {A B} (f : A -> B) (l : list A) (x y : A) :
  NoDup (f <$> l) -> x ∈ l -> y ∈ l -> f x = f y -> x = y.
Proof.
  induction l as [|a l IH]; intros Hnd Hx Hy Hf; [by apply elem_of_nil in Hx |].
  rewrite fmap_cons in Hnd. apply NoDup_cons in Hnd as [Hnotin Hnd].
  apply elem_of_cons in Hx as [->|Hx]; apply elem_of_cons in Hy as [->|Hy]; auto.
  - exfalso. apply Hnotin. rewrite Hf. by apply list_elem_of_fmap_2.
  - exfalso. apply Hnotin. rewrite <- Hf. by apply list_elem_of_fmap_2.
Qed.

(** X3. When no two methods given to [server.New] have the same
    (InterfaceID, MethodID), [find id] returns exactly the method of the
    list with the ids of [id]. *)
Theorem find_New_unique (ms : list Method) (id : MethodKey) (m : Method) :
  NoDup (key <$> ms) ->
  find (methods (New ms)) id = Some m <-> m ∈ ms /\ matches id m.
Proof.
  intros Hnd. pose proof (find_New ms id) as H.
  destruct (find (methods (New ms)) id) as [m'|].
  - destruct H as [Hin Hm']. split.
    + intros [= <-]. done.
    + intros [Hin2 Hm]. f_equal.
      apply (NoDup_fmap_eq key ms m' m Hnd Hin Hin2).
      unfold key. destruct Hm as [-> ->], Hm' as [-> ->]. done.
  - split; [discriminate |]. intros [Hin Hm]. by destruct (H m Hin).
Qed.

Lemma find_New_unique_witness :
  find (methods (New [mkMethod 7 2 0 0; mkMethod 3 9 1 0; mkMethod 7 1 2 0]))
       (mkKey 7 1) = Some (mkMethod 7 1 2 0) <->
  mkMethod 7 1 2 0 ∈ [mkMethod 7 2 0 0; mkMethod 3 9 1 0; mkMethod 7 1 2 0] /\
  matches (mkKey 7 1) (mkMethod 7 1 2 0).
Proof.
  apply (find_New_unique [mkMethod 7 2 0 0; mkMethod 3 9 1 0; mkMethod 7 1 2 0]
           (mkKey 7 1) (mkMethod 7 1 2 0)).
  refine (bool_decide_unpack _ _). vm_compute. exact I.
Defined.

End ServerOrder.

(* ===================================================================== *)
(** * Part VI: parsing, the handlers, the send queue and shutdown *)
(* ===================================================================== *)

Module RpcProperties.
Import Rpc RpcFacts.

Lemma parseTransform_loop_spec (opList : list PromisedAnswer_Op) :
  forall i ops,
    match parseTransform_loop i opList ops with
    | Ok ops' => Forall known_op opList /\ ops' = ops ++ pointer_fields opList
    | Err e =>
        exists pre w rest,
          opList = pre ++ Op_other w :: rest /\ Forall known_op pre /\
          e = Failedf "transform element %d: unknown type %v"
                [i + N.of_nat (length pre); w] None
    end.
Proof.
  induction opList as [|op rest IH]; intros i ops; simpl.
  - split; [constructor | by rewrite app_nil_r].
  - destruct op as [|f|w].
    + specialize (IH (i + 1) ops).
      destruct (parseTransform_loop (i + 1) rest ops) as [ops'|e].
      * destruct IH as [Hall ->]. split; [by constructor | done].
      * destruct IH as (pre & w & post & -> & Hall & ->).
        exists (Op_noop :: pre), w, post. split_and!; [done | by constructor |].
        rewrite length_cons, Nat2N.inj_succ. do 2 f_equal. lia.
    + specialize (IH (i + 1) (ops ++ [mkOp f None])).
      destruct (parseTransform_loop (i + 1) rest _) as [ops'|e].
      * destruct IH as [Hall ->]. split; [by constructor |].
        unfold pointer_fields. simpl. by rewrite <- app_assoc.
      * destruct IH as (pre & w & post & -> & Hall & ->).
        exists (Op_getPointerField f :: pre), w, post.
        split_and!; [done | by constructor |].
        rewrite length_cons, Nat2N.inj_succ. do 2 f_equal. lia.
    + exists [], w, rest. split_and!; [done | constructor |].
      simpl. by rewrite N.add_0_r.
Qed.

(** X4. [parseTransform] succeeds exactly on the lists that hold only
    noop and getPointerField operations, and then returns the
    getPointerField operations in order, the noops dropped; otherwise its
    error names the index and the kind of the first operation it does not
    know, and nothing after that operation is looked at. *)
Theorem parseTransform_spec (opList : list PromisedAnswer_Op) :
  match parseTransform opList with
  | Ok ops => Forall known_op opList /\ ops = pointer_fields opList
  | Err e =>
      exists pre w rest,
        opList = pre ++ Op_other w :: rest /\ Forall known_op pre /\
        e = Failedf "transform element %d: unknown type %v" [N.of_nat (length pre); w] None
  end.
Proof.
  unfold parseTransform. pose proof (parseTransform_loop_spec opList 0 []) as H.
  destruct (parseTransform_loop 0 opList []); exact H.
Qed.

Lemma parse_frame_refl s : parse_frame s s.
Proof. by split_and!. Qed.

Lemma parse_frame_trans s1 s2 s3 :
  parse_frame s1 s2 -> parse_frame s2 s3 -> parse_frame s1 s3.
Proof.
  unfold parse_frame. intros H1 H2.
  destruct H1 as (?&?&?&?&?&?&?&?&?&?&?&?&?&?), H2 as (?&?&?&?&?&?&?&?&?&?&?&?&?&?).
  split_and!; congruence.
Qed.

Section facts.
Context (E : Env).

Lemma recvCap_parse_frame (d : CapDescriptor) (s : Conn) :
  parse_frame s (recvCap E d s).2.
Proof.
  destruct d as [|id|id|id|[pa|e]|w]; simpl; try apply parse_frame_refl;
    try (by split_and!).
  - destruct (findExport id s); simpl; by split_and!.
  - destruct (pa_Transform pa) as [raw|e]; simpl; [| apply parse_frame_refl].
    destruct (parseTransform raw) as [t|e]; simpl; [| apply parse_frame_refl].
    destruct (answers s !! pa_QuestionId pa) as [ans|]; simpl; [| apply parse_frame_refl].
    unfold recvCapReceiverAnswer.
    destruct (a_promise ans); simpl; [by split_and! |].
    destruct (a_err ans); simpl; [apply parse_frame_refl |].
    destruct (results_Content (a_results ans)) as [content|e]; simpl;
      [| apply parse_frame_refl].
    destruct (Transform E content t) as [ptr [e|]]; simpl; [apply parse_frame_refl |].
    destruct (negb _); simpl; by split_and!.
Qed.

Lemma recvCap_fails (d : CapDescriptor) (s s' : Conn) (client : Client) (e : error) :
  recvCap E d s = ((client, Some e), s') -> client = Client_null /\ s' = s.
Proof.
  intros Hd. destruct d as [|id|id|id|[pa|e0]|w]; simpl in Hd; try discriminate.
  - destruct (findExport id s); [discriminate | by injection Hd as <- _ <-].
  - destruct (pa_Transform pa) as [raw|e0]; [| by injection Hd as <- _ <-].
    destruct (parseTransform raw) as [t|e0]; [| by injection Hd as <- _ <-].
    destruct (answers s !! pa_QuestionId pa) as [ans|]; [| by injection Hd as <- _ <-].
    destruct (recvCapReceiverAnswer E ans t s). discriminate.
  - by injection Hd as <- _ <-.
Qed.

(** X5. When [recvCap] returns an error, the client it returns is the
    null client and the connection is as it was: no import was added and
    no reference taken.  When it succeeds, it changes at most the
    imports and the log of the connection. *)
Theorem recvCap_error_unchanged (d : CapDescriptor) (s : Conn) :
  match recvCap E d s with
  | ((client, Some _), s') => client = Client_null /\ s' = s
  | ((_, None), s') => parse_frame s s' /\ walk_frame s s'
  end.
Proof.
  pose proof (recvCap_frame E d s) as Hframe.
  pose proof (recvCap_parse_frame d s) as Hparse.
  destruct (recvCap E d s) as [[client [e|]] s'] eqn:Hd; [| done].
  by apply (recvCap_fails d s s' client e).
Qed.

Lemma recvPayload_loop_parse_frame (ptab : list CapDescriptor) :
  forall i mtab locals s, parse_frame s (recvPayload_loop E ptab i mtab locals s).2.
Proof.
  induction ptab as [|d rest IH]; intros i mtab locals s; simpl.
  - apply parse_frame_refl.
  - pose proof (recvCap_parse_frame d s) as Hd.
    destruct (recvCap E d s) as [[client [e|]] s1]; simpl in *.
    + eapply parse_frame_trans; [exact Hd | by split_and!].
    + eapply parse_frame_trans; [exact Hd | apply IH].
Qed.

Lemma recvPayload_parse_frame (payload : Payload) (s : Conn) :
  parse_frame s (recvPayload E payload s).2.
Proof.
  unfold recvPayload.
  destruct (payload_IsValid payload); simpl; [| apply parse_frame_refl].
  destruct (captables s !! payload_msg payload); simpl; [apply parse_frame_refl |].
  destruct (payload_Content payload) as [p|e]; simpl; [| apply parse_frame_refl].
  destruct (payload_CapTable payload) as [ptab|e]; simpl; [| by split_and!].
  pose proof (recvPayload_loop_parse_frame ptab 0 [] ∅ s) as Hl.
  destruct (recvPayload_loop E ptab 0 [] ∅ s) as [[[mtab locals] [e|]] s1]; simpl in *;
    [done |].
  eapply parse_frame_trans; [exact Hl | by split_and!].
Qed.

(** The walk of a payload up to the descriptor it fails on. *)
Lemma recvPayload_loop_failure (ptab : list CapDescriptor) :
  forall i mtab locals s mtab' locals' e s',
    recvPayload_loop E ptab i mtab locals s = ((mtab', locals', Some e), s') ->
    exists pre d post s_mid cause,
      ptab = pre ++ d :: post /\
      recvPayload_loop E pre i mtab locals s = ((mtab', locals', None), s_mid) /\
      recvCap E d s_mid = ((Client_null, Some cause), s_mid) /\
      e = Annotate cause "read payload: capability %d" [i + N.of_nat (length pre)] /\
      s' = emit_all (Client_Release <$> mtab') s_mid /\
      length mtab' = (length mtab + length pre)%nat.
Proof.
  induction ptab as [|d rest IH]; intros i mtab locals s mtab' locals' e s' Hrun;
    simpl in Hrun; [discriminate |].
  pose proof (recvCap_frame E d s) as Hframe.
  destruct (recvCap E d s) as [[client [cause|]] s1] eqn:Hd.
  - injection Hrun as <- <- <- <-.
    destruct (recvCap_fails d s s1 client cause Hd) as [-> ->].
    exists [], d, rest, s, cause. simpl. rewrite N.add_0_r.
    split_and!; try done; lia.
  - destruct (IH _ _ _ _ _ _ _ _ Hrun)
      as (pre & d' & post & s_mid & cause & -> & Hpre & Hfail & -> & -> & Hlen).
    exists (d :: pre), d', post, s_mid, cause. simpl. rewrite Hd.
    split_and!; try done.
    + do 2 f_equal.
      change (length (d :: pre)) with (S (length pre)). rewrite Nat2N.inj_succ. lia.
    + rewrite Hlen, length_app. simpl. lia.
Qed.

(** A failed [recvPayload] leaves the capability tables and the
    embargoes as they were. *)
Lemma recvPayload_fails_frame (payload : Payload) (s s' : Conn) (p : Ptr)
    (locals : gset N) (e : error) :
  recvPayload E payload s = ((p, locals, Some e), s') ->
  captables s' = captables s /\ embargoes s' = embargoes s /\
  embargoID s' = embargoID s.
Proof.
  unfold recvPayload. intros Hrun.
  destruct (payload_IsValid payload); simpl in Hrun; [| discriminate].
  destruct (captables s !! payload_msg payload);
    [by injection Hrun as _ _ _ <- |].
  destruct (payload_Content payload) as [p0|e0]; [| by injection Hrun as _ _ _ <-].
  destruct (payload_CapTable payload) as [ptab|e0]; [| discriminate].
  pose proof (recvPayload_loop_frame E ptab 0 [] ∅ s) as Hframe.
  destruct (recvPayload_loop E ptab 0 [] ∅ s) as [[[mtab l] [e1|]] s1]; [| discriminate].
  injection Hrun as _ _ _ <-. simpl in Hframe.
  destruct Hframe as (He & Hg & _ & _ & Hcap & _). done.
Qed.

(** X6. When [recvPayload] returns an error it returns the null pointer
    and no local index, and the capability tables of the messages are as
    they were (the table of the payload's message stays nil).  Either
    nothing else happened, or the walk over the descriptors failed at
    some descriptor: the descriptors before it were received, the error
    names its index, and exactly the clients made for the descriptors
    before it were released, in order. *)
Theorem recvPayload_failure (payload : Payload) (s s' : Conn) (p : Ptr)
    (locals : gset N) (e : error) :
  recvPayload E payload s = ((p, locals, Some e), s') ->
  p = Ptr_null /\ locals = ∅ /\ captables s' = captables s /\
  (s' = s \/
   exists ptab pre d post mtab l s_mid cause,
     payload_CapTable payload = Ok ptab /\ ptab = pre ++ d :: post /\
     recvPayload_loop E pre 0 [] ∅ s = ((mtab, l, None), s_mid) /\
     length mtab = length pre /\
     recvCap E d s_mid = ((Client_null, Some cause), s_mid) /\
     e = Annotate cause "read payload: capability %d" [N.of_nat (length pre)] /\
     s' = emit_all (Client_Release <$> mtab) s_mid).
Proof.
  unfold recvPayload. intros Hrun.
  destruct (payload_IsValid payload); simpl in Hrun; [| discriminate].
  destruct (captables s !! payload_msg payload);
    [injection Hrun as <- <- _ <-; split_and!; auto |].
  destruct (payload_Content payload) as [p0|e0];
    [| injection Hrun as <- <- _ <-; split_and!; auto].
  destruct (payload_CapTable payload) as [ptab|e0]; [| discriminate].
  pose proof (recvPayload_loop_frame E ptab 0 [] ∅ s) as Hframe.
  destruct (recvPayload_loop E ptab 0 [] ∅ s) as [[[mtab l] [e1|]] s1] eqn:Hloop;
    [| discriminate].
  injection Hrun as <- <- <- <-. simpl in Hframe.
  destruct Hframe as (_ & _ & _ & _ & Hcap & _).
  split_and!; auto. right.
  destruct (recvPayload_loop_failure _ _ _ _ _ _ _ _ _ Hloop)
    as (pre & d & post & s_mid & cause & -> & Hpre & Hfail & -> & -> & Hlen).
  exists (pre ++ d :: post), pre, d, post, mtab, l, s_mid, cause.
  split_and!; auto.
Qed.

(** X7. After [recvPayload] has received a valid payload whose capability
    table can be read, the message holds a capability table with one
    client for each descriptor, and [locals] holds exactly the indices of
    the clients that [isLocalClient] classifies as local; a second
    [recvPayload] on a valid payload of the same message then fails with
    [ErrCapTablePopulated] and changes nothing. *)
Theorem recvPayload_once (payload payload2 : Payload) (ptab : list CapDescriptor)
    (p : Ptr) (locals : gset N) (s s1 : Conn) :
  payload_IsValid payload = true ->
  payload_CapTable payload = Ok ptab ->
  recvPayload E payload s = ((p, locals, None), s1) ->
  (exists mtab, captables s1 !! payload_msg payload = Some mtab /\
                length mtab = length ptab /\
                forall j, j ∈ locals <->
                  exists client, mtab !! N.to_nat j = Some client /\
                                 isLocalClient E client = true) /\
  (payload_IsValid payload2 = true ->
   payload_msg payload2 = payload_msg payload ->
   recvPayload E payload2 s1 =
   ((Ptr_null, ∅, Some (Failedf "read payload: %w" [] (Some ErrCapTablePopulated))), s1)).
Proof.
  intros Hvalid Htab Hrun. unfold recvPayload in Hrun.
  rewrite Hvalid, Htab in Hrun. simpl in Hrun.
  destruct (captables s !! payload_msg payload); [discriminate |].
  destruct (payload_Content payload) as [p0|e0]; [| discriminate].
  pose proof (recvPayload_loop_locals E ptab 0 [] ∅ s eq_refl) as Hloc.
  destruct (recvPayload_loop E ptab 0 [] ∅ s) as [[[mtab l] [e1|]] s2]; [discriminate |].
  injection Hrun as <- <- <-.
  destruct Hloc as [Hlen Hiff].
  { intros j. split; [set_solver |]. intros (c & Hc & _). by rewrite lookup_nil in Hc. }
  assert (Hlk : captables (set_captables (<[payload_msg payload:=mtab]> (captables s2)) s2)
                  !! payload_msg payload = Some mtab) by apply lookup_insert_eq.
  split; [exists mtab; split_and!; [exact Hlk | exact Hlen | exact Hiff] |].
  intros Hvalid2 Hmsg. unfold recvPayload. rewrite Hvalid2, Hmsg. simpl.
  by rewrite lookup_insert_eq.
Qed.

End facts.

Section facts.
Context (E : Env).

Lemma Conn_embargo_parse_frame (client : Client) (s : Conn) :
  parse_frame s (Conn_embargo client s).2 /\
  captables (Conn_embargo client s).2 = captables s /\
  imports (Conn_embargo client s).2 = imports s /\
  log (Conn_embargo client s).2 = log s.
Proof.
  unfold Conn_embargo. destruct (idgen_next (embargoID s)) as [id g]. simpl.
  split; [by split_and! | done].
Qed.

(** What the loop of [parseReturn] does, whatever the state of the
    embargo table: only paths to local capabilities of the table are
    embargoed, and an entry is wrapped once. *)
Lemma parseReturn_loop_only q content locals (called : list (list PipelineOp)) :
  forall mtab ec dis s mtab' ec' dis' s',
    parseReturn_loop E q content locals called mtab ec dis s = ((mtab', ec', dis'), s') ->
    exists new,
      dis' = dis ++ new /\
      length mtab' = length mtab /\
      ec ⊆ ec' /\
      (length new <= length called)%nat /\
      (forall sl, sl ∈ new ->
         sl_question sl = q /\ sl_transform sl ∈ called /\
         exists i, reaches E content (sl_transform sl) i = true /\ i ∈ ec' /\ i ∉ ec) /\
      (forall j, j ∈ ec' -> j ∉ ec ->
         j ∈ locals /\ (exists x, x ∈ called /\ reaches E content x j = true) /\
         exists c, mtab !! N.to_nat j = Some c /\
                   mtab' !! N.to_nat j = Some (Client_embargo c)) /\
      (forall k, N.of_nat k ∉ ec' -> mtab' !! k = mtab !! k) /\
      (forall j, j ∈ ec -> mtab' !! N.to_nat j = mtab !! N.to_nat j) /\
      parse_frame s s' /\ captables s' = captables s /\ imports s' = imports s /\
      log s' = log s.
Proof.
  induction called as [|xform rest IH]; intros mtab ec dis s mtab' ec' dis' s' Hrun;
    simpl in Hrun.
  - injection Hrun as <- <- <- <-. exists []. rewrite app_nil_r.
    split_and!; first [done | (intros sl Hsl; by apply elem_of_nil in Hsl)
                      | apply parse_frame_refl].
  - destruct (embargo_candidate E content locals ec mtab xform) as [i|] eqn:Hcand.
    + apply embargo_candidate_Some in Hcand as (Hreach & Hlt & Hloc & Hnot).
      destruct (lookup_lt_is_Some_2 mtab _ Hlt) as [c0 Hc0].
      rewrite Hc0 in Hrun. simpl in Hrun.
      pose proof (Conn_embargo_parse_frame c0 s) as Hemb.
      assert (Hw : (Conn_embargo c0 s).1.2 = Client_embargo c0).
      { unfold Conn_embargo. by destruct (idgen_next (embargoID s)). }
      destruct (Conn_embargo c0 s) as [[id wrapped] s1]. simpl in Hemb, Hw. subst wrapped.
      destruct Hemb as (Hf1 & Hcap1 & Himp1 & Hlog1).
      destruct (IH _ _ _ _ _ _ _ _ Hrun)
        as (new & -> & Hlen & Hsub & Hcnt & Hnew & Hec & Hout & Hkeep & Hf & Hcap & Himp & Hlog).
      exists (mkSenderLoopback id q xform :: new).
      assert (Hin_i : i ∈ uintSet_add ec i) by (unfold uintSet_add; set_solver).
      split_and!.
      * by rewrite <- app_assoc.
      * rewrite Hlen. apply length_insert.
      * unfold uintSet_add in Hsub. set_solver.
      * simpl. lia.
      * intros sl Hsl. apply elem_of_cons in Hsl as [->|Hin].
        -- simpl. split_and!; [done | left |]. exists i. split_and!; auto.
        -- destruct (Hnew sl Hin) as (? & ? & j & Hj & Hjin & Hjn).
           split_and!; [done | by right |].
           exists j. split_and!; auto. unfold uintSet_add in Hjn. set_solver.
      * intros j Hj Hnj. destruct (decide (j = i)) as [->|Hne].
        -- split_and!; [done | exists xform; split; [left | done] |].
           exists c0. split; [done |].
           rewrite (Hkeep i Hin_i). by rewrite list_lookup_insert_eq.
        -- destruct (Hec j Hj) as (Hl & (x & Hx & Hrx) & c & Hc & Hc').
           { unfold uintSet_add. set_solver. }
           split_and!; [done | exists x; split; [by right | done] |].
           exists c. split; [| done].
           rewrite list_lookup_insert_ne in Hc; [done |].
           intros Heq. apply N2Nat.inj in Heq. congruence.
      * intros k Hk. rewrite (Hout k Hk).
        apply list_lookup_insert_ne. intros <-. apply Hk. rewrite N2Nat.id. by apply Hsub.
      * intros j Hj. rewrite Hkeep by (unfold uintSet_add; set_solver).
        apply list_lookup_insert_ne. intros Heq.
        apply N2Nat.inj in Heq. congruence.
      * eapply parse_frame_trans; eassumption.
      * congruence.
      * congruence.
      * congruence.
    + destruct (IH _ _ _ _ _ _ _ _ Hrun)
        as (new & -> & Hlen & Hsub & Hcnt & Hnew & Hec & Hout & Hkeep & Hf & Hcap & Himp & Hlog).
      exists new. split_and!; auto.
      * simpl. lia.
      * intros sl Hsl. destruct (Hnew sl Hsl) as (? & ? & ?).
        split_and!; auto. by right.
      * intros j Hj Hnj. destruct (Hec j Hj Hnj) as (? & (x & Hx & Hrx) & ?).
        split_and!; auto. exists x. split; [by right | done].
Qed.

(** X8. For a Return with results whose payload was received: every
    Disembargo [parseReturn] asks for names the question and a path of
    [called], and that path leads to an entry of the message's
    capability table that was classified local and now holds the
    embargoing wrapper of the client that was there.  Every other entry
    is as [recvPayload] left it: an entry is wrapped only if it is local
    and some path of [called] reaches it.  There are at most as many
    Disembargo requests as paths. *)
Theorem parseReturn_only_locals (ret : Return) (r : Payload)
    (called : list (list PipelineOp)) (content : Ptr) (locals : gset N)
    (mtab : list Client) (s s1 : Conn) :
  ret_Which ret = Return_results (Ok r) ->
  payload_msg r = ret_msg ret ->
  recvPayload E r s = ((content, locals, None), s1) ->
  captables s1 !! ret_msg ret = Some mtab ->
  let pr := (parseReturn E ret called s).1 in
  let s' := (parseReturn E ret called s).2 in
  exists mtab',
    captables s' !! ret_msg ret = Some mtab' /\
    length mtab' = length mtab /\
    (length (pr_disembargoes pr) <= length called)%nat /\
    (forall sl, sl ∈ pr_disembargoes pr ->
       sl_question sl = ret_AnswerId ret /\ sl_transform sl ∈ called /\
       exists i client,
         reaches E content (sl_transform sl) i = true /\
         mtab !! N.to_nat i = Some client /\ isLocalClient E client = true /\
         mtab' !! N.to_nat i = Some (Client_embargo client)) /\
    (forall k c, mtab !! k = Some c ->
       mtab' !! k = Some c \/
       (mtab' !! k = Some (Client_embargo c) /\ isLocalClient E c = true /\
        exists x, x ∈ called /\ reaches E content x (N.of_nat k) = true)).
Proof.
  intros Hwhich Hmsg Hrecv Htab pr s'. subst pr s'.
  destruct (recvPayload_ok E r s s1 content locals Hrecv) as (_ & _ & Hlocals).
  set (q := ret_AnswerId ret).
  assert (Hpr : parseReturn E ret called s =
            match parseReturn_loop E q content locals called mtab ∅ [] s1 with
            | ((mtab', _, dis), s') =>
                (mkParsedReturn content dis None false false,
                 set_captables (<[ret_msg ret := mtab']> (captables s')) s')
            end).
  { unfold parseReturn. rewrite Hwhich, Hrecv. cbn beta iota. rewrite Htab.
    fold q. by destruct (parseReturn_loop E q content locals _ mtab ∅ [] s1) as [[[? ?] ?] ?]. }
  rewrite Hpr. clear Hpr.
  destruct (parseReturn_loop E q content locals called mtab ∅ [] s1)
    as [[[mtab' ec'] dis'] s2] eqn:Hloop.
  destruct (parseReturn_loop_only _ _ _ _ _ _ _ _ _ _ _ _ Hloop)
    as (new & Hdis & Hlen & _ & Hcnt & Hnew & Hec & Hout & _).
  simpl in Hdis. subst dis'. simpl.
  assert (Hlocal : forall j c, j ∈ locals -> mtab !! N.to_nat j = Some c ->
                               isLocalClient E c = true).
  { intros j c Hj Hc. destruct (Hlocals j Hj) as (mtab0 & c' & Ht0 & Hc' & Hl).
    rewrite Hmsg, Htab in Ht0. injection Ht0 as <-. congruence. }
  exists mtab'. split_and!; auto.
  - apply lookup_insert_eq.
  - intros sl Hsl. destruct (Hnew sl Hsl) as (Hq & Hx & i & Hreach & Hin & Hnot).
    destruct (Hec i Hin Hnot) as (Hl & _ & c & Hc & Hc').
    split_and!; auto. exists i, c. split_and!; eauto.
  - intros k c Hk. destruct (decide (N.of_nat k ∈ ec')) as [Hin|Hnin].
    + right. destruct (Hec _ Hin ltac:(set_solver)) as (Hl & Hx & c' & Hc & Hc').
      rewrite Nat2N.id in Hc, Hc'. rewrite Hk in Hc. injection Hc as <-.
      split_and!; auto. apply (Hlocal (N.of_nat k)); [done | by rewrite Nat2N.id].
    + left. by rewrite Hout.
Qed.

Lemma parseReturn_parse_frame (ret : Return) (called : list (list PipelineOp)) (s : Conn) :
  parse_frame s (parseReturn E ret called s).2.
Proof.
  unfold parseReturn.
  destruct (ret_Which ret) as [[r|e]|[e|e]|w]; simpl; try apply parse_frame_refl.
  - pose proof (recvPayload_parse_frame E r s) as Hr.
    destruct (recvPayload E r s) as [[[content locals] [e|]] s1]; simpl in *; [done |].
    destruct (captables s1 !! ret_msg ret) as [mtab|].
    + destruct (parseReturn_loop E _ content locals called mtab ∅ [] s1)
        as [[[mtab' ec'] dis'] s2] eqn:Hloop.
      destruct (parseReturn_loop_only _ _ _ _ _ _ _ _ _ _ _ _ Hloop)
        as (_ & _ & _ & _ & _ & _ & _ & _ & _ & Hf & _).
      simpl. eapply parse_frame_trans; [exact Hr |].
      eapply parse_frame_trans; [exact Hf | by split_and!].
    + destruct (parseReturn_loop E _ content locals called [] ∅ [] s1)
        as [[[mtab' ec'] dis'] s2] eqn:Hloop.
      destruct (parseReturn_loop_only _ _ _ _ _ _ _ _ _ _ _ _ Hloop)
        as (_ & _ & _ & _ & _ & _ & _ & _ & _ & Hf & _).
      simpl. eapply parse_frame_trans; eassumption.
  - destruct (exc_Reason e); simpl; apply parse_frame_refl.
Qed.

(** X9. [parseReturn] changes nothing of the connection but the imports,
    the embargoes and their ids, the capability tables of the messages
    and the log.  An outcome flagged [parseFailed] carries an error, and
    [unimplemented] is only set with [parseFailed], for a Return of
    unknown kind.  When the outcome carries an error, the result is the
    null pointer, no Disembargo is asked for, and the embargoes, their
    ids and the capability tables are as before. *)
Theorem parseReturn_outcome (ret : Return) (called : list (list PipelineOp)) (s : Conn) :
  let pr := (parseReturn E ret called s).1 in
  let s' := (parseReturn E ret called s).2 in
  parse_frame s s' /\
  (pr_parseFailed pr = true -> is_Some (pr_err pr)) /\
  (pr_unimplemented pr = true ->
   pr_parseFailed pr = true /\ exists w, ret_Which ret = Return_other w) /\
  (is_Some (pr_err pr) ->
   pr_result pr = Ptr_null /\ pr_disembargoes pr = [] /\
   embargoes s' = embargoes s /\ embargoID s' = embargoID s /\
   captables s' = captables s).
Proof.
  intros pr s'. split; [apply parseReturn_parse_frame |]. subst pr s'.
  unfold parseReturn.
  destruct (ret_Which ret) as [[r|e]|[e|e]|w]; simpl;
    try (split_and!; [eauto | discriminate | done]).
  - destruct (recvPayload E r s) as [[[content locals] [e|]] s1] eqn:Hrecv; simpl.
    + split_and!; [eauto | discriminate |]. intros _.
      destruct (recvPayload_fails_frame E r s s1 _ _ _ Hrecv) as (Hcap & He & Hg).
      split_and!; auto.
    + destruct (captables s1 !! ret_msg ret) as [mtab|].
      * destruct (parseReturn_loop E _ content locals called mtab ∅ [] s1)
          as [[[mtab' ec'] dis'] s2]. simpl.
        split_and!; [discriminate | discriminate | by intros [? ?]].
      * destruct (parseReturn_loop E _ content locals called [] ∅ [] s1)
          as [[[mtab' ec'] dis'] s2]. simpl.
        split_and!; [discriminate | discriminate | by intros [? ?]].
  - destruct (exc_Reason e) as [reason|err]; simpl.
    + split_and!; [discriminate | discriminate | done].
    + split_and!; [eauto | discriminate | done].
  - split_and!; [eauto | eauto | done].
Qed.

(** X10. A Return pops its question: whatever [handleReturn] does with a
    Return, the entry of its question id in the table is empty afterwards
    and the other entries are as before; a second Return for that id is
    rejected with "question does not exist", and nothing happens but the
    release of its message. *)
Theorem handleReturn_pops (ret ret2 : Return) (release release2 : MsgID) (s : Conn) :
  let qid := ret_AnswerId ret in
  let s1 := (handleReturn E ret release s).2 in
  mjoin (questions s1 !! N.to_nat qid) = None /\
  length (questions s1) = length (questions s) /\
  (forall k, k <> N.to_nat qid -> questions s1 !! k = questions s !! k) /\
  (ret_AnswerId ret2 = qid ->
   handleReturn E ret2 release2 s1 =
   (Returns (Some (Failedf "incoming return: question %d does not exist" [qid] None)),
    emit (ReleaseMsg release2) s1)).
Proof.
  intros qid s1.
  assert (Hpop : mjoin (questions s1 !! N.to_nat qid) = None /\
                 length (questions s1) = length (questions s) /\
                 (forall k, k <> N.to_nat qid -> questions s1 !! k = questions s !! k)).
  { subst s1. unfold handleReturn. fold qid.
    destruct (N.leb_spec (N.of_nat (length (questions s))) qid) as [Hle|Hlt]; simpl.
    { split_and!; auto. by rewrite lookup_ge_None_2 by lia. }
    assert (Hi : <[N.to_nat qid:=None]> (questions s) !! N.to_nat qid = Some None)
      by (apply list_lookup_insert_eq; lia).
    assert (Hk : forall k, k <> N.to_nat qid ->
                   <[N.to_nat qid:=None]> (questions s) !! k = questions s !! k)
      by (intros k Hne; by apply list_lookup_insert_ne).
    assert (Hl : length (<[N.to_nat qid:=None]> (questions s)) = length (questions s))
      by apply length_insert.
    destruct (mjoin (questions s !! N.to_nat qid)) as [q|]; simpl;
      [| by rewrite Hi].
    destruct (heap s !! q) as [qv|]; simpl; [| by rewrite Hi].
    destruct (finished (q_flags qv)); simpl.
    - destruct (q_finishMsgSend qv), (finishSent (q_flags qv)); simpl; by rewrite Hi.
    - pose proof (parseReturn_parse_frame ret (q_called qv)
                    (update_question q set_finished
                       (set_questions (<[N.to_nat qid:=None]> (questions s)) s))) as Hf.
      destruct (parseReturn E ret (q_called qv) _) as [pr s2]. simpl in Hf.
      destruct Hf as (_ & Hq & _).
      simpl in Hq.
      destruct (negb (q_bootstrapPromise qv) && negb (bool_decide (is_Some (pr_err pr)))),
        (pr_parseFailed pr), (pr_err pr); simpl; rewrite Hq, Hi; done. }
  destruct Hpop as (Hnone & Hlen & Hother). split_and!; auto.
  intros Hid. unfold handleReturn. rewrite Hid.
  destruct (N.leb_spec (N.of_nat (length (questions s1))) qid) as [Hle|Hlt]; [done |].
  rewrite Hnone.
  assert (Hsame : <[N.to_nat qid:=None]> (questions s1) = questions s1).
  { apply list_insert_id.
    destruct (questions s1 !! N.to_nat qid) as [[q|]|] eqn:Hq; simpl in Hnone;
      [discriminate | done |].
    apply lookup_ge_None in Hq. lia. }
  rewrite Hsame. by destruct s1.
Qed.

End facts.








Section facts.
Context (E : Env).




End facts.

Section facts.
Context (E : Env).

(** X12. [handleCall] never panics.  It returns an error in three cases
    only: the answer id is in the answers table (nothing happens then
    but the release of the call's message), the target export is
    unknown, or the target answer is unknown or has received its Finish;
    the last two only after the call was parsed without error.  The
    error for an unknown export names the call's question id.  Every
    failure to parse the call ends in nil. *)
Theorem handleCall_errors (call : Call) (releaseCall : MsgID) (s : Conn) :
  let id := call_QuestionId call in
  let r := handleCall E call releaseCall s in
  (exists err, r.1 = Returns err) /\
  (call_SendResultsTo call = SendResultsTo_caller ->
   is_Some (answers s !! id) ->
   r = (Returns (Some (Failedf "incoming call: answer ID %d reused" [id] None)),
        emit (ReleaseMsg releaseCall) s)) /\
  (forall e, r.1 = Returns (Some e) ->
     call_SendResultsTo call = SendResultsTo_caller /\
     ((is_Some (answers s !! id) /\
       e = Failedf "incoming call: answer ID %d reused" [id] None) \/
      (answers s !! id = None /\ (parseCall E call s).1.2 = None /\
       (e = Failedf "incoming call: unknown export ID %d" [id] None \/
        e = Failedf "incoming call: use of unknown or finished answer ID %d for promised answer target"
              [pt_promisedAnswer (p_target (parseCall E call s).1.1)] None)))).
Proof.
  intros id r. split; [apply handleCall_returns |]. subst r id.
  unfold handleCall.
  destruct (call_SendResultsTo call); simpl; try (split; [done | intros e; discriminate]).
  destruct (answers s !! call_QuestionId call) as [a|] eqn:Hans; simpl.
  { split; [done |]. intros e [= <-]. split; [done |]. left. eauto. }
  split; [by intros _ [? ?] |].
  pose proof (parseCall_which E call s) as Hwhich.
  destruct (parseCall E call s) as [[p parseErr] s1]. simpl in Hwhich |- *.
  destruct (newReturn E s1) as [[err|] s2]; simpl; [intros e0; discriminate |].
  destruct parseErr as [pe|]; simpl; [intros e0; discriminate |].
  destruct (Hwhich eq_refl) as [-> | ->].
  - destruct (findExport _ _); simpl; [intros e0; discriminate |].
    intros e0 [= <-]. split; [done |]. right. split_and!; auto.
  - intros e0 He. split; [done |]. right. split_and!; auto. right.
    repeat case_match; simpl in He; try discriminate; by injection He as <-.
Qed.

(** X13. A Finish for an answer that has not sent its return and has
    received no Finish marks it [finishReceived], remembers a request to
    release the result capabilities, calls the cancel function of the
    call if there is one, and keeps the answer in the table without
    destroying it; [handleFinish] returns nil.  Any further Finish for
    that answer is rejected and changes nothing. *)
Theorem handleFinish_marks (id : N) (releaseResultCaps : bool) (ans : answer) (s : Conn) :
  answers s !! id = Some ans ->
  finishReceived (a_flags ans) = false ->
  returnSent (a_flags ans) = false ->
  let s1 := (handleFinish E id releaseResultCaps s).2 in
  (handleFinish E id releaseResultCaps s).1 = Returns None /\
  answers s1 !! id =
    Some (set_a_flags (mkAFlags false true (resultsReady (a_flags ans))
                         (releaseResultCaps || releaseResultCapsFlag (a_flags ans))) ans) /\
  (forall id', id' <> id -> answers s1 !! id' = answers s !! id') /\
  log s1 = log s ++ (if a_cancel ans then [AnswerCancel id] else []) /\
  sendq s1 = sendq s /\
  (forall again,
     handleFinish E id again s1 =
     (Returns (Some (Failedf "incoming finish: answer ID %d already received finish"
                       [id] None)), s1)).
Proof.
  intros Hans Hfin Hret s1. subst s1. unfold handleFinish.
  rewrite Hans, Hfin, Hret. simpl.
  assert (Hlk : alter (set_a_flags
                  (mkAFlags false true (resultsReady (a_flags ans))
                     (if releaseResultCaps then true else releaseResultCapsFlag (a_flags ans))))
                  id (answers s) !! id =
                Some (set_a_flags (mkAFlags false true (resultsReady (a_flags ans))
                         (releaseResultCaps || releaseResultCapsFlag (a_flags ans))) ans)).
  { rewrite lookup_alter_eq, Hans. simpl. by destruct releaseResultCaps. }
  destruct (a_cancel ans); simpl; rewrite ?app_nil_r; split_and!; try done;
    try (intros id' Hne; by apply lookup_alter_ne);
    intros again; rewrite Hlk; done.
Qed.


End facts.

Lemma sendMessage_fields (build : Build) (cb : option OnSent) (s : Conn) :
  let s1 := sendMessage build cb s in
  let a := (next_alloc s).1 in
  sendq s1 = sendq s ++ [queued_job build cb a] /\
  log s1 = log s ++ (match a with Alloc_NewMessage_fails _ => [] | _ => build_defer build end) /\
  heap s1 = heap s /\ questionID s1 = questionID s /\ bgctx_done s1 = bgctx_done s /\
  allocs s1 = tail (allocs s).
Proof.
  unfold sendMessage, next_alloc.
  destruct (allocs s) as [|[|e|e] rest] eqn:Ha; simpl; rewrite ?app_nil_r, ?Ha; done.
Qed.

(** X15. [sendMessage] queues exactly one job, behind the jobs already
    queued, and runs the deferred calls of [build] unless no message
    could be allocated.  When the send goroutine runs the job, the
    message is written to the transport only if it was allocated and
    built and the context is not canceled; the callback gets nil exactly
    when the message was written and the write succeeded; the message is
    released last, whenever one was allocated. *)
Theorem sendMessage_job (build : Build) (cb : option OnSent) (s : Conn) :
  let s1 := sendMessage build cb s in
  let a := (next_alloc s).1 in
  exists job,
    sendq s1 = sendq s ++ [job] /\ as_onSent job = cb /\
    log s1 = log s ++ (match a with Alloc_NewMessage_fails _ => [] | _ => build_defer build end) /\
    (as_release job = false <-> exists e, a = Alloc_NewMessage_fails e) /\
    forall io s2,
      let written := match a with Alloc_ok => negb (bgctx_done s2) | _ => false end in
      exists err,
        (err = None <-> written = true /\ io = None) /\
        let s3 := if written then emit (Transport_Send (build_msg build)) s2 else s2 in
        let s4 := match cb with Some cb => runOnSent cb err s3 | None => s3 end in
        asyncSend_Send io job s2 = if as_release job then emit OutMsg_Release s4 else s4.
Proof.
  intros s1 a. exists (queued_job build cb a).
  destruct (sendMessage_fields build cb s) as (Hq & Hl & _).
  fold s1 a in Hq, Hl. split_and!; try done.
  - by destruct a.
  - destruct a; simpl; split; try done; try (intros [e' ?]; done); eauto.
  - intros io s2. unfold asyncSend_Send.
    destruct a as [|e|e]; simpl; destruct (bgctx_done s2); simpl.
    + eexists. split; [| by destruct cb]. split; [done | by intros [? _]].
    + destruct io as [e|].
      * eexists. split; [| by destruct cb]. split; [done | by intros [_ ?]].
      * exists None. split; [done | by destruct cb].
    + eexists. split; [| by destruct cb]. split; [done | by intros [? _]].
    + eexists. split; [| by destruct cb]. split; [done | by intros [? _]].
    + eexists. split; [| by destruct cb]. split; [done | by intros [? _]].
    + eexists. split; [| by destruct cb]. split; [done | by intros [? _]].
Qed.

Lemma foldl_sendMessage (f : senderLoopback -> OutMsg) (cb : OnSent)
    (l : list senderLoopback) :
  forall s,
    let s' := foldl (fun s sl => sendMessage (plain_build (f sl)) (Some cb) s) s l in
    exists jobs,
      sendq s' = sendq s ++ jobs /\
      Forall2 (fun sl job => as_onSent job = Some cb /\
                             forall m, as_send job = Ok m -> m = f sl) l jobs /\
      log s' = log s /\ heap s' = heap s /\ questionID s' = questionID s.
Proof.
  induction l as [|sl l IH]; intros s; simpl.
  - exists []. rewrite app_nil_r. split_and!; done.
  - destruct (IH (sendMessage (plain_build (f sl)) (Some cb) s))
      as (jobs & Hq & Hall & Hl & Hh & Hi).
    destruct (sendMessage_fields (plain_build (f sl)) (Some cb) s)
      as (Hq1 & Hl1 & Hh1 & Hi1 & _).
    exists (queued_job (plain_build (f sl)) (Some cb) (next_alloc s).1 :: jobs).
    split_and!.
    + rewrite Hq, Hq1. by rewrite <- app_assoc.
    + constructor; [| done]. destruct (next_alloc s).1; simpl; split; try done.
      by intros m [= <-].
    + rewrite Hl, Hl1. simpl. by destruct (next_alloc s).1; rewrite app_nil_r.
    + congruence.
    + congruence.
Qed.

Section facts.
Context (E : Env).

(** X16. A Return for a question that is not finished: [handleReturn]
    pops the question, marks it finished, parses the Return, queues
    nothing itself and returns nil, leaving the rest to one goroutine.
    The message of the Return is saved in the question when the results
    are data (no bootstrap promise, no error) and is released by the
    goroutine otherwise, after the promise is resolved.  The goroutine
    then queues one Disembargo for each request of the parse, in order,
    and the Finish for the question, with [releaseResultCaps] false,
    last. *)
Theorem handleReturn_resolve (ret : Return) (release : MsgID) (q : qref)
    (qv : question) (s : Conn) :
  let qid := ret_AnswerId ret in
  mjoin (questions s !! N.to_nat qid) = Some q ->
  heap s !! q = Some qv ->
  finished (q_flags qv) = false ->
  let s0 := update_question q set_finished
              (set_questions (<[N.to_nat qid := None]> (questions s)) s) in
  let pr := (parseReturn E ret (q_called qv) s0).1 in
  let kept := negb (q_bootstrapPromise qv) && negb (bool_decide (is_Some (pr_err pr))) in
  let r := handleReturn E ret release s in
  exists qv1 s' jobs fin,
    r.1 = Returns None /\ sendq r.2 = sendq s /\ questionID r.2 = questionID s /\
    goroutines r.2 = goroutines s ++ [Task_resolve q qid pr release] /\
    heap r.2 !! q = Some qv1 /\ finished (q_flags qv1) = true /\
    q_release qv1 = (if kept then Some release else q_release qv) /\
    runTask (Task_resolve q qid pr release) r.2 = Some s' /\
    log s' = log r.2 ++ [Promise_Resolve q (pr_result pr) (pr_err pr)] ++
             (if q_bootstrapPromise qv
              then [BootstrapPromise_Fulfill q; Promise_ReleaseClients q; ReleaseMsg release]
              else if kept then [] else [ReleaseMsg release]) /\
    sendq s' = sendq s ++ jobs ++ [fin] /\
    Forall2 (fun sl job => as_onSent job = Some OnSent_return_disembargo /\
                           forall m, as_send job = Ok m -> m = buildDisembargo sl)
            (pr_disembargoes pr) jobs /\
    as_onSent fin = Some (OnSent_return_finish q qid) /\
    (forall m, as_send fin = Ok m -> m = Out_finish qid false).
Proof.
  intros qid Hq Hheap Hfin s0 pr kept r. subst r.
  unfold handleReturn. fold qid.
  destruct (N.leb_spec (N.of_nat (length (questions s))) qid) as [Hle|Hlt].
  { rewrite lookup_ge_None_2 in Hq by lia. discriminate. }
  rewrite Hq. simpl. rewrite Hheap, Hfin. fold s0.
  pose proof (parseReturn_parse_frame E ret (q_called qv) s0) as Hf.
  subst pr kept.
  destruct (parseReturn E ret (q_called qv) s0) as [pr s1]. simpl in Hf |- *.
  destruct Hf as (_ & _ & Hqid & _ & _ & _ & Hsq & _ & _ & _ & Hh & Hg & _).
  set (kept := negb (q_bootstrapPromise qv) && negb (bool_decide (is_Some (pr_err pr)))).
  set (s2 := if pr_parseFailed pr then _ else s1).
  assert (H2 : heap s2 = heap s0 /\ sendq s2 = sendq s /\ questionID s2 = questionID s /\
               goroutines s2 = goroutines s).
  { subst s2. destruct (pr_parseFailed pr), (pr_err pr); simpl; split_and!; done. }
  clearbody s2. destruct H2 as (Hh2 & Hsq2 & Hqid2 & Hg2).
  set (s3 := if kept then update_question q (set_q_release release) s2 else s2).
  set (qv1 := if kept then set_q_release release (set_finished qv) else set_finished qv).
  assert (H3 : heap s3 !! q = Some qv1 /\ sendq s3 = sendq s /\ questionID s3 = questionID s /\
               goroutines s3 = goroutines s).
  { subst s3 qv1. destruct kept; simpl; rewrite ?Hh2; simpl;
      rewrite ?lookup_alter_eq, ?Hheap; split_and!; done. }
  clearbody s3. destruct H3 as (Hh3 & Hsq3 & Hqid3 & Hg3).
  assert (Hboot : q_bootstrapPromise qv1 = q_bootstrapPromise qv)
    by (subst qv1; by destruct kept).
  set (s4 := emit (Promise_Resolve q (pr_result pr) (pr_err pr))
               (spawn (Task_resolve q qid pr release) s3)).
  set (tail := if q_bootstrapPromise qv
               then [BootstrapPromise_Fulfill q; Promise_ReleaseClients q; ReleaseMsg release]
               else if kept then [] else [ReleaseMsg release]).
  set (s5 := if q_bootstrapPromise qv1
             then emit_all [BootstrapPromise_Fulfill q; Promise_ReleaseClients q;
                            ReleaseMsg release] s4
             else if bool_decide (is_Some (pr_err pr)) then emit (ReleaseMsg release) s4
             else s4).
  assert (H5 : log s5 = log s3 ++ [Promise_Resolve q (pr_result pr) (pr_err pr)] ++ tail /\
               sendq s5 = sendq s).
  { subst s5 tail kept. rewrite Hboot.
    destruct (q_bootstrapPromise qv), (bool_decide (is_Some (pr_err pr))); simpl;
      rewrite <- ?app_assoc, ?app_nil_r; done. }
  destruct H5 as (Hl5 & Hsq5).
  destruct (foldl_sendMessage buildDisembargo OnSent_return_disembargo (pr_disembargoes pr) s5)
    as (jobs & Hjq & Hjobs & Hjl & _).
  set (s6 := foldl _ s5 (pr_disembargoes pr)) in *.
  destruct (sendMessage_fields (plain_build (Out_finish qid false))
              (Some (OnSent_return_finish q qid)) s6) as (Hfq & Hfl & _).
  exists qv1, (sendMessage (plain_build (Out_finish qid false))
                 (Some (OnSent_return_finish q qid)) s6),
    jobs, (queued_job (plain_build (Out_finish qid false))
             (Some (OnSent_return_finish q qid)) (next_alloc s6).1).
  split_and!; try done.
  - by rewrite Hg3.
  - subst qv1. by destruct kept.
  - subst qv1. by destruct kept.
  - unfold runTask. simpl. rewrite Hh3. done.
  - rewrite Hfl, Hjl, Hl5. simpl. by destruct (next_alloc s6).1; rewrite app_nil_r.
  - rewrite Hfq, Hjq, Hsq5. by rewrite <- app_assoc.
  - by destruct (next_alloc s6).1.
  - destruct (next_alloc s6).1; simpl; try done. by intros m [= <-].
Qed.

End facts.

Lemma runOnSent_log cb err s :
  exists evs,
    log (runOnSent cb err s) = log s ++ evs /\
    Forall (fun ev => callback_event ev = true) evs /\
    (forall tag, cb = OnSent_external tag -> OnSent_called tag err ∈ evs) /\
    (forall oq, flagged_finished (heap (runOnSent cb err s)) oq = flagged_finished (heap s) oq).
Proof.
  assert (Halter : forall (h : gmap N question) q f oq,
            (forall qv, finished (q_flags (f qv)) = finished (q_flags qv)) ->
            flagged_finished (alter f q h) oq = flagged_finished h oq).
  { intros h q f [r|] Hf; [| done]. simpl.
    destruct (decide (r = q)) as [->|Hne].
    - rewrite lookup_alter_eq. destruct (h !! q); simpl; [apply Hf | done].
    - by rewrite lookup_alter_ne. }
  destruct cb as [| |q qid|release client|release|tag]; simpl.
  - destruct err as [e|]; simpl.
    + eexists [_]. split_and!; try done. repeat constructor.
    + exists []. split_and!; try done. by rewrite app_nil_r.
  - destruct err as [e|]; simpl.
    + eexists [_]. split_and!; try done. repeat constructor.
    + exists []. split_and!; try done. by rewrite app_nil_r.
  - destruct err as [e|]; simpl.
    + exists [ReportError (Errorf "incoming return: send finish: build message: %w" []
                             (Some e))].
      split_and!; try done; [repeat constructor |].
      intros oq. by rewrite Halter.
    + exists []. split_and!; try done; [by rewrite app_nil_r |].
      intros oq. by rewrite !Halter.
  - destruct err as [e|]; simpl.
    + eexists [_; _; _]. split_and!; try done; [by rewrite <- !app_assoc | repeat constructor].
    + eexists [_; _]. split_and!; try done; [by rewrite <- !app_assoc | repeat constructor].
  - destruct err as [e|]; simpl.
    + eexists [_; _]. split_and!; try done; [by rewrite <- !app_assoc | repeat constructor].
    + eexists [_]. split_and!; try done. repeat constructor.
  - exists [OnSent_called tag err]. split_and!; try done; [repeat constructor |].
    intros tag' [= <-]. left.
Qed.

Lemma Abort_log err a s :
  exists evs,
    log (asyncSend_Abort err a s) = log s ++ evs /\
    Forall (fun ev => callback_event ev = true) evs /\
    (forall tag, as_onSent a = Some (OnSent_external tag) ->
                 OnSent_called tag (Some (Disconnected err)) ∈ evs) /\
    (forall oq, flagged_finished (heap (asyncSend_Abort err a s)) oq
                = flagged_finished (heap s) oq).
Proof.
  unfold asyncSend_Abort. destruct (as_onSent a) as [cb|].
  - destruct (runOnSent_log cb (Some (Disconnected err)) s) as (evs & Hl & Hall & Htag & Hh).
    destruct (as_release a); simpl.
    + exists (evs ++ [OutMsg_Release]). split_and!.
      * by rewrite Hl, app_assoc.
      * apply Forall_app. split; [done | repeat constructor].
      * intros tag [= ->]. apply elem_of_app. left. by apply Htag.
      * done.
    + exists evs. split_and!; try done. intros tag [= ->]. by apply Htag.
  - destruct (as_release a); simpl.
    + exists [OutMsg_Release]. split_and!; try done. repeat constructor.
    + exists []. split_and!; try done. by rewrite app_nil_r.
Qed.

Lemma drain_log (jobs : list asyncSend) :
  forall s,
    let s' := foldl (fun s pending => asyncSend_Abort ErrConnClosed pending s) s jobs in
    exists evs,
      log s' = log s ++ evs /\
      Forall (fun ev => callback_event ev = true) evs /\
      (forall job tag, job ∈ jobs -> as_onSent job = Some (OnSent_external tag) ->
                       OnSent_called tag (Some (Disconnected ErrConnClosed)) ∈ evs) /\
      (forall oq, flagged_finished (heap s') oq = flagged_finished (heap s) oq).
Proof.
  induction jobs as [|a jobs IH]; intros s; simpl.
  - exists []. split_and!; try done; [by rewrite app_nil_r |].
    intros job tag Hin. by apply elem_of_nil in Hin.
  - destruct (Abort_log ErrConnClosed a s) as (e1 & Hl1 & Ha1 & Ht1 & Hh1).
    destruct (IH (asyncSend_Abort ErrConnClosed a s)) as (e2 & Hl2 & Ha2 & Ht2 & Hh2).
    exists (e1 ++ e2). split_and!.
    + by rewrite Hl2, Hl1, app_assoc.
    + by apply Forall_app.
    + intros job tag Hin Hcb. apply elem_of_app.
      apply elem_of_cons in Hin as [->|Hin]; [left; by apply Ht1 | right; by eapply Ht2].
    + intros oq. by rewrite Hh2, Hh1.
Qed.

Lemma releaseQuestions_ext (h h' : gmap N question) (qs : list (option qref)) :
  (forall oq, flagged_finished h' oq = flagged_finished h oq) ->
  releaseQuestions h' qs = releaseQuestions h qs.
Proof.
  intros Hh.
  change (omap (fun q => if flagged_finished h' q then None
                         else Some (Question_Reject q ExcClosed)) qs =
          omap (fun q => if flagged_finished h q then None
                         else Some (Question_Reject q ExcClosed)) qs).
  induction qs as [|oq qs IH]; [done |].
  simpl. rewrite Hh. destruct (flagged_finished h oq); [exact IH | by f_equal].
Qed.

(** The log of the first [shutdown], phase by phase. *)
Lemma shutdown_log (timeout : bool) (abortErr : option error) (s : Conn) :
  closing s = false ->
  exists dr ab,
    log (shutdown timeout abortErr s).2 =
      log s ++ [Bgcancel] ++ cancels s
        ++ (if timeout then [Transport_Close; Close_closed] else [])
        ++ [Tasks_Wait] ++ dr ++ cleared s ++ (release s).1 ++ ab
        ++ (if timeout then [] else [Transport_Close; Close_closed]) /\
    Forall (fun ev => callback_event ev = true) dr /\
    (forall job tag, job ∈ sendq s -> as_onSent job = Some (OnSent_external tag) ->
                     OnSent_called tag (Some (Disconnected ErrConnClosed)) ∈ dr) /\
    (ab = [] \/ ab = [OutMsg_Release] \/
     exists e, abortErr = Some e /\ ab = [Transport_Send (Out_abort e); OutMsg_Release]) /\
    (abortErr = None -> ab = []).
Proof.
  intros Hclosing. unfold shutdown. rewrite Hclosing.
  set (sC := cancelTasks (emit Bgcancel (set_bgctx_done true (set_closing true s)))).
  set (early := if timeout then close_transport sC else (None, sC)).
  assert (Hearly : early = if timeout then close_transport sC else (None, sC)) by done.
  clearbody early. destruct early as [e1 sD0].
  set (sD := emit Tasks_Wait sD0).
  assert (HD : log sD = log s ++ [Bgcancel] ++ cancels s
                 ++ (if timeout then [Transport_Close; Close_closed] else [])
                 ++ [Tasks_Wait] /\
               sendq sD = sendq s /\ bootstrap sD = bootstrap s /\ exports sD = exports s /\
               embargoes sD = embargoes s /\ answers sD = answers s /\
               questions sD = questions s /\ heap sD = heap s).
  { subst sD. destruct timeout; injection Hearly as -> ->; subst sC; simpl;
      unfold cancelTasks; simpl; fold (cancels s);
      rewrite <- ?app_assoc; simpl; rewrite <- ?app_assoc; split_and!; done. }
  clearbody sD. clear Hearly sD0 sC.
  destruct HD as (HlD & HqD & HbD & HeD & HmD & HaD & HquD & HhD).
  pose proof (quiet_step_drain (sendq sD) (set_sendq [] sD)) as Hquiet.
  destruct (drain_log (sendq sD) (set_sendq [] sD)) as (dr & Hdr & Hcb & Htag & Hfl).
  fold (drainQueue sD) in Hquiet, Hdr, Hfl.
  set (sE := drainQueue sD) in *. clearbody sE.
  destruct Hquiet as (_ & _ & _ & _ & _ & _ & _ & Hqu & Han & Hex & _ & Hem & Hbo).
  simpl in Hdr, Hfl, Hqu, Han, Hex, Hem, Hbo.
  assert (Hrl : (release sE).1 = (release s).1).
  { unfold release. simpl. rewrite Hbo, Hex, Hem, Han, Hqu, HbD, HeD, HmD, HaD, HquD.
    rewrite (releaseQuestions_ext (heap s) (heap sE)); [done |].
    intros oq. by rewrite Hfl, HhD. }
  assert (Hcl : cleared sE = cleared s) by (unfold cleared; by rewrite Hex, HeD).
  assert (HF : log (release sE).2 = log sE ++ cleared s).
  { unfold release. simpl. by rewrite <- Hcl. }
  destruct (release sE) as [rl sF]. cbn [fst snd] in Hrl, HF. subst rl.
  set (sG := emit_all (release s).1 sF).
  assert (HG : log sG = log sE ++ cleared s ++ (release s).1).
  { subst sG. simpl. by rewrite HF, <- app_assoc. }
  clearbody sG.
  assert (Hab : exists ab,
            log (abort abortErr sG) = log sG ++ ab /\
            (ab = [] \/ ab = [OutMsg_Release] \/
             exists e, abortErr = Some e /\ ab = [Transport_Send (Out_abort e); OutMsg_Release])
            /\ (abortErr = None -> ab = [])).
  { unfold abort. destruct abortErr as [e|].
    - unfold next_alloc. destruct (allocs sG) as [|[|e'|e'] rest]; simpl.
      + exists [Transport_Send (Out_abort e); OutMsg_Release].
        split_and!; [by rewrite <- app_assoc | eauto | done].
      + exists [Transport_Send (Out_abort e); OutMsg_Release].
        split_and!; [by rewrite <- app_assoc | eauto | done].
      + exists []. split_and!; [by rewrite app_nil_r | eauto | done].
      + exists [OutMsg_Release]. split_and!; [done | eauto | done].
    - exists []. split_and!; [by rewrite app_nil_r | eauto | done]. }
  destruct Hab as (ab & Hlab & Hab & Hnone).
  set (sH := abort abortErr sG) in *. clearbody sH.
  exists dr, ab. split_and!; try done.
  - destruct timeout; simpl; rewrite Hlab, HG, Hdr, HlD;
      rewrite <- ?app_assoc; simpl; rewrite <- ?app_assoc, ?app_nil_r; done.
  - intros job tag Hin. apply Htag. by rewrite HqD.
Qed.

Lemma count_none (p : Event -> bool) (evs : list Event) :
  Forall (fun ev => p ev = false) evs -> count p evs = 0%nat.
Proof.
  intros Hall. unfold count. induction Hall as [|ev evs Hev _ IH]; [done |].
  rewrite filter_cons. destruct (decide _) as [Ht|_]; [congruence | exact IH].
Qed.

Lemma Forall_omap {A} (P : Event -> Prop) (f : A -> option Event) (l : list A) :
  (forall a ev, f a = Some ev -> P ev) -> Forall P (omap f l).
Proof.
  intros Hf. apply Forall_forall. intros ev Hin.
  apply list_elem_of_omap in Hin as (a & _ & Ha). eauto.
Qed.

Lemma callback_not (p : Event -> bool) (evs : list Event) :
  (forall ev, callback_event ev = true -> p ev = false) ->
  Forall (fun ev => callback_event ev = true) evs -> Forall (fun ev => p ev = false) evs.
Proof. intros Hp Hall. eapply Forall_impl; [exact Hall | exact Hp]. Qed.

Lemma cancels_not (p : Event -> bool) (s : Conn) :
  (forall id, p (AnswerCancel id) = false) -> Forall (fun ev => p ev = false) (cancels s).
Proof.
  intros Hp. apply Forall_omap. intros [id a] ev.
  destruct (a_cancel a); [| done]. by intros [= <-].
Qed.

Lemma cleared_not (p : Event -> bool) (s : Conn) :
  (forall c, p (ClearExportID c) = false) -> Forall (fun ev => p ev = false) (cleared s).
Proof.
  intros Hp. apply Forall_omap. intros [e|] ev; [| done]. by intros [= <-].
Qed.

Lemma count_releaseQuestions (h : gmap N question) (qs : list (option qref)) :
  count is_Question_Reject (releaseQuestions h qs) =
  length (filter (fun oq => flagged_finished h oq = false) qs).
Proof.
  change (releaseQuestions h qs) with
    (omap (fun q => if flagged_finished h q then None
                    else Some (Question_Reject q ExcClosed)) qs).
  set (f := fun q => if flagged_finished h q then None
                       else Some (Question_Reject q ExcClosed)).
  assert (Hcons : forall x l, omap f (x :: l) =
            match f x with Some y => y :: omap f l | None => omap f l end) by done.
  induction qs as [|oq qs IH]; [done |].
  rewrite filter_cons, Hcons. unfold f at 1.
  destruct (flagged_finished h oq) eqn:Hf.
  - destruct (decide (true = false)); [done | exact IH].
  - destruct (decide (false = false)); [| done].
    rewrite count_cons. cbn [is_Question_Reject length]. by rewrite IH.
Qed.

Lemma release_list_sends (p : Event -> bool) (s : Conn) :
  (forall c, p (Client_Release c) = false) -> (forall c, p (Embargo_lift c) = false) ->
  (forall id, p (MsgReleaser_Decr id) = false) ->
  (forall q e, p (Question_Reject q e) = false) ->
  Forall (fun ev => p ev = false) (release s).1.
Proof.
  intros H1 H2 H3 H4. unfold release. simpl. apply Forall_cons. split; [done |].
  repeat (apply Forall_app; split).
  - apply Forall_omap. intros [e|] ev; [| done]. by intros [= <-].
  - apply Forall_omap. intros [e|] ev; [| done]. by intros [= <-].
  - apply Forall_omap. intros [id a] ev. destruct (a_msgReleaser a); [| done]. by intros [= <-].
  - apply Forall_omap. intros q ev.
    destruct (match q with Some r => _ | None => false end); [done |]. by intros [= <-].
Qed.

(** X17. The first [shutdown] releases what the connection holds: the
    bootstrap client; for every export, its export id is cleared and its
    client released; every embargo is lifted; every answer with a cancel
    function is canceled and every answer with a message releaser has it
    decremented; and [Reject] is called once for every slot of the
    questions table that does not hold a question flagged finished, the
    empty slots included, and for no other. *)
Theorem shutdown_releases (timeout : bool) (abortErr : option error) (s : Conn) :
  closing s = false ->
  exists evs,
    log (shutdown timeout abortErr s).2 = log s ++ evs /\
    Client_Release (bootstrap s) ∈ evs /\
    (forall i e, exports s !! i = Some (Some e) ->
       ClearExportID (exp_client e) ∈ evs /\ Client_Release (exp_client e) ∈ evs) /\
    (forall i e, embargoes s !! i = Some (Some e) -> Embargo_lift (emb_client e) ∈ evs) /\
    (forall id a, answers s !! id = Some a ->
       (a_cancel a = true -> AnswerCancel id ∈ evs) /\
       (a_msgReleaser a = true -> MsgReleaser_Decr id ∈ evs)) /\
    (forall i oq, questions s !! i = Some oq -> flagged_finished (heap s) oq = false ->
       Question_Reject oq ExcClosed ∈ evs) /\
    count is_Question_Reject evs =
      length (filter (fun oq => flagged_finished (heap s) oq = false) (questions s)).
Proof.
  intros Hclosing.
  destruct (shutdown_log timeout abortErr s Hclosing) as (dr & ab & Hlog & Hdr & _ & Hab & _).
  eexists. split; [exact Hlog |].
  assert (Hrel : forall ev, ev ∈ (release s).1 ->
            ev ∈ [Bgcancel] ++ cancels s
              ++ (if timeout then [Transport_Close; Close_closed] else [])
              ++ [Tasks_Wait] ++ dr ++ cleared s ++ (release s).1 ++ ab
              ++ (if timeout then [] else [Transport_Close; Close_closed])).
  { intros ev Hin. rewrite !elem_of_app. do 6 right. by left. }
  split_and!.
  - apply Hrel. unfold release. simpl. left.
  - intros i e Hi. apply list_elem_of_lookup_2 in Hi. split.
    + rewrite !elem_of_app. do 5 right. left.
      apply list_elem_of_omap. exists (Some e). done.
    + apply Hrel. unfold release. simpl. right. rewrite !elem_of_app. left.
      apply list_elem_of_omap. exists (Some e). done.
  - intros i e Hi. apply list_elem_of_lookup_2 in Hi.
    apply Hrel. unfold release. simpl. right. rewrite !elem_of_app. right. left.
    apply list_elem_of_omap. exists (Some e). done.
  - intros id a Ha. split; intros Hflag.
    + rewrite !elem_of_app. right. left.
      apply list_elem_of_omap. exists (id, a).
      split; [by apply elem_of_map_to_list |]. by rewrite Hflag.
    + apply Hrel. unfold release. simpl. right. rewrite !elem_of_app. do 2 right. left.
      apply list_elem_of_omap. exists (id, a).
      split; [by apply elem_of_map_to_list |]. by rewrite Hflag.
  - intros i oq Hi Hf. apply list_elem_of_lookup_2 in Hi.
    apply Hrel. unfold release. simpl. right. rewrite !elem_of_app. do 3 right.
    apply list_elem_of_omap. exists oq. split; [done |].
    fold (flagged_finished (heap s) oq). by rewrite Hf.
  - rewrite !count_app.
    rewrite (count_none _ (cancels s)) by (by apply cancels_not).
    assert (Hcbq : forall ev, callback_event ev = true -> is_Question_Reject ev = false)
      by (by intros []).
    rewrite (count_none _ dr) by (by apply (callback_not is_Question_Reject)).
    rewrite (count_none _ (cleared s)) by (by apply cleared_not).
    assert (Hab0 : count is_Question_Reject ab = 0%nat).
    { destruct Hab as [->|[->|(e & _ & ->)]]; done. }
    rewrite Hab0.
    assert (Hr : count is_Question_Reject (release s).1 =
                 length (filter (fun oq => flagged_finished (heap s) oq = false)
                                (questions s))).
    { change ((release s).1) with
        ([Client_Release (bootstrap s)] ++ releaseExports (exports s)
           ++ liftEmbargoes (embargoes s) ++ releaseAnswers (answers s)
           ++ releaseQuestions (heap s) (questions s)).
      rewrite !count_app.
      rewrite (count_none _ (releaseExports _))
        by (apply Forall_omap; intros [e|] ev; [| done]; by intros [= <-]).
      rewrite (count_none _ (liftEmbargoes _))
        by (apply Forall_omap; intros [e|] ev; [| done]; by intros [= <-]).
      rewrite (count_none _ (releaseAnswers _))
        by (apply Forall_omap; intros [id a] ev; destruct (a_msgReleaser a); [| done];
            by intros [= <-]).
      by rewrite count_releaseQuestions. }
    rewrite Hr.
    assert (H1 : count is_Question_Reject [Bgcancel] = 0%nat) by done.
    assert (H2 : count is_Question_Reject [Tasks_Wait] = 0%nat) by done.
    assert (H3 : count is_Question_Reject
                   (if timeout then [Transport_Close; Close_closed] else []) = 0%nat)
      by (by destruct timeout).
    assert (H4 : count is_Question_Reject
                   (if timeout then [] else [Transport_Close; Close_closed]) = 0%nat)
      by (by destruct timeout).
    rewrite H1, H2, H3, H4. lia.
Qed.

(** X18. The first [shutdown] writes none of the queued messages to the
    transport: the only message it may send is the abort, at most once
    and only when it was given an error; every queued job is aborted,
    its callback getting the error "disconnected: connection closed",
    and the queue is empty afterwards. *)
Theorem shutdown_sends_only_abort (timeout : bool) (abortErr : option error) (s : Conn) :
  closing s = false ->
  exists evs,
    log (shutdown timeout abortErr s).2 = log s ++ evs /\
    (forall m, Transport_Send m ∈ evs -> exists e, abortErr = Some e /\ m = Out_abort e) /\
    (count is_Transport_Send evs <= 1)%nat /\
    (abortErr = None -> count is_Transport_Send evs = 0%nat) /\
    (forall job tag, job ∈ sendq s -> as_onSent job = Some (OnSent_external tag) ->
       OnSent_called tag (Some (Disconnected ErrConnClosed)) ∈ evs) /\
    sendq (shutdown timeout abortErr s).2 = [].
Proof.
  intros Hclosing.
  destruct (shutdown_log timeout abortErr s Hclosing)
    as (dr & ab & Hlog & Hdr & Htag & Hab & Hnone).
  destruct (shutdown_first timeout abortErr s Hclosing)
    as (_ & _ & _ & _ & _ & _ & _ & _ & _ & _ & _ & _ & _ & Hq & _).
  eexists. split; [exact Hlog |].
  assert (Hcbs : forall ev, callback_event ev = true -> is_Transport_Send ev = false)
    by (by intros []).
  assert (Hdr0 : Forall (fun ev => is_Transport_Send ev = false) dr)
    by (by apply (callback_not is_Transport_Send)).
  assert (Hc0 : Forall (fun ev => is_Transport_Send ev = false) (cancels s))
    by (by apply cancels_not).
  assert (Hcl0 : Forall (fun ev => is_Transport_Send ev = false) (cleared s))
    by (by apply cleared_not).
  assert (Hr0 : Forall (fun ev => is_Transport_Send ev = false) (release s).1)
    by (by apply release_list_sends).
  assert (Hno : forall (l : list Event) m,
            Forall (fun ev => is_Transport_Send ev = false) l -> Transport_Send m ∈ l -> False).
  { intros l m Hall Hin. rewrite Forall_forall in Hall. by specialize (Hall _ Hin). }
  split_and!.
  - intros m Hin. rewrite !elem_of_app in Hin.
    destruct Hin as [Hin|[Hin|[Hin|[Hin|[Hin|[Hin|[Hin|[Hin|Hin]]]]]]]].
    + set_solver.
    + by destruct (Hno _ _ Hc0 Hin).
    + destruct timeout; set_solver.
    + set_solver.
    + by destruct (Hno _ _ Hdr0 Hin).
    + by destruct (Hno _ _ Hcl0 Hin).
    + by destruct (Hno _ _ Hr0 Hin).
    + destruct Hab as [->|[->|(e & -> & ->)]]; [set_solver | set_solver |].
      exists e. split; [done |]. set_solver.
    + destruct timeout; set_solver.
  - rewrite !count_app, (count_none _ (cancels s)), (count_none _ dr),
      (count_none _ (cleared s)), (count_none _ (release s).1); try done.
    destruct Hab as [->|[->|(e & _ & ->)]]; destruct timeout; simpl; vm_compute; lia.
  - intros Hn. rewrite (Hnone Hn).
    rewrite !count_app, (count_none _ (cancels s)), (count_none _ dr),
      (count_none _ (cleared s)), (count_none _ (release s).1); try done.
    by destruct timeout.
  - intros job tag Hin Hcb. rewrite !elem_of_app. do 4 right. left. by eapply Htag.
  - exact Hq.
Qed.

Section facts.
Context (E : Env).


(** X20. When the remote vat sends an abort, the connection shuts down
    without answering it: [receive] reports the abort, releases the
    message and returns nil, whatever messages follow; the goroutine
    that watches the background tasks then runs the shutdown with no
    abort error, so nothing at all is written to the transport, which is
    closed once, and the tables and the queue end up empty. *)
Theorem remote_abort_shutdown (msg : incomingMessage) (rest : list incomingMessage)
    (a : result Exception) (timeout : bool) (s : Conn) :
  closing s = false ->
  bgctx_done s = false ->
  in_err msg = None ->
  in_Message msg = Message_abort a ->
  exists e evs,
    let s1 := emit (ReleaseMsg (in_Release msg)) (report e s) in
    receive E (msg :: rest) s = (Received (Returns None), s1) /\
    let s2 := monitor timeout (backgroundTask None) s1 in
    log s2 = log s1 ++ evs /\
    count is_Transport_Send evs = 0%nat /\
    count is_Transport_Close evs = 1%nat /\
    closed s2 = true /\ sendq s2 = [] /\ questions s2 = [] /\ answers s2 = ∅ /\
    exports s2 = [] /\ imports s2 = ∅ /\ embargoes s2 = [].
Proof.
  intros Hclosing Hbg Herr Hmsg.
  assert (Hrecv : exists e,
            receive E (msg :: rest) s =
            (Received (Returns None), emit (ReleaseMsg (in_Release msg)) (report e s))).
  { simpl. rewrite Hbg, Herr, Hmsg.
    destruct a as [exc|err]; [destruct (exc_Reason exc) as [reason|err] |]; eauto. }
  destruct Hrecv as (e & Hrecv). exists e.
  set (s1 := emit (ReleaseMsg (in_Release msg)) (report e s)).
  assert (Hc1 : closing s1 = false) by done.
  destruct (shutdown_log timeout None s1 Hc1) as (dr & ab & Hlog & Hdr & _ & _ & Hnone).
  destruct (shutdown_first timeout None s1 Hc1)
    as (_ & _ & _ & _ & _ & _ & _ & _ & _ & (late & Hlate) & _ & _ & Hcl & Hq & Hqu & Han
        & Hex & Him & Hem).
  rewrite (Hnone eq_refl) in Hlog.
  match type of Hlog with _ = _ ++ ?X => set (evs0 := X) in * end.
  assert (Hdr0 : forall p, (forall ev, callback_event ev = true -> p ev = false) ->
                           count p dr = 0%nat).
  { intros p Hp. apply count_none. by apply (callback_not p). }
  assert (Hcs : count is_Transport_Send evs0 = 0%nat).
  { subst evs0.
    rewrite !count_app, (count_none _ (cancels s1)), (Hdr0 is_Transport_Send),
      (count_none _ (cleared s1)), (count_none _ (release s1).1);
      try done; try (by intros []);
      [by destruct timeout | by apply release_list_sends | by apply cleared_not
      | by apply cancels_not]. }
  assert (Hcc : count is_Transport_Close evs0 = 1%nat).
  { subst evs0.
    rewrite !count_app, (count_none _ (cancels s1)), (Hdr0 is_Transport_Close),
      (count_none _ (cleared s1)), (count_none _ (release s1).1);
      try done; try (by intros []);
      [by destruct timeout | by apply release_list_sends | by apply cleared_not
      | by apply cancels_not]. }
  clearbody evs0.
  exists (evs0 ++ match late with Some e' => [ReportError e'] | None => [] end).
  split; [exact Hrecv |].
  assert (Hmon : monitor timeout (backgroundTask None) s1 =
                 match shutdown timeout None s1 with
                 | (Shutdown_returns (Some e), s) => report e s
                 | (_, s) => s
                 end) by done.
  cbv zeta. rewrite Hmon. clear Hmon.
  destruct (shutdown timeout None s1) as [res s2]. cbn [fst snd] in *. subst res.
  rewrite count_app, Hcs, count_app, Hcc.
  destruct late as [e'|]; cbn [report emit set_log log closed sendq questions answers
                               exports imports embargoes];
    rewrite Hlog, ?app_nil_r, <- ?app_assoc; split_and!; done.
Qed.

End facts.

Section facts.
Context (E : Env).

(** X21. [reader] passes on the results of [RecvMessage] in order and
    stops after the first that carries an error: what it delivers is a
    prefix of what the transport returns, and only the last message
    delivered can carry an error.  While the context is not canceled the
    receive loop behaves on what [reader] delivers as on the whole
    stream: nothing after the first error is needed. *)
Theorem reader_receive (ctx : list bool) (t : list incomingMessage) :
  reader ctx t `prefix_of` t /\
  (forall i m, reader ctx t !! i = Some m -> (S i < length (reader ctx t))%nat ->
               in_err m = None) /\
  ((forall b, b ∈ ctx -> b = false) ->
   (Forall (fun m => in_err m = None) t -> reader ctx t = t) /\
   forall s, receive E (reader ctx t) s = receive E t s).
Proof.
  split_and!.
  - revert ctx. induction t as [|m rest IH]; intros ctx; simpl; [done |].
    destruct ctx as [|[|] ctx]; simpl.
    + destruct (in_err m); [by apply prefix_cons, prefix_nil | apply prefix_cons, IH].
    + apply prefix_nil.
    + destruct (in_err m); [by apply prefix_cons, prefix_nil | apply prefix_cons, IH].
  - revert ctx. induction t as [|m rest IH]; intros ctx i m'; simpl; [done |].
    assert (Hcase : forall d, (match in_err m with
                               | Some _ => []
                               | None => reader d rest
                               end = [] /\ True) \/
                              (in_err m = None /\
                               match in_err m with
                               | Some _ => []
                               | None => reader d rest
                               end = reader d rest)).
    { intros d. destruct (in_err m); [by left | by right]. }
    assert (Hgo : forall d, (m :: match in_err m with
                                  | Some _ => []
                                  | None => reader d rest
                                  end) !! i = Some m' ->
                  (S i < length (m :: match in_err m with
                                      | Some _ => []
                                      | None => reader d rest
                                      end))%nat -> in_err m' = None).
    { intros d Hi Hlen. destruct (Hcase d) as [[Hnil _]|[Hnone Heq]].
      - rewrite Hnil in Hi, Hlen. simpl in Hlen. lia.
      - rewrite Heq in Hi, Hlen. destruct i as [|i]; simpl in Hi, Hlen.
        + by injection Hi as <-.
        + apply (IH d i m' Hi). lia. }
    destruct ctx as [|[|] ctx]; simpl; [apply Hgo | done | apply Hgo].
  - intros Hdone.
    assert (Hstep : forall d rest m, (forall b, b ∈ d -> b = false) ->
              match d with
              | true :: _ => []
              | _ => m :: match in_err m with
                          | Some _ => []
                          | None => reader (tail d) rest
                          end
              end = m :: match in_err m with
                         | Some _ => []
                         | None => reader (tail d) rest
                         end /\
              (forall b, b ∈ tail d -> b = false)).
    { intros d rest m Hd. destruct d as [|[|] d]; simpl.
      - done.
      - discriminate (Hd true). left.
      - split; [done |]. intros b Hb. apply Hd. by right. }
    split.
    + revert ctx Hdone. induction t as [|m rest IH]; intros ctx Hdone Hall; simpl; [done |].
      destruct (Hstep ctx rest m Hdone) as [-> Htl].
      apply Forall_cons in Hall as [Hm Hall]. rewrite Hm. f_equal. by apply IH.
    + revert ctx Hdone. induction t as [|m rest IH]; intros ctx Hdone s; simpl; [done |].
      destruct (Hstep ctx rest m Hdone) as [-> Htl].
      simpl. destruct (bgctx_done s); [done |].
      destruct (in_err m) as [e|] eqn:Herr; [done |].
      specialize (IH (tail ctx) Htl).
      destruct (in_Message m) as [|[a|e]|[qid|e]|[call|e]|[ret|e]|[fin|e]|[rel|e]|[d|e]|w];
        simpl; try done; try (by rewrite IH);
        try (match goal with
             | |- context [match ?h with (_, _) => _ end] =>
                 destruct h as [[[err|]|] s1]; simpl; try done; by rewrite IH
             end).
Qed.

(** X22. An [unimplemented] message is dropped: the receive loop goes on
    with the connection as it is, and the message is not released.  A
    message of unknown kind is reported and answered with one
    [unimplemented] message that echoes it, queued with no callback; its
    release is left to the builder of the reply, which does not run when
    no reply can be allocated; the receive loop goes on. *)
Theorem receive_unknown_kind (msg : incomingMessage) (rest : list incomingMessage)
    (s : Conn) :
  bgctx_done s = false ->
  in_err msg = None ->
  (in_Message msg = Message_unimplemented ->
   receive E (msg :: rest) s = receive E rest s) /\
  (forall w, in_Message msg = Message_other w ->
     exists s1 job,
       receive E (msg :: rest) s = receive E rest s1 /\
       sendq s1 = sendq s ++ [job] /\ as_onSent job = None /\
       (forall m, as_send job = Ok m -> m = Out_unimplemented_message (in_Message msg)) /\
       log s1 = log s
         ++ [ReportError (Errorf "unknown message type %v from remote" [w] None)]
         ++ (match (next_alloc s).1 with
             | Alloc_NewMessage_fails _ => []
             | _ => [ReleaseMsg (in_Release msg)]
             end)).
Proof.
  intros Hbg Herr. split.
  - intros Hm. simpl. by rewrite Hbg, Herr, Hm.
  - intros w Hm.
    set (b := mkBuild (Out_unimplemented_message (in_Message msg))
                (fun e => Annotate e "send unimplemented" []) [ReleaseMsg (in_Release msg)]).
    set (s0 := report (Errorf "unknown message type %v from remote" [w] None) s).
    exists (sendMessage b None s0), (queued_job b None (next_alloc s0).1).
    destruct (sendMessage_fields b None s0) as (Hq & Hl & _).
    split_and!.
    + simpl. rewrite Hbg, Herr, Hm. subst b s0. by rewrite Hm.
    + exact Hq.
    + by destruct (next_alloc s0).1.
    + destruct (next_alloc s0).1; simpl; try done. by intros m [= <-].
    + rewrite Hl. simpl. rewrite <- app_assoc. simpl.
      assert (Ha : (next_alloc s0).1 = (next_alloc s).1).
      { unfold next_alloc. simpl. by destruct (allocs s). }
      by rewrite Ha.
Qed.

End facts.

Section facts.
Context (E : Env).

(** X23. When no return message can be allocated ([newReturn] fails),
    a Bootstrap and a Call are treated differently.  For a Bootstrap
    with a new answer id, an answer holding the error is put in the
    table, the error is reported and returned, which ends the receive
    loop.  For a Call with a new answer id the same is done and the
    message released, but [handleCall] returns nil and the receive loop
    goes on with the next message. *)
Theorem newReturn_failure (e : error) (msg : incomingMessage)
    (rest : list incomingMessage) (s : Conn) :
  bgctx_done s = false ->
  in_err msg = None ->
  (forall id s1,
     in_Message msg = Message_bootstrap (Ok id) ->
     newReturn E (emit (ReleaseMsg (in_Release msg)) s) = (Some e, s1) ->
     answers s1 !! id = None ->
     let err := Annotate e "incoming bootstrap" [] in
     receive E (msg :: rest) s =
     (Received (Returns (Some err)),
      report err (set_answers (<[id := errorAnswer E id err]> (answers s1)) s1))) /\
  (forall call s2,
     in_Message msg = Message_call (Ok call) ->
     call_SendResultsTo call = SendResultsTo_caller ->
     answers s !! call_QuestionId call = None ->
     newReturn E (parseCall E call s).2 = (Some e, s2) ->
     let id := call_QuestionId call in
     let err := Annotate e "incoming call" [] in
     receive E (msg :: rest) s =
     receive E rest
       (emit (ReleaseMsg (in_Release msg))
          (report err (set_answers (<[id := errorAnswer E id err]> (answers s2)) s2)))).
Proof.
  intros Hbg Herr. split.
  - intros id s1 Hm Hnew Hans err. simpl. rewrite Hbg, Herr, Hm.
    unfold handleBootstrap. rewrite Hnew, Hans. done.
  - intros call s2 Hm Hto Hans Hnew id err. simpl. rewrite Hbg, Herr, Hm.
    unfold handleCall. rewrite Hto, Hans.
    destruct (parseCall E call s) as [[p parseErr] s1]. simpl in Hnew.
    rewrite Hnew. done.
Qed.

End facts.

Import Scenario.

(** The statement of [recvPayload_once] for the payload of [c1_return]. *)
Lemma recvPayload_once_witness :
  let r := recvPayload E0 c1_payload c1_conn in
  (exists mtab, captables r.2 !! 9 = Some mtab /\ length mtab = 1%nat /\
                forall j, j ∈ r.1.1.2 <->
                  exists client, mtab !! N.to_nat j = Some client /\
                                 isLocalClient E0 client = true) /\
  (payload_IsValid c1_payload = true ->
   payload_msg c1_payload = payload_msg c1_payload ->
   recvPayload E0 c1_payload r.2 =
   ((Ptr_null, ∅, Some (Failedf "read payload: %w" [] (Some ErrCapTablePopulated))), r.2)).
Proof.
  apply (recvPayload_once E0 c1_payload c1_payload [CapDescriptor_receiverHosted 0]
           (recvPayload E0 c1_payload c1_conn).1.1.1
           (recvPayload E0 c1_payload c1_conn).1.1.2 c1_conn
           (recvPayload E0 c1_payload c1_conn).2).
  - reflexivity.
  - reflexivity.
  - vm_compute. reflexivity.
Defined.

(** The statement of [recvPayload_failure] for a payload whose only
    descriptor names an unknown export. *)
Lemma recvPayload_failure_witness :
  let e := Annotate (Failedf "receive capability: invalid export %d" [5] None)
             "read payload: capability %d" [0] in
  let s' := (recvPayload E0 bad_payload fresh).2 in
  Ptr_null = Ptr_null /\ (∅ : gset N) = ∅ /\ captables s' = captables fresh /\
  (s' = fresh \/
   exists ptab pre d post mtab l s_mid cause,
     payload_CapTable bad_payload = Ok ptab /\ ptab = pre ++ d :: post /\
     recvPayload_loop E0 pre 0 [] ∅ fresh = ((mtab, l, None), s_mid) /\
     length mtab = length pre /\
     recvCap E0 d s_mid = ((Client_null, Some cause), s_mid) /\
     e = Annotate cause "read payload: capability %d" [N.of_nat (length pre)] /\
     s' = emit_all (Client_Release <$> mtab) s_mid).
Proof.
  apply (recvPayload_failure E0 bad_payload fresh (recvPayload E0 bad_payload fresh).2).
  vm_compute. reflexivity.
Defined.

(** The statement of [parseReturn_only_locals] for [c1_return]. *)
Lemma parseReturn_only_locals_witness :
  let content := Ptr_struct [Ptr_interface 0] in
  let mtab := [Client_server 5] in
  let pr := (parseReturn E0 c1_return c1_called c1_conn).1 in
  let s' := (parseReturn E0 c1_return c1_called c1_conn).2 in
  exists mtab',
    captables s' !! ret_msg c1_return = Some mtab' /\
    length mtab' = length mtab /\
    (length (pr_disembargoes pr) <= length c1_called)%nat /\
    (forall sl, sl ∈ pr_disembargoes pr ->
       sl_question sl = ret_AnswerId c1_return /\ sl_transform sl ∈ c1_called /\
       exists i client,
         reaches E0 content (sl_transform sl) i = true /\
         mtab !! N.to_nat i = Some client /\ isLocalClient E0 client = true /\
         mtab' !! N.to_nat i = Some (Client_embargo client)) /\
    (forall k c, mtab !! k = Some c ->
       mtab' !! k = Some c \/
       (mtab' !! k = Some (Client_embargo c) /\ isLocalClient E0 c = true /\
        exists x, x ∈ c1_called /\ reaches E0 content x (N.of_nat k) = true)).
Proof.
  apply (parseReturn_only_locals E0 c1_return c1_payload c1_called
           (Ptr_struct [Ptr_interface 0])
           (recvPayload E0 c1_payload c1_conn).1.1.2 [Client_server 5] c1_conn
           (recvPayload E0 c1_payload c1_conn).2).
  - reflexivity.
  - reflexivity.
  - vm_compute. reflexivity.
  - vm_compute. reflexivity.
Defined.

(** The statement of [handleReturn_resolve] for [c1_return], arriving
    for a pending question. *)
Lemma handleReturn_resolve_witness :
  let qid := ret_AnswerId c1_return in
  let s0 := update_question 10 set_finished
              (set_questions (<[N.to_nat qid := None]> (questions pending_conn))
                 pending_conn) in
  let pr := (parseReturn E0 c1_return (q_called pending_question) s0).1 in
  let kept := negb (q_bootstrapPromise pending_question)
              && negb (bool_decide (is_Some (pr_err pr))) in
  let r := handleReturn E0 c1_return 9 pending_conn in
  exists qv1 s' jobs fin,
    r.1 = Returns None /\ sendq r.2 = sendq pending_conn /\
    questionID r.2 = questionID pending_conn /\
    goroutines r.2 = goroutines pending_conn ++ [Task_resolve 10 qid pr 9] /\
    heap r.2 !! 10 = Some qv1 /\ finished (q_flags qv1) = true /\
    q_release qv1 = (if kept then Some 9 else q_release pending_question) /\
    runTask (Task_resolve 10 qid pr 9) r.2 = Some s' /\
    log s' = log r.2 ++ [Promise_Resolve 10 (pr_result pr) (pr_err pr)] ++
             (if q_bootstrapPromise pending_question
              then [BootstrapPromise_Fulfill 10; Promise_ReleaseClients 10; ReleaseMsg 9]
              else if kept then [] else [ReleaseMsg 9]) /\
    sendq s' = sendq pending_conn ++ jobs ++ [fin] /\
    Forall2 (fun sl job => as_onSent job = Some OnSent_return_disembargo /\
                           forall m, as_send job = Ok m -> m = buildDisembargo sl)
            (pr_disembargoes pr) jobs /\
    as_onSent fin = Some (OnSent_return_finish 10 qid) /\
    (forall m, as_send fin = Ok m -> m = Out_finish qid false).
Proof.
  apply (handleReturn_resolve E0 c1_return 9 10 pending_question pending_conn);
    reflexivity.
Defined.

(** The statement of [handleFinish_marks] for the running answer of
    [c5_conn]. *)
Lemma handleFinish_marks_witness :
  let ans := set_a_cancel new_answer in
  let s1 := (handleFinish E0 3 true c5_conn).2 in
  (handleFinish E0 3 true c5_conn).1 = Returns None /\
  answers s1 !! 3 =
    Some (set_a_flags (mkAFlags false true (resultsReady (a_flags ans))
                         (true || releaseResultCapsFlag (a_flags ans))) ans) /\
  (forall id', id' <> 3 -> answers s1 !! id' = answers c5_conn !! id') /\
  log s1 = log c5_conn ++ (if a_cancel ans then [AnswerCancel 3] else []) /\
  sendq s1 = sendq c5_conn /\
  (forall again,
     handleFinish E0 3 again s1 =
     (Returns (Some (Failedf "incoming finish: answer ID %d already received finish"
                       [3] None)), s1)).
Proof.
  apply (handleFinish_marks E0 3 true (set_a_cancel new_answer) c5_conn); reflexivity.
Defined.


(** The statement of [shutdown_releases] for [c5_conn]. *)
Lemma shutdown_releases_witness :
  exists evs,
    log (shutdown false None c5_conn).2 = log c5_conn ++ evs /\
    Client_Release (bootstrap c5_conn) ∈ evs /\
    (forall i e, exports c5_conn !! i = Some (Some e) ->
       ClearExportID (exp_client e) ∈ evs /\ Client_Release (exp_client e) ∈ evs) /\
    (forall i e, embargoes c5_conn !! i = Some (Some e) -> Embargo_lift (emb_client e) ∈ evs) /\
    (forall id a, answers c5_conn !! id = Some a ->
       (a_cancel a = true -> AnswerCancel id ∈ evs) /\
       (a_msgReleaser a = true -> MsgReleaser_Decr id ∈ evs)) /\
    (forall i oq, questions c5_conn !! i = Some oq ->
       flagged_finished (heap c5_conn) oq = false ->
       Question_Reject oq ExcClosed ∈ evs) /\
    count is_Question_Reject evs =
      length (filter (fun oq => flagged_finished (heap c5_conn) oq = false)
                     (questions c5_conn)).
Proof.
  apply (shutdown_releases false None c5_conn). reflexivity.
Defined.

(** The statement of [shutdown_sends_only_abort] for a [Close] of
    [c5_conn]. *)
Lemma shutdown_sends_only_abort_witness :
  let abortErr := Some (Failed ErrConnClosed) in
  exists evs,
    log (shutdown false abortErr c5_conn).2 = log c5_conn ++ evs /\
    (forall m, Transport_Send m ∈ evs -> exists e, abortErr = Some e /\ m = Out_abort e) /\
    (count is_Transport_Send evs <= 1)%nat /\
    (abortErr = None -> count is_Transport_Send evs = 0%nat) /\
    (forall job tag, job ∈ sendq c5_conn -> as_onSent job = Some (OnSent_external tag) ->
       OnSent_called tag (Some (Disconnected ErrConnClosed)) ∈ evs) /\
    sendq (shutdown false abortErr c5_conn).2 = [].
Proof.
  apply (shutdown_sends_only_abort false (Some (Failed ErrConnClosed)) c5_conn).
  reflexivity.
Defined.


(** The statement of [remote_abort_shutdown] for an abort that reaches
    [c5_conn]. *)
Lemma remote_abort_shutdown_witness :
  exists e evs,
    let s1 := emit (ReleaseMsg (in_Release abort_message)) (report e c5_conn) in
    receive E0 (abort_message :: []) c5_conn = (Received (Returns None), s1) /\
    let s2 := monitor false (backgroundTask None) s1 in
    log s2 = log s1 ++ evs /\
    count is_Transport_Send evs = 0%nat /\
    count is_Transport_Close evs = 1%nat /\
    closed s2 = true /\ sendq s2 = [] /\ questions s2 = [] /\ answers s2 = ∅ /\
    exports s2 = [] /\ imports s2 = ∅ /\ embargoes s2 = [].
Proof.
  apply (remote_abort_shutdown E0 abort_message [] (Ok (mkException 0 (Ok "bye")))
           false c5_conn); reflexivity.
Defined.


(** The statement of [receive_unknown_kind] for a message of kind 42
    that reaches a fresh connection. *)
Lemma receive_unknown_kind_witness :
  let msg := mkIncoming (Message_other 42) 7 None in
  (in_Message msg = Message_unimplemented ->
   receive E0 (msg :: []) fresh = receive E0 [] fresh) /\
  (forall w, in_Message msg = Message_other w ->
     exists s1 job,
       receive E0 (msg :: []) fresh = receive E0 [] s1 /\
       sendq s1 = sendq fresh ++ [job] /\ as_onSent job = None /\
       (forall m, as_send job = Ok m -> m = Out_unimplemented_message (in_Message msg)) /\
       log s1 = log fresh
         ++ [ReportError (Errorf "unknown message type %v from remote" [w] None)]
         ++ (match (next_alloc fresh).1 with
             | Alloc_NewMessage_fails _ => []
             | _ => [ReleaseMsg (in_Release msg)]
             end)).
Proof.
  apply (receive_unknown_kind E0 (mkIncoming (Message_other 42) 7 None) [] fresh);
    reflexivity.
Defined.

(** The statement of [newReturn_failure] for a Bootstrap or a Call that
    reaches a fresh connection which cannot allocate a return message. *)
Lemma newReturn_failure_witness :
  let e := ErrExternal 1 in
  let msg := mkIncoming (Message_bootstrap (Ok 3)) 7 None in
  (forall id s1,
     in_Message msg = Message_bootstrap (Ok id) ->
     newReturn E_noreturn (emit (ReleaseMsg (in_Release msg)) fresh) = (Some e, s1) ->
     answers s1 !! id = None ->
     let err := Annotate e "incoming bootstrap" [] in
     receive E_noreturn (msg :: []) fresh =
     (Received (Returns (Some err)),
      report err (set_answers (<[id := errorAnswer E_noreturn id err]> (answers s1)) s1))) /\
  (forall call s2,
     in_Message msg = Message_call (Ok call) ->
     call_SendResultsTo call = SendResultsTo_caller ->
     answers fresh !! call_QuestionId call = None ->
     newReturn E_noreturn (parseCall E_noreturn call fresh).2 = (Some e, s2) ->
     let id := call_QuestionId call in
     let err := Annotate e "incoming call" [] in
     receive E_noreturn (msg :: []) fresh =
     receive E_noreturn []
       (emit (ReleaseMsg (in_Release msg))
          (report err (set_answers (<[id := errorAnswer E_noreturn id err]> (answers s2)) s2)))).
Proof.
  apply (newReturn_failure E_noreturn (ErrExternal 1)
           (mkIncoming (Message_bootstrap (Ok 3)) 7 None) [] fresh); reflexivity.
Defined.

End RpcProperties.
